(** * go-ssh: the command-chain compiler, the directive parser, the
    scripted interaction engine, the PTY output filter and the encrypted
    password store, embedded from the Go sources (the package [ssh], file
    [ssh/ssh.go], and the package [password]) and checked against the
    specification. *)

From Stdlib Require Import ZArith Lia Ascii String.
From Stdlib.Strings Require Import Byte.
From stdpp Require Import base option list strings gmap fin_maps.

Open Scope Z_scope.

(** ** Go's [strings] package, as far as the sources call it.

    A Go string is a sequence of bytes; it is modelled by [string], a list
    of 8-bit characters. *)
Module GoStrings.

(** The double quote, written by its code so that no literal needs an
    escaped quote. *)
Definition dquote : ascii := "034"%char.

(** [s[n:]] for [n <= len(s)]. *)
Fixpoint skip (n : nat) (s : string) : string :=
  match n, s with
  | O, _ => s
  | S _, EmptyString => EmptyString
  | S k, String _ r => skip k r
  end.

(** [strings.HasPrefix(s, prefix)]. *)
Definition HasPrefix (s prefix : string) : bool := String.prefix prefix s.

(** [strings.TrimPrefix(s, prefix)]. *)
Definition TrimPrefix (s prefix : string) : string :=
  if HasPrefix s prefix then skip (String.length prefix) s else s.

(** [strings.Contains(s, substr)]. *)
Fixpoint Contains (s substr : string) : bool :=
  HasPrefix s substr ||
  match s with
  | EmptyString => false
  | String _ r => Contains r substr
  end.

(** [strings.Join(elems, sep)]. *)
Fixpoint Join (elems : list string) (sep : string) : string :=
  match elems with
  | [] => ""
  | [a] => a
  | a :: rest => a +:+ sep +:+ Join rest sep
  end.

(** The scan of [strings.Replace]: left to right, non-overlapping; [n] is
    the number of replacements still allowed (negative: no limit) and
    [inside] the number of bytes of the current occurrence of [old] still
    to be dropped. *)
Fixpoint replace_scan (s old new : string) (n : Z) (inside : nat) : string :=
  match s with
  | EmptyString => EmptyString
  | String c r =>
      match inside with
      | S k => replace_scan r old new n k
      | O =>
          if n =? 0 then s
          else if HasPrefix s old
               then new +:+ replace_scan r old new (n - 1) (String.length old - 1)
               else String c (replace_scan r old new n 0)
      end
  end.

(** [strings.Replace(s, old, new, n)] for a non-empty [old], which is what
    both call sites pass (the constants ["ssh "] and ["'"]).  An empty
    [old] (Go then inserts [new] around every rune) is not used by the
    program and is left as the identity here. *)
Definition Replace (s old new : string) (n : Z) : string :=
  match old with
  | EmptyString => s
  | _ => replace_scan s old new n 0
  end.

(** [strings.ReplaceAll(s, old, new)] is [Replace(s, old, new, -1)]. *)
Definition ReplaceAll (s old new : string) : string := Replace s old new (-1).

End GoStrings.

(** ** The command-chain compiler: [ConnectWithCommands] of [ssh/ssh.go]. *)
Module Compiler.
Import GoStrings.

(** How a call ends: with an error value, or with the process image
    replaced by [$SHELL -c command] ([syscall.Exec]; a failure of the
    system call itself is outside the model). *)
Inductive outcome :=
| Error (msg : string)
| Exec (command : string).

(** What a call did: the lines written to standard output, in order, and
    how it ended. *)
Record run := Run { stdout : list string; ending : outcome }.

(** [ConnectWithExec]. *)
Definition ConnectWithExec (command : string) : outcome :=
  if String.eqb command "" then Error "no command specified" else Exec command.

(** The loop that looks for the first command containing [ssh]; [i] is the
    index of the head of [commands]; -1 when there is none. *)
Fixpoint firstSSHIndex_from (i : Z) (commands : list string) : Z :=
  match commands with
  | [] => -1
  | cmd :: rest =>
      if Contains cmd "ssh" then i else firstSSHIndex_from (i + 1) rest
  end.

Definition firstSSHIndex (commands : list string) : Z :=
  firstSSHIndex_from 0 commands.

(** The loop that writes the remote script; [i] is the index of the head
    of [cmds] and [len] is [len(remoteCommands)]. *)
Fixpoint remoteScript_from (i len : Z) (cmds : list string) : string :=
  match cmds with
  | [] => ""
  | cmd :: rest =>
      (if 0 <? i then "; " else "")
      +:+ (if (i =? len - 1) && Contains cmd "ssh" then "exec " else "")
      +:+ cmd
      +:+ remoteScript_from (i + 1) len rest
  end.

Definition remoteScript (remoteCommands : list string) : string :=
  remoteScript_from 0 (Z.of_nat (length remoteCommands)) remoteCommands.

(** The SSH command with [-tt] ensured. *)
Definition sshCommand (firstSSH : string) : string :=
  if negb (Contains firstSSH " -tt") && negb (Contains firstSSH " -t ")
  then Replace firstSSH "ssh " "ssh -tt " 1
  else firstSSH.

(** The replacement for one single quote: close the quoting, a
    double-quoted single quote, reopen the quoting. *)
Definition quoteEscape : string :=
  String "'" (String dquote (String "'" (String dquote (String "'" "")))).

Definition escapedScript (script : string) : string :=
  ReplaceAll script "'" quoteEscape.

(** [fmt.Sprintf("%s '%s'", sshCommand, escapedScript)]. *)
Definition finalCommand (ssh script : string) : string :=
  ssh +:+ " '" +:+ escapedScript script +:+ "'".

(** [ConnectWithCommands]. *)
Definition ConnectWithCommands (commands : list string) : run :=
  if Z.of_nat (length commands) =? 0 then Run [] (Error "no commands specified")
  else if Z.of_nat (length commands) =? 1
  then Run [] (ConnectWithExec (nth 0 commands ""))
  else
    let i := firstSSHIndex commands in
    if i =? -1 then Run [] (ConnectWithExec (Join commands " && "))
    else
      let firstSSH := nth (Z.to_nat i) commands "" in
      if i =? Z.of_nat (length commands) - 1 then Run [] (ConnectWithExec firstSSH)
      else
        let preCommands := if 0 <? i then take (Z.to_nat i) commands else [] in
        let remoteCommands := drop (Z.to_nat (i + 1)) commands in
        let final := finalCommand (sshCommand firstSSH) (remoteScript remoteCommands) in
        let final :=
          if 0 <? Z.of_nat (length preCommands)
          then Join preCommands " && " +:+ " && " +:+ final
          else final in
        Run ["Executing: " +:+ final +:+ String "010" ""] (ConnectWithExec final).

(** What the compiled command holds before the SSH command: the pre-steps,
    each followed by [&&]. *)
Definition preSteps (preCommands : list string) : string :=
  match preCommands with
  | [] => ""
  | _ => Join preCommands " && " +:+ " && "
  end.

(** The escaping as the specification words it: every single quote is
    replaced by [quoteEscape], every other character is kept. *)
Fixpoint escape_each (script : string) : string :=
  match script with
  | EmptyString => EmptyString
  | String c r =>
      (if Ascii.eqb c "'" then quoteEscape else String c EmptyString) +:+ escape_each r
  end.

(** *** Reading a word the way a POSIX shell does.

    This is the specification side of the quoting claim: quote removal for
    one shell word made of unquoted, single-quoted and double-quoted
    parts (POSIX.1 Shell Command Language, 2.2 Quoting).  [None] means
    that the text is not one literal word: a quote is left open, the word
    ends early, or an expansion would take place. *)
Inductive quoting := Unquoted | InSingle | InDouble.

(** Characters that end a word or start an expansion or a pattern when
    they are not quoted. *)
Definition special_unquoted (c : ascii) : bool :=
  existsb (Ascii.eqb c)
    [" "; "009"; "010"; "|"; "&"; ";"; "<"; ">"; "("; ")"; "$"; "`";
     "*"; "?"; "["; "#"; "~"; "="; "%"; "!"; "{"; "}"]%char.

Fixpoint sh_word (q : quoting) (s : string) : option string :=
  match s with
  | EmptyString => match q with Unquoted => Some "" | _ => None end
  | String c r =>
      match q with
      | Unquoted =>
          if Ascii.eqb c "'" then sh_word InSingle r
          else if Ascii.eqb c dquote then sh_word InDouble r
          else if Ascii.eqb c "\" then
            match r with
            | EmptyString => None
            | String d r' =>
                if Ascii.eqb d "010" then sh_word Unquoted r'
                else String d <$> sh_word Unquoted r'
            end
          else if special_unquoted c then None
          else String c <$> sh_word Unquoted r
      | InSingle =>
          if Ascii.eqb c "'" then sh_word Unquoted r
          else String c <$> sh_word InSingle r
      | InDouble =>
          if Ascii.eqb c dquote then sh_word Unquoted r
          else if Ascii.eqb c "$" || Ascii.eqb c "`" then None
          else if Ascii.eqb c "\" then
            match r with
            | EmptyString => None
            | String d r' =>
                if Ascii.eqb d "010" then sh_word InDouble r'
                else if Ascii.eqb d "$" || Ascii.eqb d "`"
                        || Ascii.eqb d dquote || Ascii.eqb d "\"
                then String d <$> sh_word InDouble r'
                else String c <$> (String d <$> sh_word InDouble r')
            end
          else String c <$> sh_word InDouble r
      end
  end.

(** The literal text a shell reads from one word. *)
Definition sh_unquote (w : string) : option string := sh_word Unquoted w.

(** *** Facts about the compiler. *)

Lemma Contains_ssh_nonempty (s : string) :
  Contains s "ssh" = true -> String.eqb s "" = false.
Proof. destruct s; [discriminate | reflexivity]. Qed.

(** The search stops at the first command that contains [ssh]. *)
Lemma firstSSHIndex_from_app (pre : list string) (cmd : string) (rest : list string) (i : Z) :
  Forall (fun c => Contains c "ssh" = false) pre ->
  Contains cmd "ssh" = true ->
  firstSSHIndex_from i (pre ++ cmd :: rest) = i + Z.of_nat (length pre).
Proof.
  intros Hpre Hcmd. revert i.
  induction Hpre as [|c pre Hc _ IH]; intros i; simpl.
  - rewrite Hcmd. lia.
  - rewrite Hc, IH. lia.
Qed.

Lemma firstSSHIndex_from_none (cmds : list string) (i : Z) :
  Forall (fun c => Contains c "ssh" = false) cmds ->
  firstSSHIndex_from i cmds = -1.
Proof.
  intros H. revert i. induction H as [|c cmds Hc _ IH]; intros i; simpl.
  - reflexivity.
  - rewrite Hc. apply IH.
Qed.

(** A list of two or more commands, none of which contains [ssh], is
    chained with [&&]. *)
Lemma no_ssh_joins (commands : list string) :
  (2 <= length commands)%nat ->
  Forall (fun c => Contains c "ssh" = false) commands ->
  ConnectWithCommands commands = Run [] (ConnectWithExec (Join commands " && ")).
Proof.
  intros Hlen Hnone. unfold ConnectWithCommands, firstSSHIndex.
  rewrite (firstSSHIndex_from_none _ _ Hnone).
  destruct (Z.eqb_spec (Z.of_nat (length commands)) 0) as [E|_]; [lia|].
  destruct (Z.eqb_spec (Z.of_nat (length commands)) 1) as [E|_]; [lia|].
  reflexivity.
Qed.

(** A list of one command is that command, unchanged. *)
Lemma single_command (command : string) :
  ConnectWithCommands [command] = Run [] (ConnectWithExec command).
Proof. reflexivity. Qed.

(** C4: the three-step jump-host list of the specification compiles to
    exactly [ssh -tt jumphost@bastion 'sleep 2; exec ssh user@internal-server']:
    that string is echoed and handed to the shell. *)
Theorem compile_jump_host_example :
  ConnectWithCommands
    ["ssh jumphost@bastion"; "sleep 2"; "ssh user@internal-server"]
  = Run ["Executing: ssh -tt jumphost@bastion 'sleep 2; exec ssh user@internal-server'"
           +:+ String "010" ""]
        (Exec "ssh -tt jumphost@bastion 'sleep 2; exec ssh user@internal-server'").
Proof. vm_compute. reflexivity. Qed.

(** C5: when the first command that contains [ssh] is the last one of a list
    of two or more, the compiled command is that command alone; the commands
    before it are not part of it, and nothing is echoed. *)
Theorem ssh_last_drops_pre_steps (pre : list string) (last : string) :
  pre <> [] ->
  Forall (fun c => Contains c "ssh" = false) pre ->
  Contains last "ssh" = true ->
  ConnectWithCommands (pre ++ [last]) = Run [] (Exec last).
Proof.
  intros Hne Hpre Hlast. unfold ConnectWithCommands, firstSSHIndex.
  rewrite (firstSSHIndex_from_app pre last [] 0 Hpre Hlast).
  rewrite length_app. simpl length.
  assert (Hlen : (0 < length pre)%nat) by (destruct pre; [congruence | simpl; lia]).
  destruct (Z.eqb_spec (Z.of_nat (length pre + 1)) 0) as [E|_]; [lia|].
  destruct (Z.eqb_spec (Z.of_nat (length pre + 1)) 1) as [E|_]; [lia|].
  destruct (Z.eqb_spec (0 + Z.of_nat (length pre)) (-1)) as [E|_]; [lia|].
  destruct (Z.eqb_spec (0 + Z.of_nat (length pre)) (Z.of_nat (length pre + 1) - 1)) as [_|E]; [|lia].
  replace (Z.to_nat (0 + Z.of_nat (length pre))) with (length pre + 0)%nat by lia.
  rewrite app_nth2_plus. simpl nth.
  unfold ConnectWithExec. rewrite (Contains_ssh_nonempty _ Hlast). reflexivity.
Qed.

Lemma ssh_last_drops_pre_steps_witness :
  ConnectWithCommands (["cd /tmp"; "echo hi"] ++ ["ssh host"]) = Run [] (Exec "ssh host").
Proof.
  apply (ssh_last_drops_pre_steps ["cd /tmp"; "echo hi"] "ssh host").
  - discriminate.
  - repeat constructor.
  - reflexivity.
Defined.

(** [ReplaceAll] with the pattern of one quote replaces every quote. *)
Lemma replace_scan_each (script : string) (n : Z) :
  n < 0 -> replace_scan script "'" quoteEscape n 0 = escape_each script.
Proof.
  revert n. induction script as [|c r IH]; intros n Hn; [reflexivity|].
  cbn [replace_scan escape_each]. destruct (Z.eqb_spec n 0) as [E|_]; [lia|].
  unfold HasPrefix. cbn [String.prefix].
  destruct (ascii_dec "'" c) as [<-|Hc].
  - assert (String.prefix "" r = true) as -> by (destruct r; reflexivity).
    change (String.length "'" - 1)%nat with 0%nat.
    change (Ascii.eqb "'" "'") with true. cbn iota. by rewrite (IH (n - 1)) by lia.
  - destruct (Ascii.eqb_spec c "'") as [E|_]; [congruence|]. by rewrite (IH n Hn).
Qed.

(** Reading the escaped script from inside single quotes, up to the closing
    quote, gives the script back. *)
Lemma sh_word_escape_each (script : string) :
  sh_word InSingle (escape_each script +:+ "'") = Some script.
Proof.
  induction script as [|c r IH]; [reflexivity|]. cbn [escape_each].
  destruct (Ascii.eqb_spec c "'") as [->|Hc].
  - change (sh_word InSingle ((quoteEscape +:+ escape_each r) +:+ "'"))
      with (String "'" <$> sh_word InSingle (escape_each r +:+ "'")).
    by rewrite IH.
  - change (sh_word InSingle ((String c "" +:+ escape_each r) +:+ "'"))
      with (if Ascii.eqb c "'" then sh_word Unquoted (escape_each r +:+ "'")
            else String c <$> sh_word InSingle (escape_each r +:+ "'")).
    destruct (Ascii.eqb_spec c "'") as [E|_]; [congruence|]. by rewrite IH.
Qed.

Lemma string_append_assoc (a b c : string) : (a +:+ b) +:+ c = a +:+ (b +:+ c).
Proof.
  induction a as [|x a IH]; [done|].
  change (String x ((a +:+ b) +:+ c) = String x (a +:+ (b +:+ c))). by rewrite IH.
Qed.

Lemma append_nonempty (a b : string) : b <> "" -> String.eqb (a +:+ b) "" = false.
Proof.
  intros Hb. apply String.eqb_neq. destruct a; [done|]. discriminate.
Qed.

(** The compiler on a list split at its first command that contains
    [ssh]. *)
Lemma ConnectWithCommands_split (pre : list string) (ssh : string) (rest : list string) :
  Forall (fun c => Contains c "ssh" = false) pre ->
  Contains ssh "ssh" = true ->
  ConnectWithCommands (pre ++ ssh :: rest) =
    match rest with
    | [] => Run [] (Exec ssh)
    | _ =>
        let final := finalCommand (sshCommand ssh) (remoteScript rest) in
        let final :=
          match pre with
          | [] => final
          | _ => Join pre " && " +:+ " && " +:+ final
          end in
        Run ["Executing: " +:+ final +:+ String "010" ""] (Exec final)
    end.
Proof.
  intros Hpre Hssh. unfold ConnectWithCommands, firstSSHIndex.
  rewrite (firstSSHIndex_from_app pre ssh rest 0 Hpre Hssh).
  rewrite length_app. cbn [length].
  destruct (Z.eqb_spec (Z.of_nat (length pre + S (length rest))) 0) as [E|_]; [lia|].
  replace (Z.to_nat (0 + Z.of_nat (length pre))) with (length pre + 0)%nat by lia.
  rewrite app_nth2_plus. cbn [nth].
  assert (Hexec : ConnectWithExec ssh = Exec ssh).
  { unfold ConnectWithExec. by rewrite (Contains_ssh_nonempty _ Hssh). }
  destruct (Z.eqb_spec (Z.of_nat (length pre + S (length rest))) 1) as [E|Hlen].
  { destruct pre; [|cbn [length] in E; lia]. destruct rest; [|cbn [length] in E; lia].
    cbn [app nth]. by rewrite Hexec. }
  destruct (Z.eqb_spec (0 + Z.of_nat (length pre)) (-1)) as [E|_]; [lia|].
  destruct rest as [|r0 rest].
  { destruct (Z.eqb_spec (0 + Z.of_nat (length pre))
                (Z.of_nat (length pre + S (length (@nil string))) - 1)) as [_|E];
      [|cbn [length] in E; lia].
    by rewrite Hexec. }
  destruct (Z.eqb_spec (0 + Z.of_nat (length pre))
              (Z.of_nat (length pre + S (length (r0 :: rest))) - 1)) as [E|_];
    [cbn [length] in E; lia|].
  assert (Hdrop : drop (Z.to_nat (0 + Z.of_nat (length pre) + 1))
                    (pre ++ ssh :: r0 :: rest) = r0 :: rest).
  { replace (Z.to_nat (0 + Z.of_nat (length pre) + 1)) with (length (pre ++ [ssh]))
      by (rewrite length_app; cbn [length]; lia).
    replace (pre ++ ssh :: r0 :: rest) with ((pre ++ [ssh]) ++ r0 :: rest)
      by (by rewrite <- app_assoc).
    apply drop_app_length. }
  assert (Htake : take (length pre + 0) (pre ++ ssh :: r0 :: rest) = pre).
  { replace (length pre + 0)%nat with (length pre) by lia. apply take_app_length. }
  rewrite Hdrop, Htake.
  cbv zeta.
  assert (Hne : forall x y, String.eqb (finalCommand x y) "" = false).
  { intros x y. unfold finalCommand. apply append_nonempty. discriminate. }
  destruct pre as [|p0 pre].
  - cbn [length]. change (0 <? 0 + Z.of_nat 0) with false. cbn iota. cbn [length].
    change (0 <? Z.of_nat 0) with false. cbn iota.
    unfold ConnectWithExec. by rewrite Hne.
  - destruct (Z.ltb_spec 0 (0 + Z.of_nat (length (p0 :: pre)))) as [_|E];
      [|cbn [length] in E; lia].
    destruct (Z.ltb_spec 0 (Z.of_nat (length (p0 :: pre)))) as [_|E];
      [|cbn [length] in E; lia].
    unfold ConnectWithExec. rewrite append_nonempty; [done|].
    discriminate.
Qed.

(** C8: the compiler's quoting round-trips.  For every list in which the
    first command that contains [ssh] is followed by remote commands, the
    command that [ConnectWithCommands] echoes and hands to the shell is the
    pre-steps, the SSH command, a space, and one word: the remote script
    with every single quote replaced by [quoteEscape], wrapped in single
    quotes.  Read by the POSIX quoting rules, that word is the remote
    script, byte for byte. *)
Theorem quoting_round_trip (pre : list string) (ssh : string) (r0 : string)
    (rest : list string) :
  Forall (fun c => Contains c "ssh" = false) pre ->
  Contains ssh "ssh" = true ->
  let script := remoteScript (r0 :: rest) in
  let word := "'" +:+ escape_each script +:+ "'" in
  let final := preSteps pre +:+ sshCommand ssh +:+ " " +:+ word in
  ConnectWithCommands (pre ++ ssh :: r0 :: rest)
  = Run ["Executing: " +:+ final +:+ String "010" ""] (Exec final) /\
  sh_unquote word = Some script.
Proof.
  intros Hpre Hssh script word final. split.
  - rewrite (ConnectWithCommands_split _ _ _ Hpre Hssh). cbv zeta.
    assert (finalCommand (sshCommand ssh) (remoteScript (r0 :: rest))
            = sshCommand ssh +:+ " " +:+ word) as ->.
    { unfold finalCommand, escapedScript, ReplaceAll, Replace.
      rewrite replace_scan_each by lia. reflexivity. }
    unfold final, preSteps. destruct pre as [|p0 pre]; [reflexivity|].
    by rewrite (string_append_assoc (Join (p0 :: pre) " && ") " && ").
  - unfold sh_unquote, word.
    change (sh_word InSingle (escape_each script +:+ "'") = Some script).
    apply sh_word_escape_each.
Qed.

Lemma quoting_round_trip_witness :
  ConnectWithCommands (["cd /tmp"] ++ "ssh host" :: "echo 'a b'" :: ["ls"])
  = Run ["Executing: cd /tmp && ssh -tt host 'echo '"
           +:+ String dquote "'" +:+ String dquote "'a b'" +:+ String dquote "'"
           +:+ String dquote "'; ls'" +:+ String "010" ""]
        (Exec ("cd /tmp && ssh -tt host 'echo '"
                 +:+ String dquote "'" +:+ String dquote "'a b'" +:+ String dquote "'"
                 +:+ String dquote "'; ls'")) /\
  sh_unquote ("'echo '" +:+ String dquote "'" +:+ String dquote "'a b'"
                +:+ String dquote "'" +:+ String dquote "'; ls'")
  = Some "echo 'a b'; ls".
Proof.
  apply (quoting_round_trip ["cd /tmp"] "ssh host" "echo 'a b'" ["ls"]).
  - repeat constructor.
  - reflexivity.
Defined.

Example compile_examples :
  ConnectWithCommands ["ssh host1"] = Run [] (Exec "ssh host1") /\
  ending (ConnectWithCommands ["ssh host1"; "ssh host2"])
  = Exec "ssh -tt host1 'exec ssh host2'" /\
  ConnectWithCommands ["cd /tmp"; "ls"] = Run [] (Exec "cd /tmp && ls").
Proof. repeat split; vm_compute; reflexivity. Qed.

End Compiler.

(** ** Go's [fmt.Sscanf] with the format [%d], as the engine calls it.

    Modelled from the package [fmt] (scan.go): [doScanf] skips leading
    space, then [scanInt] accepts one optional sign and the longest run of
    decimal digits and converts the token with [strconv.ParseInt(tok, 10,
    64)].  Input after the digits is left unread and is no error.  On any
    error (no digit, a newline in the leading space, a value outside 64
    bits) the argument is not assigned. *)
Module GoFmt.

Definition code (c : ascii) : N := N_of_ascii c.

(** The width in bytes of the space character that starts [s], 0 when [s]
    does not start with one.  The spaces are those of [fmt]'s table: U+0009
    to U+000D, U+0020, U+0085, U+00A0, U+1680, U+2000 to U+200A, U+2028,
    U+2029, U+202F, U+205F and U+3000, in their UTF-8 encodings. *)
Definition space_width (s : string) : nat :=
  match s with
  | EmptyString => 0
  | String c0 r0 =>
      let b0 := code c0 in
      if ((9 <=? b0) && (b0 <=? 13) || (b0 =? 32))%N then 1
      else
        match r0 with
        | EmptyString => 0
        | String c1 r1 =>
            let b1 := code c1 in
            if ((b0 =? 194) && ((b1 =? 133) || (b1 =? 160)))%N then 2
            else
              match r1 with
              | EmptyString => 0
              | String c2 _ =>
                  let b2 := code c2 in
                  if ((b0 =? 225) && (b1 =? 154) && (b2 =? 128))%N then 3
                  else if ((b0 =? 226) && (b1 =? 128)
                           && ((128 <=? b2) && (b2 <=? 138) || (b2 =? 168)
                               || (b2 =? 169) || (b2 =? 175)))%N then 3
                  else if ((b0 =? 226) && (b1 =? 129) && (b2 =? 159))%N then 3
                  else if ((b0 =? 227) && (b1 =? 128) && (b2 =? 128))%N then 3
                  else 0
              end
        end
  end%nat.

(** [SkipSpace] of a scan that does not take newlines as space; [inside] is
    the number of bytes of the current space character still to be passed.
    [None]: the error [unexpected newline]. *)
Fixpoint skipSpace_from (s : string) (inside : nat) : option string :=
  match s with
  | EmptyString => Some EmptyString
  | String c r =>
      match inside with
      | S k => skipSpace_from r k
      | O =>
          if (code c =? 10)%N then None
          else
            match space_width s with
            | O => Some s
            | S k => skipSpace_from r k
            end
      end
  end.

Definition SkipSpace (s : string) : option string := skipSpace_from s 0.

Definition is_digit (c : ascii) : bool := ((48 <=? code c) && (code c <=? 57))%N.

(** The longest run of decimal digits at the start of [s], and the rest. *)
Fixpoint span_digits (s : string) : string * string :=
  match s with
  | EmptyString => (EmptyString, EmptyString)
  | String c r =>
      if is_digit c
      then let '(d, rest) := span_digits r in (String c d, rest)
      else (EmptyString, s)
  end.

(** The number a run of decimal digits denotes, after [acc]. *)
Fixpoint digits_value (acc : Z) (d : string) : Z :=
  match d with
  | EmptyString => acc
  | String c r => digits_value (10 * acc + (Z.of_N (code c) - 48)) r
  end.

Definition minInt64 : Z := - 2 ^ 63.
Definition maxInt64 : Z := 2 ^ 63 - 1.

(** An optional sign at the start of [s]: whether it is a minus, and the
    rest. *)
Definition accept_sign (s : string) : bool * string :=
  match s with
  | String c r =>
      if Ascii.eqb c "-" then (true, r)
      else if Ascii.eqb c "+" then (false, r)
      else (false, s)
  | EmptyString => (false, s)
  end.

(** [fmt.Sscanf(str, "%d", &v)]: the value assigned to [v], or [None] when
    the scan fails and [v] is left as it was. *)
Definition Sscanf_d (str : string) : option Z :=
  match SkipSpace str with
  | None => None
  | Some s =>
      let '(neg, s1) := accept_sign s in
      let '(digits, _) := span_digits s1 in
      match digits with
      | EmptyString => None
      | _ =>
          let n := if neg then - digits_value 0 digits else digits_value 0 digits in
          if (minInt64 <=? n) && (n <=? maxInt64) then Some n else None
      end
  end.

End GoFmt.

(** ** The directive parser: [ParseCommands] of [ssh/ssh.go]. *)
Module Directives.
Import GoStrings.

Inductive CommandType :=
| CommandTypeExec
| CommandTypeSend
| CommandTypeSendPass
| CommandTypeWait
| CommandTypeInteract.

(** [ParsedCommand]; the field [Type] of the source is [Kind] here, [Type]
    being a keyword. *)
Record ParsedCommand := Parsed { Kind : CommandType; Value : string }.

(** The body of the loop of [ParseCommands]: the directive appended for one
    command. *)
Definition parseOne (cmd : string) : ParsedCommand :=
  if HasPrefix cmd "SEND:" then Parsed CommandTypeSend (TrimPrefix cmd "SEND:")
  else if HasPrefix cmd "SENDPASS:" then Parsed CommandTypeSendPass (TrimPrefix cmd "SENDPASS:")
  else if HasPrefix cmd "WAIT:" then Parsed CommandTypeWait (TrimPrefix cmd "WAIT:")
  else if String.eqb cmd "INTERACT" || String.eqb cmd "INTERACTIVE"
       then Parsed CommandTypeInteract ""
  else Parsed CommandTypeExec cmd.

(** The loop of [ParseCommands], with [parsed] the slice built so far. *)
Fixpoint ParseCommands_loop (parsed : list ParsedCommand) (commands : list string)
  : list ParsedCommand :=
  match commands with
  | [] => parsed
  | cmd :: rest => ParseCommands_loop (parsed ++ [parseOne cmd]) rest
  end.

Definition ParseCommands (commands : list string) : list ParsedCommand :=
  ParseCommands_loop [] commands.

(** The [Wait] case of the engine: [seconds] after
    [fmt.Sscanf(pc.Value, "%d", &seconds)] on a zero [seconds]. *)
Definition waitSeconds (value : string) : Z :=
  match GoFmt.Sscanf_d value with
  | Some n => n
  | None => 0
  end.

(** A 64-bit signed integer after an overflowing operation. *)
Definition wrap64 (z : Z) : Z := (z + 2 ^ 63) mod 2 ^ 64 - 2 ^ 63.

(** One second, in nanoseconds ([time.Second]). *)
Definition Second : Z := 1000000000.

(** The most seconds whose duration in nanoseconds fits 64 bits. *)
Definition maxWaitSeconds : Z := 9223372036.

(** The [Wait] case of the engine: the duration, in nanoseconds, that
    [time.Sleep] is called with; [None] when it is not called
    ([seconds > 0] is false). *)
Definition waitSleep (value : string) : option Z :=
  let seconds := waitSeconds value in
  if 0 <? seconds then Some (wrap64 (seconds * Second)) else None.

(** *** The rules of the specification, section 4.1. *)

(** The directive the specification gives a string. *)
Inductive classifies : string -> ParsedCommand -> Prop :=
| classifies_send (v : string) :
    classifies ("SEND:" +:+ v) (Parsed CommandTypeSend v)
| classifies_sendpass (v : string) :
    classifies ("SENDPASS:" +:+ v) (Parsed CommandTypeSendPass v)
| classifies_wait (v : string) :
    classifies ("WAIT:" +:+ v) (Parsed CommandTypeWait v)
| classifies_interact (s : string) :
    s = "INTERACT" \/ s = "INTERACTIVE" ->
    classifies s (Parsed CommandTypeInteract "")
| classifies_exec (s : string) :
    (forall v, s <> "SEND:" +:+ v) ->
    (forall v, s <> "SENDPASS:" +:+ v) ->
    (forall v, s <> "WAIT:" +:+ v) ->
    s <> "INTERACT" -> s <> "INTERACTIVE" ->
    classifies s (Parsed CommandTypeExec s).

(** A decimal integer written in full: an optional sign and one or more
    digits, nothing else.  This is what the specification calls a numeric
    value. *)
Definition all_digits (s : string) : bool :=
  match GoFmt.span_digits s with
  | (String _ _, EmptyString) => true
  | _ => false
  end.

Definition numeric (value : string) : bool :=
  all_digits (snd (GoFmt.accept_sign value)).

(** Every character of [s] satisfies [P]. *)
Fixpoint string_forallb (P : ascii -> bool) (s : string) : bool :=
  match s with
  | EmptyString => true
  | String c r => P c && string_forallb P r
  end.

(** A non-empty run of decimal digits. *)
Definition digits_only (d : string) : bool :=
  match d with
  | EmptyString => false
  | _ => string_forallb GoFmt.is_digit d
  end.

(** [rest] does not go on with a digit. *)
Definition no_digit_ahead (rest : string) : bool :=
  match rest with
  | EmptyString => true
  | String c _ => negb (GoFmt.is_digit c)
  end.

(** The white space that the scan passes in front of a number: the space
    characters of [fmt] other than the newline, each in UTF-8.  They are
    U+0009, U+000B, U+000C, U+000D, U+0020, U+0085, U+00A0, U+1680, U+2000
    to U+200A, U+2028, U+2029, U+202F, U+205F and U+3000. *)
Definition blank_chars : list string :=
  [String "009" ""; String "011" ""; String "012" ""; String "013" ""; " ";
   String "194" (String "133" ""); String "194" (String "160" "");
   String "225" (String "154" (String "128" ""));
   String "226" (String "128" (String "128" ""));
   String "226" (String "128" (String "129" ""));
   String "226" (String "128" (String "130" ""));
   String "226" (String "128" (String "131" ""));
   String "226" (String "128" (String "132" ""));
   String "226" (String "128" (String "133" ""));
   String "226" (String "128" (String "134" ""));
   String "226" (String "128" (String "135" ""));
   String "226" (String "128" (String "136" ""));
   String "226" (String "128" (String "137" ""));
   String "226" (String "128" (String "138" ""));
   String "226" (String "128" (String "168" ""));
   String "226" (String "128" (String "169" ""));
   String "226" (String "128" (String "175" ""));
   String "226" (String "129" (String "159" ""));
   String "227" (String "128" (String "128" ""))].

(** A run of white space: any number of those characters, and no
    newline. *)
Inductive blank_run : string -> Prop :=
| blank_run_nil : blank_run ""
| blank_run_cons (sp b : string) :
    In sp blank_chars -> blank_run b -> blank_run (sp +:+ b).

(** A sign, or none. *)
Definition is_sign (sg : string) : bool :=
  String.eqb sg "" || String.eqb sg "+" || String.eqb sg "-".

(** The integer that a sign and a run of digits denote. *)
Definition signed_value (sg digits : string) : Z :=
  if String.eqb sg "-" then - GoFmt.digits_value 0 digits
  else GoFmt.digits_value 0 digits.


(** *** Facts about the parser. *)

Lemma append_cons (c : ascii) (s t : string) : String c s +:+ t = String c (s +:+ t).
Proof. reflexivity. Qed.

Lemma append_nil (t : string) : "" +:+ t = t.
Proof. reflexivity. Qed.

Lemma prefix_append (p v : string) : String.prefix p (p +:+ v) = true.
Proof.
  induction p as [|c p IH].
  - destruct v; reflexivity.
  - rewrite append_cons. cbn [String.prefix].
    destruct (ascii_dec c c); [exact IH | congruence].
Qed.

Lemma prefix_split (p s : string) :
  String.prefix p s = true -> s = p +:+ skip (String.length p) s.
Proof.
  revert s. induction p as [|c p IH]; intros s H.
  - reflexivity.
  - destruct s as [|d s]; [discriminate|].
    cbn [String.prefix] in H. destruct (ascii_dec c d) as [->|]; [|discriminate].
    rewrite append_cons. cbn [String.length skip]. f_equal. apply IH, H.
Qed.

Lemma skip_append (p v : string) : skip (String.length p) (p +:+ v) = v.
Proof. induction p as [|c p IH]; [reflexivity | exact IH]. Qed.

Lemma HasPrefix_true (s p : string) :
  HasPrefix s p = true -> s = p +:+ TrimPrefix s p.
Proof.
  intros H. unfold TrimPrefix. rewrite H. apply prefix_split, H.
Qed.

Lemma HasPrefix_false (s p : string) :
  HasPrefix s p = false -> forall v, s <> p +:+ v.
Proof.
  intros H v ->. unfold HasPrefix in H. rewrite prefix_append in H. discriminate.
Qed.

(** The loop appends one directive per command, in order. *)
Lemma ParseCommands_loop_map (parsed : list ParsedCommand) (commands : list string) :
  ParseCommands_loop parsed commands = parsed ++ map parseOne commands.
Proof.
  revert parsed. induction commands as [|cmd rest IH]; intros parsed; simpl.
  - by rewrite app_nil_r.
  - rewrite IH, <- app_assoc. reflexivity.
Qed.

Lemma ParseCommands_map (commands : list string) :
  ParseCommands commands = map parseOne commands.
Proof. apply ParseCommands_loop_map. Qed.

(** Each command gets the directive the rules of the specification give it. *)
Lemma parseOne_classifies (cmd : string) : classifies cmd (parseOne cmd).
Proof.
  unfold parseOne.
  destruct (HasPrefix cmd "SEND:") eqn:Hsend.
  { rewrite (HasPrefix_true _ _ Hsend) at 1. constructor. }
  destruct (HasPrefix cmd "SENDPASS:") eqn:Hpass.
  { rewrite (HasPrefix_true _ _ Hpass) at 1. constructor. }
  destruct (HasPrefix cmd "WAIT:") eqn:Hwait.
  { rewrite (HasPrefix_true _ _ Hwait) at 1. constructor. }
  destruct (String.eqb_spec cmd "INTERACT") as [->|Hi].
  { constructor. by left. }
  destruct (String.eqb_spec cmd "INTERACTIVE") as [->|Hiv].
  { constructor. by right. }
  cbn [orb]. constructor; auto using HasPrefix_false.
Qed.

(** The rules do not overlap: a string has one directive only. *)
Lemma classifies_unique (s : string) (d1 d2 : ParsedCommand) :
  classifies s d1 -> classifies s d2 -> d1 = d2.
Proof.
  intros H1 H2.
  pose proof (parseOne_classifies s) as H0.
  assert (forall d, classifies s d -> d = parseOne s) as Hd.
  { clear. intros d H. unfold parseOne. destruct H as [v|v|v|s Hs|s H1 H2 H3 H4 H5].
    - unfold HasPrefix, TrimPrefix, HasPrefix. rewrite !prefix_append.
      by rewrite skip_append.
    - unfold HasPrefix, TrimPrefix, HasPrefix. rewrite !prefix_append.
      by rewrite skip_append.
    - unfold HasPrefix, TrimPrefix, HasPrefix. rewrite !prefix_append.
      by rewrite skip_append.
    - by destruct Hs as [-> | ->].
    - destruct (HasPrefix s "SEND:") eqn:E1.
      { exfalso. eapply H1, HasPrefix_true, E1. }
      destruct (HasPrefix s "SENDPASS:") eqn:E2.
      { exfalso. eapply H2, HasPrefix_true, E2. }
      destruct (HasPrefix s "WAIT:") eqn:E3.
      { exfalso. eapply H3, HasPrefix_true, E3. }
      destruct (String.eqb_spec s "INTERACT"); [done|].
      destruct (String.eqb_spec s "INTERACTIVE"); done. }
  rewrite (Hd d1 H1), (Hd d2 H2). reflexivity.
Qed.

(** *** Facts about the [Wait] case. *)

Lemma length_append (a b : string) :
  String.length (a +:+ b) = (String.length a + String.length b)%nat.
Proof.
  induction a as [|c a IH]; [reflexivity|].
  rewrite append_cons. cbn [String.length]. by rewrite IH.
Qed.

Lemma span_digits_stop (rest : string) :
  no_digit_ahead rest = true -> GoFmt.span_digits rest = (EmptyString, rest).
Proof.
  destruct rest as [|c r]; [reflexivity|]. cbn [no_digit_ahead GoFmt.span_digits].
  intros H. by destruct (GoFmt.is_digit c).
Qed.

Lemma span_digits_run (d rest : string) :
  string_forallb GoFmt.is_digit d = true -> no_digit_ahead rest = true ->
  GoFmt.span_digits (d +:+ rest) = (d, rest).
Proof.
  intros Hd Hrest. induction d as [|c d IH].
  - by apply span_digits_stop.
  - cbn [string_forallb] in Hd. apply andb_prop in Hd as [Hc Hd].
    rewrite append_cons. cbn [GoFmt.span_digits]. rewrite Hc, (IH Hd). reflexivity.
Qed.

(** What [span_digits] returns: the digits, and a rest that does not go on
    with one. *)
Lemma span_digits_inv (s d rest : string) :
  GoFmt.span_digits s = (d, rest) ->
  s = d +:+ rest /\ string_forallb GoFmt.is_digit d = true /\ no_digit_ahead rest = true.
Proof.
  revert d. induction s as [|c s IH]; intros d; cbn [GoFmt.span_digits].
  - by intros [= <- <-].
  - destruct (GoFmt.is_digit c) eqn:Hc.
    + destruct (GoFmt.span_digits s) as [d' rest'] eqn:E. intros [= <- <-].
      destruct (IH d' eq_refl) as (-> & Hd & Hrest). cbn [string_forallb].
      by rewrite Hc, Hd.
    + intros [= <- <-]. cbn [no_digit_ahead]. by rewrite Hc.
Qed.

(** A character below U+0080 that is not one of the ASCII spaces starts no
    space character. *)
Lemma space_width_ascii (c : ascii) (r : string) :
  (33 <= GoFmt.code c <= 126)%N -> GoFmt.space_width (String c r) = 0%nat.
Proof.
  intros Hc. unfold GoFmt.space_width.
  assert (((9 <=? GoFmt.code c) && (GoFmt.code c <=? 13)
           || (GoFmt.code c =? 32))%N = false) as ->.
  { apply orb_false_iff. split; [apply andb_false_iff; right; apply N.leb_gt; lia
                                | apply N.eqb_neq; lia]. }
  assert ((GoFmt.code c =? 194)%N = false) as -> by (apply N.eqb_neq; lia).
  assert ((GoFmt.code c =? 225)%N = false) as -> by (apply N.eqb_neq; lia).
  assert ((GoFmt.code c =? 226)%N = false) as -> by (apply N.eqb_neq; lia).
  assert ((GoFmt.code c =? 227)%N = false) as -> by (apply N.eqb_neq; lia).
  destruct r as [|c1 [|c2 r]]; reflexivity.
Qed.

Lemma SkipSpace_ascii (c : ascii) (r : string) :
  (33 <= GoFmt.code c <= 126)%N -> GoFmt.SkipSpace (String c r) = Some (String c r).
Proof.
  intros Hc. unfold GoFmt.SkipSpace. cbn [GoFmt.skipSpace_from].
  assert ((GoFmt.code c =? 10)%N = false) as -> by (apply N.eqb_neq; lia).
  by rewrite space_width_ascii.
Qed.

(** The scan passes each of the white-space characters. *)
Lemma SkipSpace_blank_char (sp s : string) :
  In sp blank_chars -> GoFmt.SkipSpace (sp +:+ s) = GoFmt.SkipSpace s.
Proof.
  intros H. cbn [In blank_chars] in H.
  repeat (destruct H as [<-|H]; [reflexivity|]). destruct H.
Qed.

Lemma SkipSpace_blanks (b s : string) :
  blank_run b -> GoFmt.SkipSpace (b +:+ s) = GoFmt.SkipSpace s.
Proof.
  induction 1 as [|sp b Hsp _ IH]; [reflexivity|].
  by rewrite Compiler.string_append_assoc, SkipSpace_blank_char.
Qed.

Lemma char_of_code (c : ascii) (n : N) : GoFmt.code c = n -> c = ascii_of_N n.
Proof. intros <-. symmetry. apply ascii_N_embedding. Qed.

(** A list holds one of its members. *)
Ltac pick_member := cbn [In blank_chars]; repeat first [left; reflexivity | right].

(** Boolean tests on codes, as arithmetic. *)
Ltac codes H :=
  repeat first [rewrite andb_true_iff in H | rewrite orb_true_iff in H
               | rewrite N.leb_le in H | rewrite N.eqb_eq in H].

Ltac cases H :=
  repeat match type of H with _ \/ _ => destruct H as [H|H] end.

(** Where the scan finds a space character that is no newline, the string
    starts with one of the white-space characters, and the width is its
    length. *)
Lemma space_width_inv (c0 : ascii) (r0 : string) (k : nat) :
  GoFmt.code c0 <> 10%N -> GoFmt.space_width (String c0 r0) = S k ->
  exists t tail,
    In (String c0 t) blank_chars /\ r0 = t +:+ tail /\ String.length t = k.
Proof.
  intros Hnl. unfold GoFmt.space_width.
  destruct ((9 <=? GoFmt.code c0) && (GoFmt.code c0 <=? 13)
            || (GoFmt.code c0 =? 32))%N eqn:E1.
  { intros [= <-]. exists "", r0. split; [|done]. codes E1.
    assert (GoFmt.code c0 = 9 \/ GoFmt.code c0 = 11 \/ GoFmt.code c0 = 12
            \/ GoFmt.code c0 = 13 \/ GoFmt.code c0 = 32)%N as H by lia.
    cases H; apply char_of_code in H; subst c0; pick_member. }
  destruct r0 as [|c1 r1]; [discriminate|].
  destruct ((GoFmt.code c0 =? 194)
            && ((GoFmt.code c1 =? 133) || (GoFmt.code c1 =? 160)))%N eqn:E2.
  { intros [= <-]. exists (String c1 ""), r1. split; [|done]. codes E2.
    destruct E2 as [H0 H1]. apply char_of_code in H0. subst c0.
    cases H1; apply char_of_code in H1; subst c1; pick_member. }
  destruct r1 as [|c2 r2]; [discriminate|].
  destruct ((GoFmt.code c0 =? 225) && (GoFmt.code c1 =? 154)
            && (GoFmt.code c2 =? 128))%N eqn:E3.
  { intros [= <-]. exists (String c1 (String c2 "")), r2. split; [|done]. codes E3.
    destruct E3 as [[H0 H1] H2]. apply char_of_code in H0, H1, H2. subst. pick_member. }
  destruct ((GoFmt.code c0 =? 226) && (GoFmt.code c1 =? 128)
            && ((128 <=? GoFmt.code c2) && (GoFmt.code c2 <=? 138)
                || (GoFmt.code c2 =? 168) || (GoFmt.code c2 =? 169)
                || (GoFmt.code c2 =? 175)))%N eqn:E4.
  { intros [= <-]. exists (String c1 (String c2 "")), r2. split; [|done]. codes E4.
    destruct E4 as [[H0 H1] H2]. apply char_of_code in H0, H1. subst c0 c1.
    assert (GoFmt.code c2 = 128 \/ GoFmt.code c2 = 129 \/ GoFmt.code c2 = 130
            \/ GoFmt.code c2 = 131 \/ GoFmt.code c2 = 132 \/ GoFmt.code c2 = 133
            \/ GoFmt.code c2 = 134 \/ GoFmt.code c2 = 135 \/ GoFmt.code c2 = 136
            \/ GoFmt.code c2 = 137 \/ GoFmt.code c2 = 138 \/ GoFmt.code c2 = 168
            \/ GoFmt.code c2 = 169 \/ GoFmt.code c2 = 175)%N as H by lia.
    cases H; apply char_of_code in H; subst c2; pick_member. }
  destruct ((GoFmt.code c0 =? 226) && (GoFmt.code c1 =? 129)
            && (GoFmt.code c2 =? 159))%N eqn:E5.
  { intros [= <-]. exists (String c1 (String c2 "")), r2. split; [|done]. codes E5.
    destruct E5 as [[H0 H1] H2]. apply char_of_code in H0, H1, H2. subst. pick_member. }
  destruct ((GoFmt.code c0 =? 227) && (GoFmt.code c1 =? 128)
            && (GoFmt.code c2 =? 128))%N eqn:E6; [|discriminate].
  intros [= <-]. exists (String c1 (String c2 "")), r2. split; [|done]. codes E6.
  destruct E6 as [[H0 H1] H2]. apply char_of_code in H0, H1, H2. subst. pick_member.
Qed.

(** Inside a space character the scan passes its remaining bytes. *)
Lemma skipSpace_inside (t tail : string) :
  GoFmt.skipSpace_from (t +:+ tail) (String.length t) = GoFmt.skipSpace_from tail 0.
Proof.
  induction t as [|c t IH]; [reflexivity|].
  rewrite append_cons. cbn [String.length GoFmt.skipSpace_from]. exact IH.
Qed.

(** What the scan has passed when it stops is a run of white space. *)
Lemma skipSpace_inv (n : nat) :
  forall s s', (String.length s <= n)%nat -> GoFmt.skipSpace_from s 0 = Some s' ->
    exists b, blank_run b /\ s = b +:+ s'.
Proof.
  induction n as [|n IH]; intros s s' Hlen.
  - destruct s; [|cbn in Hlen; lia]. intros [= <-]. exists "". split; [constructor | done].
  - destruct s as [|c0 r0].
    { intros [= <-]. exists "". split; [constructor | done]. }
    cbn [GoFmt.skipSpace_from]. destruct (N.eqb_spec (GoFmt.code c0) 10) as [|Hnl]; [done|].
    destruct (GoFmt.space_width (String c0 r0)) as [|k] eqn:Hw.
    { intros [= <-]. exists "". split; [constructor | done]. }
    destruct (space_width_inv c0 r0 k Hnl Hw) as (t & tail & Hsp & -> & <-).
    rewrite skipSpace_inside. intros Hskip.
    destruct (IH tail s') as (b & Hb & ->); [|exact Hskip|].
    { cbn [String.length] in Hlen. rewrite length_append in Hlen. lia. }
    exists (String c0 t +:+ b). split; [by constructor|].
    by rewrite Compiler.string_append_assoc.
Qed.

Lemma SkipSpace_inv (s s' : string) :
  GoFmt.SkipSpace s = Some s' -> exists b, blank_run b /\ s = b +:+ s'.
Proof. apply (skipSpace_inv (String.length s)). lia. Qed.

Lemma accept_sign_inv (s s1 : string) (neg : bool) :
  GoFmt.accept_sign s = (neg, s1) ->
  exists sg, is_sign sg = true /\ s = sg +:+ s1 /\ neg = String.eqb sg "-".
Proof.
  destruct s as [|c r]; cbn [GoFmt.accept_sign].
  - intros [= <- <-]. by exists "".
  - destruct (Ascii.eqb_spec c "-") as [->|_]; [intros [= <- <-]; by exists "-"|].
    destruct (Ascii.eqb_spec c "+") as [->|_]; [intros [= <- <-]; by exists "+"|].
    intros [= <- <-]. by exists "".
Qed.

Lemma is_digit_code (c : ascii) :
  GoFmt.is_digit c = true -> (48 <= GoFmt.code c <= 57)%N.
Proof.
  unfold GoFmt.is_digit. intros H. apply andb_prop in H as [H1 H2].
  apply N.leb_le in H1, H2. lia.
Qed.

(** What the scan reads from white space, a sign, digits and anything
    else. *)
Lemma Sscanf_d_leading (b sg digits rest : string) :
  blank_run b -> is_sign sg = true -> digits_only digits = true ->
  no_digit_ahead rest = true ->
  GoFmt.Sscanf_d (b +:+ sg +:+ digits +:+ rest)
  = let n := signed_value sg digits in
    if (GoFmt.minInt64 <=? n) && (n <=? GoFmt.maxInt64) then Some n else None.
Proof.
  intros Hb Hsg Hd Hrest. unfold GoFmt.Sscanf_d. rewrite (SkipSpace_blanks _ _ Hb).
  destruct digits as [|c d]; [discriminate|]. cbn [digits_only] in Hd.
  pose proof Hd as Hd'. cbn [string_forallb] in Hd'. apply andb_prop in Hd' as [Hc _].
  pose proof (is_digit_code c Hc) as Hcode.
  assert (Ascii.eqb c "-" = false) as Hm.
  { apply Ascii.eqb_neq. intros ->. destruct Hcode as [H1 _]. by apply H1. }
  assert (Ascii.eqb c "+" = false) as Hp.
  { apply Ascii.eqb_neq. intros ->. destruct Hcode as [H1 _]. by apply H1. }
  unfold is_sign in Hsg. unfold signed_value.
  destruct (String.eqb_spec sg "") as [->|_].
  { rewrite append_nil, append_cons, SkipSpace_ascii by lia.
    cbn [GoFmt.accept_sign]. rewrite Hm, Hp, <- append_cons.
    rewrite (span_digits_run _ _ Hd Hrest). reflexivity. }
  destruct (String.eqb_spec sg "+") as [->|_].
  { change ("+" +:+ String c d +:+ rest) with (String "+" (String c d +:+ rest)).
    rewrite SkipSpace_ascii by (vm_compute; split; discriminate).
    cbn [GoFmt.accept_sign]. change (Ascii.eqb "+" "-") with false.
    change (Ascii.eqb "+" "+") with true. cbn iota.
    rewrite (span_digits_run _ _ Hd Hrest). reflexivity. }
  destruct (String.eqb_spec sg "-") as [->|_]; [|discriminate].
  change ("-" +:+ String c d +:+ rest) with (String "-" (String c d +:+ rest)).
  rewrite SkipSpace_ascii by (vm_compute; split; discriminate).
  cbn [GoFmt.accept_sign]. change (Ascii.eqb "-" "-") with true. cbn iota.
  rewrite (span_digits_run _ _ Hd Hrest). reflexivity.
Qed.

(** Whatever the scan reads a number from is white space, a sign or none,
    digits, and a rest. *)
Lemma Sscanf_d_inv (value : string) (n : Z) :
  GoFmt.Sscanf_d value = Some n ->
  exists b sg digits rest,
    blank_run b /\ is_sign sg = true /\ digits_only digits = true /\
    no_digit_ahead rest = true /\
    value = b +:+ sg +:+ digits +:+ rest /\ n = signed_value sg digits.
Proof.
  unfold GoFmt.Sscanf_d.
  destruct (GoFmt.SkipSpace value) as [s|] eqn:Hskip; [|discriminate].
  apply SkipSpace_inv in Hskip as (b & Hb & ->).
  destruct (GoFmt.accept_sign s) as [neg s1] eqn:Hsign.
  apply accept_sign_inv in Hsign as (sg & Hsg & -> & ->).
  destruct (GoFmt.span_digits s1) as [digits rest] eqn:Hspan.
  apply span_digits_inv in Hspan as (-> & Hd & Hrest).
  destruct digits as [|c d]; [discriminate|].
  destruct (_ && _); [|discriminate]. intros [= <-].
  exists b, sg, (String c d), rest. repeat split; try done.
Qed.

Lemma waitSleep_leading (b sg digits rest : string) :
  blank_run b -> is_sign sg = true -> digits_only digits = true ->
  no_digit_ahead rest = true ->
  waitSleep (b +:+ sg +:+ digits +:+ rest)
  = let n := signed_value sg digits in
    if (0 <? n) && (n <=? GoFmt.maxInt64) then Some (wrap64 (n * Second)) else None.
Proof.
  intros Hb Hsg Hd Hrest. unfold waitSleep, waitSeconds.
  rewrite (Sscanf_d_leading _ _ _ _ Hb Hsg Hd Hrest). cbv zeta.
  set (n := signed_value sg digits). unfold GoFmt.minInt64, GoFmt.maxInt64.
  destruct (Z.leb_spec (- 2 ^ 63) n), (Z.leb_spec n (2 ^ 63 - 1)),
    (Z.ltb_spec 0 n); cbn [andb]; try reflexivity; try lia.
  - destruct (Z.ltb_spec 0 n); [reflexivity | lia].
  - destruct (Z.ltb_spec 0 n); [lia | reflexivity].
Qed.

(** A value the scan reads no number from gives no sleep. *)
Lemma waitSleep_no_number (value : string) :
  (forall b sg digits rest,
     blank_run b -> is_sign sg = true -> digits_only digits = true ->
     value <> b +:+ sg +:+ digits +:+ rest) ->
  waitSleep value = None.
Proof.
  intros Hno. unfold waitSleep, waitSeconds.
  destruct (GoFmt.Sscanf_d value) as [n|] eqn:Hscan; [|reflexivity].
  apply Sscanf_d_inv in Hscan as (b & sg & digits & rest & Hb & Hsg & Hd & _ & -> & _).
  by destruct (Hno b sg digits rest).
Qed.

Lemma wrap64_small (z : Z) : - 2 ^ 63 <= z < 2 ^ 63 -> wrap64 z = z.
Proof. intros Hz. unfold wrap64. rewrite Z.mod_small; lia. Qed.

(** C9: the parser gives one directive per command, in the order of the
    commands, each by the rules [SEND:], [SENDPASS:], [WAIT:], [INTERACT] or
    [INTERACTIVE], anything else an [Exec]; the rules give a command one
    directive only.  For a [Wait] the engine reads, after leading white
    space without a newline, an optional sign and the longest run of
    decimal digits, whatever follows them: it sleeps that many seconds when
    the number is positive (up to the longest duration of 64 bits), and
    does not sleep when it is zero or negative; and it does not sleep for
    any value that is not white space, a sign or none, and digits, followed
    by anything. *)
Theorem parse_and_wait_rules (commands : list string) :
  length (ParseCommands commands) = length commands /\
  (forall (i : nat) (s : string), commands !! i = Some s ->
     exists d, ParseCommands commands !! i = Some d /\ classifies s d /\
               forall d', classifies s d' -> d' = d) /\
  (forall b sg digits rest : string,
     blank_run b -> is_sign sg = true -> digits_only digits = true ->
     no_digit_ahead rest = true ->
     (0 < signed_value sg digits <= maxWaitSeconds ->
      waitSleep (b +:+ sg +:+ digits +:+ rest)
      = Some (signed_value sg digits * Second)) /\
     (signed_value sg digits <= 0 ->
      waitSleep (b +:+ sg +:+ digits +:+ rest) = None)) /\
  (forall value : string,
     (forall b sg digits rest : string,
        blank_run b -> is_sign sg = true -> digits_only digits = true ->
        value <> b +:+ sg +:+ digits +:+ rest) ->
     waitSleep value = None).
Proof.
  rewrite ParseCommands_map. split; [apply length_map|]. split; [|split].
  - intros i s Hi. exists (parseOne s). split; [|split].
    + by rewrite list_lookup_fmap, Hi.
    + apply parseOne_classifies.
    + intros d' Hd'. eapply classifies_unique; [exact Hd' | apply parseOne_classifies].
  - intros b sg digits rest Hb Hsg Hd Hrest.
    rewrite (waitSleep_leading _ _ _ _ Hb Hsg Hd Hrest). cbv zeta.
    unfold maxWaitSeconds, GoFmt.maxInt64, Second. split; intros Hn.
    + destruct (Z.ltb_spec 0 (signed_value sg digits)); [|lia].
      destruct (Z.leb_spec (signed_value sg digits) (2 ^ 63 - 1)); [|lia].
      cbn [andb]. f_equal. apply wrap64_small. lia.
    + by destruct (Z.ltb_spec 0 (signed_value sg digits)); [lia|].
  - apply waitSleep_no_number.
Qed.

(** The value [-abc] is not white space, a sign and digits. *)
Lemma sign_then_letters (b sg digits rest : string) :
  blank_run b -> is_sign sg = true -> digits_only digits = true ->
  "-abc" <> b +:+ sg +:+ digits +:+ rest.
Proof.
  intros Hb Hsg Hd. destruct digits as [|c d]; [discriminate|].
  cbn [digits_only string_forallb] in Hd. apply andb_prop in Hd as [Hc _].
  destruct Hb as [|sp b Hsp _].
  - unfold is_sign in Hsg.
    destruct (String.eqb_spec sg "") as [->|_]; [intros [= <-]; discriminate|].
    destruct (String.eqb_spec sg "+") as [->|_]; [discriminate|].
    destruct (String.eqb_spec sg "-") as [->|_]; [|discriminate].
    intros [= <-]. discriminate.
  - cbn [In blank_chars] in Hsp.
    repeat (destruct Hsp as [<-|Hsp]; [discriminate|]). destruct Hsp.
Qed.

Lemma parse_and_wait_rules_witness :
  length (ParseCommands ["ssh host"; "WAIT:2s"; "INTERACT"]) = 3%nat /\
  (exists d, ParseCommands ["ssh host"; "WAIT:2s"; "INTERACT"] !! 1%nat = Some d
             /\ classifies "WAIT:2s" d) /\
  waitSleep "2s" = Some (2 * Second) /\
  waitSleep (String "013" "5") = Some (5 * Second) /\
  waitSleep " -5" = None /\
  waitSleep "-abc" = None.
Proof.
  destruct (parse_and_wait_rules ["ssh host"; "WAIT:2s"; "INTERACT"])
    as (Hlen & Hnth & Hlead & Hnone).
  split; [exact Hlen|]. split.
  { destruct (Hnth 1%nat "WAIT:2s" eq_refl) as (d & Hd & Hc & _). by exists d. }
  split; [|split; [|split]].
  - apply (Hlead "" "" "2" "s"); try reflexivity; [constructor|].
    vm_compute. split; [reflexivity | discriminate].
  - apply (Hlead (String "013" "" +:+ "") "" "5" ""); try reflexivity.
    + apply blank_run_cons; [|constructor]. cbn. tauto.
    + vm_compute. split; [reflexivity | discriminate].
  - apply (Hlead (" " +:+ "") "-" "5" ""); try reflexivity.
    + apply blank_run_cons; [|constructor]. cbn. tauto.
    + vm_compute. discriminate.
  - apply Hnone. apply sign_then_letters.
Defined.

(** The value [3abc] is not a number, and the engine still sleeps three
    seconds for [WAIT:3abc]; a negative number, and a value with no digit
    in front, give no sleep. *)
Lemma wait_non_numeric_counterexample :
  ParseCommands ["WAIT:3abc"] = [Parsed CommandTypeWait "3abc"] /\
  numeric "3abc" = false /\
  waitSleep "3abc" = Some (3 * Second) /\
  waitSleep "3abc" <> None.
Proof. repeat split; discriminate. Qed.

Example parse_examples :
  ParseCommands ["SEND:x"; "SENDPASS:db"; "WAIT:3"; "INTERACT"; "INTERACTIVE"; "ls -l"]
  = [Parsed CommandTypeSend "x"; Parsed CommandTypeSendPass "db";
     Parsed CommandTypeWait "3"; Parsed CommandTypeInteract "";
     Parsed CommandTypeInteract ""; Parsed CommandTypeExec "ls -l"].
Proof. reflexivity. Qed.

Example wait_examples :
  map waitSleep ["3"; "abc"; "-5"; " 7"; "+2"; "0"; ""; "-abc"; "+"; "+ 5"; " abc";
                 String "013" "5"; String "011" "5"; String "012" "5";
                 String "010" "5"]
  = [Some 3000000000; None; None; Some 7000000000; Some 2000000000; None; None;
     None; None; None; None;
     Some 5000000000; Some 5000000000; Some 5000000000; None].
Proof. vm_compute. reflexivity. Qed.

End Directives.

(** ** The output filter: [TerminalFilter.Read] of [ssh/ssh.go]. *)
Module Filter.

(** [TerminalFilter]: the carry-over buffer.  The wrapped reader is the
    environment: each call of [Read] is given the bytes that the reader
    delivered. *)
Record TerminalFilter := { buffer : list byte }.

(** The zero value, as [ConnectInteractive] creates it. *)
Definition new_filter : TerminalFilter := {| buffer := [] |}.

(** [buf[i]] for an index in range. *)
Definition at_ (buf : list byte) (i : nat) : N := Byte.to_N (nth i buf x00).

Definition ESC : byte := x1b.

(** The bytes the scan passes over between [ESC [] and the terminator:
    digits and [; ? = > !] and the space. *)
Definition is_param (b : N) : bool :=
  ((48 <=? b) && (b <=? 57) || (b =? 59) || (b =? 63) || (b =? 61)
   || (b =? 62) || (b =? 33) || (b =? 32))%N.

(** The inner loop [for j < len(buf) && param(buf[j]) { j++ }]; [fuel]
    bounds the number of turns. *)
Fixpoint scan_while (P : N -> bool) (buf : list byte) (j fuel : nat) : nat :=
  match fuel with
  | O => j
  | S fuel' =>
      if (j <? length buf)%nat && P (at_ buf j)
      then scan_while P buf (S j) fuel'
      else j
  end.

(** The terminators of the replies that are dropped: [R], [c] and [n]. *)
Definition is_reply (t : N) : bool := ((t =? 82) || (t =? 99) || (t =? 110))%N.

(** The terminators of the other control sequences: 0x40 to 0x7E. *)
Definition is_final (t : N) : bool := ((64 <=? t) && (t <=? 126))%N.

Definition is_digit (b : N) : bool := ((48 <=? b) && (b <=? 57))%N.

(** [buf[i:j+1]]. *)
Definition slice (buf : list byte) (i j : nat) : list byte :=
  take (S j - i) (drop i buf).

(** How one turn of the main loop of [Read] ends: with [continue] or by
    reaching the end of the body, at the next index and with the bytes kept
    so far; or with [break], [tf.buffer] having been set. *)
Inductive turn :=
| Continue (i : nat) (filtered : list byte)
| Break (buffer : list byte).

(** The end of a turn: the check for a fragment [;digits R] or [;digits c]
    without its introducer, and the default, which keeps the byte. *)
Definition fragment_or_keep (buf : list byte) (i : nat) (filtered : list byte) : turn :=
  let j := scan_while is_digit buf (i + 1) (length buf) in
  let hasDigits := (i + 1 <? j)%nat in
  if (at_ buf i =? 59)%N && (i + 1 <? length buf)%nat
     && hasDigits && (j <? length buf)%nat
     && ((at_ buf j =? 82) || (at_ buf j =? 99))%N
  then Continue (j + 1) filtered
  else Continue (i + 1) (filtered ++ [nth i buf x00]).

(** One turn of the main loop of [Read], for [i < len(buf)]. *)
Definition filter_turn (buf : list byte) (i : nat) (filtered : list byte) : turn :=
  if (i + 1 <? length buf)%nat && (at_ buf i =? 27)%N && (at_ buf (i + 1) =? 91)%N
  then
    let j := scan_while is_param buf (i + 2) (length buf) in
    if (j <? length buf)%nat && is_reply (at_ buf j)
    then Continue (j + 1) filtered
    else if (j <? length buf)%nat && is_final (at_ buf j)
    then Continue (j + 1) (filtered ++ slice buf i j)
    else if (length buf <=? j)%nat
    then Break (drop i buf)              (* tf.buffer = tf.buffer[i:]; break *)
    else fragment_or_keep buf i filtered
  else fragment_or_keep buf i filtered.

(** The main loop of [Read].  The result is [tf.buffer] and [filtered] when
    the loop is left; [fuel] bounds the number of turns (every turn moves
    [i] forward). *)
Fixpoint filter_loop (fuel : nat) (buf : list byte) (i : nat) (filtered : list byte)
  : list byte * list byte :=
  match fuel with
  | O => (buf, filtered)
  | S fuel' =>
      if negb (i <? length buf)%nat then (buf, filtered)
      else
        match filter_turn buf i filtered with
        | Continue i' filtered' => filter_loop fuel' buf i' filtered'
        | Break buffer' => (buffer', filtered)
        end
  end.

(** [Read]: [plen] is [len(p)] and [data] the bytes the wrapped reader put
    into [p].  The result is the filter after the call and the bytes left
    in [p] for the caller. *)
Definition Read (tf : TerminalFilter) (plen : nat) (data : list byte)
  : TerminalFilter * list byte :=
  if (length data =? 0)%nat then (tf, [])
  else
    let buf := buffer tf ++ data in
    let '(_, filtered) := filter_loop (length buf) buf 0 [] in
    (* tf.buffer = nil, whatever the loop left in it *)
    ({| buffer := [] |}, take plen filtered).

(** The output of feeding a stream in consecutive calls, from a given
    filter: the outputs of the calls, concatenated. *)
Fixpoint feed (tf : TerminalFilter) (plen : nat) (chunks : list (list byte)) : list byte :=
  match chunks with
  | [] => []
  | data :: rest =>
      let '(tf', out) := Read tf plen data in
      out ++ feed tf' plen rest
  end.

(** *** Facts about the filter. *)

(** Whatever [Read] is given, it leaves the carry-over buffer empty: the
    last assignment of the loop's result is overwritten. *)
Lemma Read_clears_buffer (tf : TerminalFilter) (plen : nat) (data : list byte) :
  data <> [] -> buffer (fst (Read tf plen data)) = [].
Proof.
  intros Hdata. unfold Read. destruct data as [|b data]; [congruence|].
  cbn [length Nat.eqb]. by destruct (filter_loop _ _ _ _).
Qed.

(** The loop itself does keep an unterminated prefix when it breaks. *)
Example loop_keeps_prefix :
  filter_loop 4 [ESC; "["; "3"; "1"]%byte 0 [] = ([ESC; "["; "3"; "1"]%byte, []).
Proof. reflexivity. Qed.

(** A complete colour sequence passes, a complete status report is dropped. *)
Example whole_sequences :
  feed new_filter 4096 [[ESC; "["; "3"; "1"; "m"]%byte] = [ESC; "["; "3"; "1"; "m"]%byte /\
  feed new_filter 4096 [[ESC; "["; "6"; "n"]%byte] = [].
Proof. split; reflexivity. Qed.

Lemma at_app (pre : list byte) (b : byte) (rest : list byte) :
  at_ (pre ++ b :: rest) (length pre) = Byte.to_N b.
Proof. unfold at_. rewrite app_nth2; [by rewrite Nat.sub_diag | lia]. Qed.

(** The inner loop passes over a run of bytes that satisfy [P] and stops at
    the first byte that does not, or at the end. *)
Lemma scan_while_run (P : N -> bool) (params rest pre : list byte) (fuel : nat) :
  Forall (fun b => P (Byte.to_N b) = true) params ->
  match rest with [] => True | t :: _ => P (Byte.to_N t) = false end ->
  (length params <= fuel)%nat ->
  scan_while P (pre ++ params ++ rest) (length pre) fuel
  = (length pre + length params)%nat.
Proof.
  intros Hparams Hrest. revert pre fuel.
  induction Hparams as [|b params Hb _ IH]; intros pre fuel Hfuel.
  - cbn [app length]. rewrite Nat.add_0_r. destruct fuel as [|fuel]; [reflexivity|].
    cbn [scan_while]. destruct rest as [|t rest].
    + rewrite app_nil_r. by destruct (Nat.ltb_spec (length pre) (length pre)); [lia|].
    + rewrite at_app, Hrest. by rewrite andb_false_r.
  - cbn [length] in Hfuel. destruct fuel as [|fuel]; [lia|].
    cbn [scan_while]. change ((b :: params) ++ rest) with (b :: params ++ rest).
    rewrite at_app, Hb, length_app. cbn [length].
    destruct (Nat.ltb_spec (length pre) (length pre + S (length (params ++ rest))));
      [|lia].
    cbn [andb]. replace (pre ++ b :: params ++ rest) with ((pre ++ [b]) ++ params ++ rest)
      by (by rewrite <- app_assoc).
    replace (S (length pre)) with (length (pre ++ [b]))
      by (rewrite length_app; cbn; lia).
    rewrite IH by lia. rewrite length_app. cbn [length]. lia.
Qed.

(** A turn at an unterminated prefix [ESC [ params] breaks and keeps the
    prefix. *)
Lemma filter_turn_unterminated (params : list byte) :
  Forall (fun b => is_param (Byte.to_N b) = true) params ->
  filter_turn (ESC :: "["%byte :: params) 0 [] = Break (ESC :: "["%byte :: params).
Proof.
  intros Hparams. unfold filter_turn.
  pose proof (scan_while_run is_param params [] [ESC; "["%byte]
                (length (ESC :: "["%byte :: params)) Hparams I) as Hscan.
  rewrite app_nil_r in Hscan. cbn [app length Nat.add] in Hscan |- *.
  rewrite Hscan by lia.
  change (at_ (ESC :: "["%byte :: params) 0 =? 27)%N with true.
  change (at_ (ESC :: "["%byte :: params) 1 =? 91)%N with true.
  destruct (Nat.ltb_spec 1 (S (S (length params)))); [|lia].
  destruct (Nat.ltb_spec (S (S (length params))) (S (S (length params)))); [lia|].
  destruct (Nat.leb_spec (S (S (length params))) (S (S (length params)))); [|lia].
  reflexivity.
Qed.

(** Every unterminated prefix [ESC [ params] that ends a call is lost: the
    call emits nothing and keeps nothing. *)
Lemma Read_unterminated (plen : nat) (params : list byte) :
  Forall (fun b => is_param (Byte.to_N b) = true) params ->
  Read new_filter plen (ESC :: "["%byte :: params) = ({| buffer := [] |}, []).
Proof.
  intros Hparams. unfold Read. cbn [length Nat.eqb new_filter buffer app].
  cbn [filter_loop length Nat.ltb Nat.leb negb].
  rewrite (filter_turn_unterminated _ Hparams). by rewrite take_nil.
Qed.

(** A call that gets one byte emits it. *)
Lemma Read_single (plen : nat) (t : byte) :
  (1 <= plen)%nat -> Read new_filter plen [t] = ({| buffer := [] |}, [t]).
Proof.
  intros Hplen. unfold Read. cbn [length Nat.eqb new_filter buffer app].
  cbn [filter_loop length Nat.ltb Nat.leb negb].
  unfold filter_turn, fragment_or_keep. cbn [length Nat.add Nat.ltb Nat.leb andb].
  rewrite andb_false_r. cbn [andb app nth]. destruct plen; [lia|].
  cbn [take]. by rewrite take_nil.
Qed.

Lemma is_reply_not_param (t : N) : is_reply t = true -> is_param t = false.
Proof.
  unfold is_reply. intros Ht.
  destruct (N.eqb_spec t 82) as [E|_]; [by rewrite E|].
  destruct (N.eqb_spec t 99) as [E|_]; [by rewrite E|].
  destruct (N.eqb_spec t 110) as [E|_]; [by rewrite E | discriminate].
Qed.

(** A turn at a whole reply [ESC [ params t] skips it. *)
Lemma filter_turn_reply (params : list byte) (t : byte) :
  Forall (fun b => is_param (Byte.to_N b) = true) params ->
  is_reply (Byte.to_N t) = true ->
  filter_turn (ESC :: "["%byte :: params ++ [t]) 0 []
  = Continue (length (ESC :: "["%byte :: params ++ [t])) [].
Proof.
  intros Hparams Ht. unfold filter_turn.
  pose proof (scan_while_run is_param params [t] [ESC; "["%byte]
                (length (ESC :: "["%byte :: params ++ [t])) Hparams
                (is_reply_not_param _ Ht)) as Hscan.
  cbn [app length Nat.add] in Hscan |- *.
  rewrite Hscan by (rewrite length_app; lia).
  change (at_ (ESC :: "["%byte :: params ++ [t]) 0 =? 27)%N with true.
  change (at_ (ESC :: "["%byte :: params ++ [t]) 1 =? 91)%N with true.
  rewrite length_app. cbn [length].
  destruct (Nat.ltb_spec 1 (S (S (length params + 1)))); [|lia].
  destruct (Nat.ltb_spec (S (S (length params))) (S (S (length params + 1)))); [|lia].
  cbn [andb].
  assert (at_ (ESC :: "["%byte :: params ++ [t]) (S (S (length params))) = Byte.to_N t)
    as ->.
  { change (ESC :: "["%byte :: params ++ [t]) with (([ESC; "["%byte] ++ params) ++ [t]).
    replace (S (S (length params))) with (length ([ESC; "["%byte] ++ params))
      by (rewrite length_app; reflexivity).
    apply at_app. }
  rewrite Ht. f_equal; lia.
Qed.

Lemma filter_loop_S (fuel : nat) (buf : list byte) (i : nat) (filtered : list byte) :
  filter_loop (S fuel) buf i filtered
  = if negb (i <? length buf)%nat then (buf, filtered)
    else match filter_turn buf i filtered with
         | Continue i' filtered' => filter_loop fuel buf i' filtered'
         | Break buffer' => (buffer', filtered)
         end.
Proof. reflexivity. Qed.

(** At the end of the buffer the loop is left. *)
Lemma filter_loop_end (fuel : nat) (buf : list byte) (i : nat) (filtered : list byte) :
  (length buf <= i)%nat -> filter_loop fuel buf i filtered = (buf, filtered).
Proof.
  intros Hi. destruct fuel; [reflexivity|]. rewrite filter_loop_S.
  by destruct (Nat.ltb_spec i (length buf)); [lia|].
Qed.

(** A reply [ESC [ params t], with [t] one of [R], [c], [n], is dropped
    when it comes in one call. *)
Lemma Read_whole_reply (plen : nat) (params : list byte) (t : byte) :
  Forall (fun b => is_param (Byte.to_N b) = true) params ->
  is_reply (Byte.to_N t) = true ->
  Read new_filter plen (ESC :: "["%byte :: params ++ [t]) = ({| buffer := [] |}, []).
Proof.
  intros Hparams Ht. unfold Read. cbn [length Nat.eqb new_filter buffer app].
  change (S (S (length (params ++ [t]))))
    with (length (ESC :: "["%byte :: params ++ [t])).
  change (length (ESC :: "["%byte :: params ++ [t]))
    with (S (S (length (params ++ [t])))) at 1.
  rewrite filter_loop_S, (filter_turn_reply _ _ Hparams Ht).
  rewrite filter_loop_end by done. cbn [length Nat.ltb Nat.leb negb].
  by rewrite take_nil.
Qed.

(** Every reply that is split before its terminator leaks the terminator:
    the two calls emit it, where the whole reply is dropped. *)
Lemma split_reply_leaks (plen : nat) (params : list byte) (t : byte) :
  (1 <= plen)%nat ->
  Forall (fun b => is_param (Byte.to_N b) = true) params ->
  is_reply (Byte.to_N t) = true ->
  feed new_filter plen [ESC :: "["%byte :: params; [t]] = [t] /\
  feed new_filter plen [ESC :: "["%byte :: params ++ [t]] = [].
Proof.
  intros Hplen Hparams Ht. cbn [feed].
  rewrite (Read_unterminated _ _ Hparams), (Read_whole_reply _ _ _ Hparams Ht).
  change {| buffer := [] |} with new_filter. by rewrite (Read_single _ _ Hplen).
Qed.

(** C1, evaluated on the code: a CSI sequence split across two calls of
    [Read] is not put together again.  The first call emits nothing and
    leaves the buffer empty, so the prefix is lost; the second call then
    emits the terminator alone.  Fed whole, the colour sequence passes
    unchanged and the status report is dropped. *)
Theorem split_sequence_is_lost :
  Read new_filter 4096 [ESC; "["; "3"; "1"]%byte = ({| buffer := [] |}, []) /\
  feed new_filter 4096 [[ESC; "["; "3"; "1"]%byte; ["m"]%byte] = ["m"]%byte /\
  feed new_filter 4096 [[ESC; "["; "3"; "1"; "m"]%byte] = [ESC; "["; "3"; "1"; "m"]%byte /\
  feed new_filter 4096 [[ESC; "["; "6"]%byte; ["n"]%byte] = ["n"]%byte /\
  feed new_filter 4096 [[ESC; "["; "6"; "n"]%byte] = [].
Proof. repeat split; reflexivity. Qed.

End Filter.

(** ** The encrypted password store: the package [password]. *)
Module Store.

(** [PasswordEntry].  In memory [Password] is the secret itself; in the
    stored JSON it is the base64 text of the encrypted secret. *)
Record PasswordEntry := Entry { ID : string; Description : string; Password : string }.

(** [PasswordStore].  The map holds pointers in Go; no operation below
    depends on two names for one entry, so it holds the entries here.  The
    field [filePath] is the one path of [World]'s file. *)
Record PasswordStore := { entries : gmap string PasswordEntry }.

Definition saltSize : nat := 32.
Definition iterations : Z := 100000.
Definition keySize : nat := 32.

(** [gcm.NonceSize()] of the standard GCM. *)
Definition nonceSize : nat := 12.

(** *** Well-formed UTF-8, as [unicode/utf8] decodes it.

    The state of a left-to-right check: at a character boundary, or inside
    a character with the range of the next byte and the number of
    continuation bytes after it. *)
Inductive utf8_state :=
| Boundary
| Inside (more : nat) (lo hi : N).

Definition utf8_step (st : utf8_state) (b : N) : option utf8_state :=
  match st with
  | Boundary =>
      if (b <? 128)%N then Some Boundary
      else if ((194 <=? b) && (b <=? 223))%N then Some (Inside 0 128 191)
      else if (b =? 224)%N then Some (Inside 1 160 191)
      else if ((225 <=? b) && (b <=? 236) || (238 <=? b) && (b <=? 239))%N
      then Some (Inside 1 128 191)
      else if (b =? 237)%N then Some (Inside 1 128 159)
      else if (b =? 240)%N then Some (Inside 2 144 191)
      else if ((241 <=? b) && (b <=? 243))%N then Some (Inside 2 128 191)
      else if (b =? 244)%N then Some (Inside 2 128 143)
      else None
  | Inside more lo hi =>
      if ((lo <=? b) && (b <=? hi))%N
      then Some (match more with O => Boundary | S k => Inside k 128 191 end)
      else None
  end.

Fixpoint utf8_run (st : utf8_state) (s : string) : bool :=
  match s with
  | EmptyString => match st with Boundary => true | _ => false end
  | String c r =>
      match utf8_step st (N_of_ascii c) with
      | Some st' => utf8_run st' r
      | None => false
      end
  end.

(** [utf8.ValidString(s)]. *)
Definition utf8_valid (s : string) : bool := utf8_run Boundary s.

Definition entry_valid (e : PasswordEntry) : bool :=
  utf8_valid (ID e) && utf8_valid (Description e) && utf8_valid (Password e).

(** *** The libraries the store calls.

    [golang.org/x/crypto/pbkdf2], [crypto/aes] with [crypto/cipher]'s GCM,
    [encoding/base64] and [encoding/json] are not part of the repository:
    their functions are the fields of [Lib], and what the proofs use of
    them are the laws below. *)
Class Lib := {
  (** [pbkdf2.Key(password, salt, iter, keyLen, sha256.New)]. *)
  pbkdf2_Key : list byte -> list byte -> Z -> nat -> list byte;
  (** [gcm.Seal(nil, nonce, plaintext, nil)]: ciphertext and tag. *)
  gcm_Seal : list byte -> list byte -> list byte -> list byte;
  (** [gcm.Open(nil, nonce, ciphertext, nil)]; [None] is the error
      [cipher: message authentication failed]. *)
  gcm_Open : list byte -> list byte -> list byte -> option (list byte);
  (** [base64.StdEncoding.EncodeToString]. *)
  base64_Encode : list byte -> string;
  (** [base64.StdEncoding.DecodeString]: the error text, or the bytes. *)
  base64_Decode : string -> string + list byte;
  (** [json.MarshalIndent] of a slice of entries, with its indent of two
      spaces; it cannot fail for such a slice. *)
  json_MarshalIndent : list PasswordEntry -> list byte;
  (** [json.Unmarshal(data, &entries)]: the error text, or the entries. *)
  json_Unmarshal : list byte -> string + list PasswordEntry;
  (** The string that the JSON encoder writes for a Go string: the string
      itself when it is valid UTF-8, otherwise with every invalid byte
      replaced (by U+FFFD in Go). *)
  json_coerce : string -> string;
}.

(** What the encoder writes for an entry. *)
Definition coerce_entry `{Lib} (e : PasswordEntry) : PasswordEntry :=
  Entry (json_coerce (ID e)) (json_coerce (Description e)) (json_coerce (Password e)).

(** The laws of the libraries: the length of a derived key, decryption of
    what was encrypted under the same key and nonce, base64 and JSON
    decoding of what was encoded, and UTF-8 in JSON strings. *)
Class LibLaws (L : Lib) : Prop := {
  pbkdf2_length : forall password salt iter keyLen,
    length (pbkdf2_Key password salt iter keyLen) = keyLen;
  gcm_Open_Seal : forall key nonce plaintext,
    gcm_Open key nonce (gcm_Seal key nonce plaintext) = Some plaintext;
  base64_Decode_Encode : forall data,
    base64_Decode (base64_Encode data) = inr data;
  base64_ascii : forall data, utf8_valid (base64_Encode data) = true;
  json_coerce_valid : forall s, utf8_valid s = true -> json_coerce s = s;
  json_Unmarshal_Marshal : forall es,
    json_Unmarshal (json_MarshalIndent es) = inr (coerce_entry <$> es);
  json_Unmarshal_valid : forall data es,
    json_Unmarshal data = inr es -> Forall (fun e => entry_valid e = true) es;
}.

(** The idealised authentication of AES-GCM: a ciphertext sealed under one
    key is rejected under every other key of the same length.  (For the
    real cipher this fails with negligible probability only.) *)
Definition gcm_authentic (L : Lib) : Prop :=
  forall key key' nonce plaintext,
    length key = length key' -> key <> key' ->
    gcm_Open key' nonce (gcm_Seal key nonce plaintext) = None.

(** *** The world of the store: the file at the store's path, the bytes
    that [crypto/rand] will deliver, whether the directory can be made and
    the file written, what a write that fails leaves of the file, and the
    order in which a [range] visits a map.  [os.WriteFile] opens the file
    with [O_TRUNC], writes and closes: when it fails, either the file could
    not be opened and is as it was ([write_torn] is [None]), or the file
    was emptied and holds the first [n] bytes of the data ([Some n]; all of
    the data when [n] is its length or more).  A file that exists is
    readable; one that exists and cannot be read is outside the model. *)
Record World := {
  file : option (list byte);
  entropy : list byte;
  dir_ok : bool;
  write_ok : bool;
  write_torn : option nat;
  range_order : gmap string PasswordEntry -> list (string * PasswordEntry);
}.

(** A [range] over a map visits every entry once, in any order. *)
Definition range_any_order (w : World) : Prop :=
  forall m, range_order w m ≡ₚ map_to_list m.

Definition set_file (w : World) (data : list byte) : World :=
  {| file := Some data; entropy := entropy w; dir_ok := dir_ok w;
     write_ok := write_ok w; write_torn := write_torn w;
     range_order := range_order w |}.

Definition set_entropy (w : World) (e : list byte) : World :=
  {| file := file w; entropy := e; dir_ok := dir_ok w;
     write_ok := write_ok w; write_torn := write_torn w;
     range_order := range_order w |}.

(** The world after [os.WriteFile] failed to write [data]. *)
Definition write_failed (w : World) (data : list byte) : World :=
  match write_torn w with
  | None => w
  | Some n => set_file w (take n data)
  end.

(** [rand.Read(b)] for [len(b) = n]: the bytes and the world after, or
    [None] for an error. *)
Definition rand_Read (n : nat) (w : World) : option (list byte * World) :=
  if (n <=? length (entropy w))%nat
  then Some (take n (entropy w), set_entropy w (drop n (entropy w)))
  else None.

(** The text of the error of the random source. *)
Definition err_rand : string := "unexpected EOF".

(** The text of [gcm.Open]'s error. *)
Definition err_open : string := "cipher: message authentication failed".

(** The text of [aes.NewCipher]'s error (the key size it ends with is left
    out). *)
Definition err_key : string := "crypto/aes: invalid key size".

(** The text of the errors of the file system (the system's own text is
    left out). *)
Definition err_fs : string := "file system error".

(** [aes.NewCipher(key)] accepts keys of 16, 24 and 32 bytes. *)
Definition aes_NewCipher_ok (key : list byte) : bool :=
  ((length key =? 16) || (length key =? 24) || (length key =? 32))%nat.

Section WithLib.
Context `{L : Lib}.

(** [StoreExists]. *)
Definition StoreExists (w : World) : bool :=
  match file w with Some _ => true | None => false end.

(** [NewPasswordStore]. *)
Definition NewPasswordStore : PasswordStore := {| entries := ∅ |}.

(** [deriveMasterKey]. *)
Definition deriveMasterKey (masterPassword : string) (salt : list byte) : list byte :=
  pbkdf2_Key (list_byte_of_string masterPassword) salt iterations keySize.

(** [encrypt]: the world after, and the error text or nonce, ciphertext and
    tag. *)
Definition encrypt (w : World) (plaintext key : list byte) : World * (string + list byte) :=
  if negb (aes_NewCipher_ok key) then (w, inl err_key)
  else
    match rand_Read nonceSize w with
    | None => (w, inl err_rand)
    | Some (nonce, w') => (w', inr (nonce ++ gcm_Seal key nonce plaintext))
    end.

(** [decrypt]. *)
Definition decrypt (ciphertext key : list byte) : string + list byte :=
  if negb (aes_NewCipher_ok key) then inl err_key
  else if (length ciphertext <? nonceSize)%nat then inl "ciphertext too short"
  else
    match gcm_Open key (take nonceSize ciphertext) (drop nonceSize ciphertext) with
    | None => inl err_open
    | Some plaintext => inr plaintext
    end.

(** The loop of [Load] and of [ChangeMasterPassword] that decrypts the
    entries into the map; it returns the map built so far also when it
    stops on an error. *)
Fixpoint decrypt_entries (key : list byte) (es : list PasswordEntry)
    (m : gmap string PasswordEntry) : gmap string PasswordEntry * option string :=
  match es with
  | [] => (m, None)
  | entry :: rest =>
      match base64_Decode (Password entry) with
      | inl e => (m, Some ("failed to decode password for " +:+ ID entry +:+ ": " +:+ e))
      | inr passwordBytes =>
          match decrypt passwordBytes key with
          | inl e => (m, Some ("failed to decrypt password for " +:+ ID entry +:+ ": " +:+ e))
          | inr decryptedPassword =>
              decrypt_entries key rest
                (<[ID entry := Entry (ID entry) (Description entry)
                                 (string_of_list_byte decryptedPassword)]> m)
          end
      end
  end.

(** [Load]: the store after the call and the error, if any. *)
Definition Load (w : World) (ps : PasswordStore) (masterPassword : string)
  : PasswordStore * option string :=
  match file w with
  | None => ({| entries := ∅ |}, None)
  | Some data =>
      if (length data <? saltSize)%nat then (ps, Some "invalid password store format")
      else
        let salt := take saltSize data in
        let encryptedData := drop saltSize data in
        let key := deriveMasterKey masterPassword salt in
        match decrypt encryptedData key with
        | inl e => (ps, Some ("failed to decrypt (wrong password?): " +:+ e))
        | inr decryptedData =>
            match json_Unmarshal decryptedData with
            | inl e => (ps, Some ("failed to parse password store: " +:+ e))
            | inr es =>
                let '(m, err) := decrypt_entries key es ∅ in
                ({| entries := m |}, err)
            end
        end
  end.

(** The loop of [Save] that encrypts the entries, in the order of the
    [range]. *)
Fixpoint encrypt_entries (w : World) (key : list byte) (es : list PasswordEntry)
    (entriesToSave : list PasswordEntry) : World * (string + list PasswordEntry) :=
  match es with
  | [] => (w, inr entriesToSave)
  | entry :: rest =>
      match encrypt w (list_byte_of_string (Password entry)) key with
      | (w', inl e) =>
          (w', inl ("failed to encrypt password for " +:+ ID entry +:+ ": " +:+ e))
      | (w', inr encryptedPassword) =>
          encrypt_entries w' key rest
            (entriesToSave ++ [Entry (ID entry) (Description entry)
                                 (base64_Encode encryptedPassword)])
      end
  end.

(** The salt that [Save] uses when it is given none: the one of the file
    when there is a file long enough, otherwise a fresh one. *)
Definition choose_salt (w : World) (salt : option (list byte))
  : World * (string + list byte) :=
  match salt with
  | Some s => (w, inr s)
  | None =>
      match file w with
      | Some data =>
          if (saltSize <=? length data)%nat then (w, inr (take saltSize data))
          else
            match rand_Read saltSize w with
            | None => (w, inl ("failed to generate salt: " +:+ err_rand))
            | Some (s, w') => (w', inr s)
            end
      | None =>
          match rand_Read saltSize w with
          | None => (w, inl ("failed to generate salt: " +:+ err_rand))
          | Some (s, w') => (w', inr s)
          end
      end
  end.

(** [Save]: the world after the call and the error, if any. *)
Definition Save (w : World) (ps : PasswordStore) (masterPassword : string)
    (salt : option (list byte)) : World * option string :=
  match choose_salt w salt with
  | (w1, inl e) => (w1, Some e)
  | (w1, inr salt) =>
      let key := deriveMasterKey masterPassword salt in
      match encrypt_entries w1 key (range_order w1 (entries ps)).*2 [] with
      | (w2, inl e) => (w2, Some e)
      | (w2, inr entriesToSave) =>
          let jsonData := json_MarshalIndent entriesToSave in
          match encrypt w2 jsonData key with
          | (w3, inl e) => (w3, Some ("failed to encrypt data: " +:+ e))
          | (w3, inr encryptedData) =>
              let finalData := salt ++ encryptedData in
              if negb (dir_ok w3)
              then (w3, Some ("failed to create directory: " +:+ err_fs))
              else if negb (write_ok w3)
              then (write_failed w3 finalData,
                    Some ("failed to write password store: " +:+ err_fs))
              else (set_file w3 finalData, None)
          end
      end
  end.

(** [Initialize]. *)
Definition Initialize (w : World) (ps : PasswordStore) (masterPassword : string)
  : World * PasswordStore * option string :=
  match rand_Read saltSize w with
  | None => (w, ps, Some ("failed to generate salt: " +:+ err_rand))
  | Some (salt, w1) =>
      let ps1 := {| entries := ∅ |} in
      match Save w1 ps1 masterPassword (Some salt) with
      | (w2, Some e) => (w2, ps1, Some ("failed to save initial store: " +:+ e))
      | (w2, None) => (w2, ps1, None)
      end
  end.

(** [Add]. *)
Definition Add (ps : PasswordStore) (id description password : string)
  : PasswordStore * option string :=
  match entries ps !! id with
  | Some _ => (ps, Some ("password with ID '" +:+ id +:+ "' already exists"))
  | None => ({| entries := <[id := Entry id description password]> (entries ps) |}, None)
  end.

(** [Get]. *)
Definition Get (ps : PasswordStore) (id : string) : string + string :=
  match entries ps !! id with
  | None => inl ("password with ID '" +:+ id +:+ "' not found")
  | Some entry => inr (Password entry)
  end.

(** [Remove]. *)
Definition Remove (ps : PasswordStore) (id : string) : PasswordStore * option string :=
  match entries ps !! id with
  | None => (ps, Some ("password with ID '" +:+ id +:+ "' not found"))
  | Some _ => ({| entries := delete id (entries ps) |}, None)
  end.

(** [ChangeMasterPassword]. *)
Definition ChangeMasterPassword (w : World) (ps : PasswordStore)
    (oldPassword newPassword : string) : World * PasswordStore * option string :=
  match file w with
  | None => (w, ps, Some ("failed to read password store: " +:+ err_fs))
  | Some data =>
      if (length data <? saltSize)%nat then (w, ps, Some "invalid password store format")
      else
        let oldSalt := take saltSize data in
        let encryptedData := drop saltSize data in
        let oldKey := deriveMasterKey oldPassword oldSalt in
        match decrypt encryptedData oldKey with
        | inl _ => (w, ps, Some "incorrect old password")
        | inr decryptedData =>
            match json_Unmarshal decryptedData with
            | inl e => (w, ps, Some ("failed to parse password store: " +:+ e))
            | inr es =>
                match decrypt_entries oldKey es ∅ with
                | (m, Some e) => (w, {| entries := m |}, Some e)
                | (m, None) =>
                    let ps1 := {| entries := m |} in
                    match rand_Read saltSize w with
                    | None => (w, ps1, Some ("failed to generate salt: " +:+ err_rand))
                    | Some (newSalt, w1) =>
                        match Save w1 ps1 newPassword (Some newSalt) with
                        | (w2, Some e) =>
                            (w2, ps1, Some ("failed to save with new password: " +:+ e))
                        | (w2, None) => (w2, ps1, None)
                        end
                    end
                end
            end
        end
  end.

(** The entry that [Load] finds for an entry that [Save] wrote: the strings
    of the JSON text are coerced, the secret is decrypted. *)
Definition stored (e : PasswordEntry) : PasswordEntry :=
  Entry (json_coerce (ID e)) (json_coerce (Description e)) (Password e).

(** The map that the loop of [Load] builds from the entries of a file. *)
Definition insert_all (es : list PasswordEntry) (m : gmap string PasswordEntry)
  : gmap string PasswordEntry :=
  foldl (fun m e => <[ID e := e]> m) m es.

(** The entropy one [Save] of [n] entries takes when it is given its salt
    or finds it in the file. *)
Definition save_entropy (n : nat) : nat := (nonceSize * n + nonceSize)%nat.

(** What the loop of [Save] writes for an entry [e] under [key]: the same
    [ID] and [Description], and the base64 text of a ciphertext that
    [decrypt] opens to the secret of [e]. *)
Definition sealed_as (key : list byte) (e e' : PasswordEntry) : Prop :=
  ID e' = ID e /\ Description e' = Description e /\
  exists ciphertext,
    Password e' = base64_Encode ciphertext /\
    decrypt ciphertext key = inr (list_byte_of_string (Password e)).

(** A file as [Save] writes it under a passphrase: a salt of [saltSize]
    bytes, a nonce, and the GCM ciphertext of some plaintext under the key
    derived from the passphrase and the salt. *)
Definition well_formed_under (masterPassword : string) (data : list byte) : Prop :=
  exists salt nonce plaintext,
    length salt = saltSize /\ length nonce = nonceSize /\
    data = salt ++ nonce
           ++ gcm_Seal (deriveMasterKey masterPassword salt) nonce plaintext.

(** The entries of a store that came from a file: keyed by their [ID], with
    [ID] and [Description] in valid UTF-8. *)
Definition from_file (m : gmap string PasswordEntry) : Prop :=
  forall k e, m !! k = Some e ->
    ID e = k /\ utf8_valid (ID e) = true /\ utf8_valid (Description e) = true.

(** The sequence of the round-trip property: [Initialize], [Add], [Save]
    with the salt of the file, then [Load] into a new store and [Get].  The
    result is the first error, or what [Get] returns. *)
Definition round_trip (w : World) (masterPassword id description secret : string)
  : string + string :=
  match Initialize w NewPasswordStore masterPassword with
  | (_, _, Some e) => inl e
  | (w1, ps1, None) =>
      match Add ps1 id description secret with
      | (_, Some e) => inl e
      | (ps2, None) =>
          match Save w1 ps2 masterPassword None with
          | (_, Some e) => inl e
          | (w3, None) =>
              match Load w3 NewPasswordStore masterPassword with
              | (_, Some e) => inl e
              | (ps4, None) => Get ps4 id
              end
          end
      end
  end.

(** The file that [Initialize] writes from the entropy [e]: the first
    [saltSize] bytes are the salt, the next [nonceSize] the nonce, and the
    plaintext is the JSON text of no entries. *)
Definition initial_file (masterPassword : string) (e : list byte) : list byte :=
  let salt := take saltSize e in
  let nonce := take nonceSize (drop saltSize e) in
  salt ++ nonce
  ++ gcm_Seal (deriveMasterKey masterPassword salt) nonce (json_MarshalIndent []).

(** *** Facts about the store. *)

Lemma rand_Read_enough (n : nat) (w : World) :
  (n <= length (entropy w))%nat ->
  rand_Read n w = Some (take n (entropy w), set_entropy w (drop n (entropy w))).
Proof.
  intros H. unfold rand_Read. by destruct (Nat.leb_spec n (length (entropy w))); [|lia].
Qed.

Lemma rand_Read_inv (n : nat) (w w' : World) (b : list byte) :
  rand_Read n w = Some (b, w') ->
  length b = n /\ b = take n (entropy w) /\ w' = set_entropy w (drop n (entropy w)).
Proof.
  unfold rand_Read. destruct (Nat.leb_spec n (length (entropy w))); [|discriminate].
  intros [= <- <-]. rewrite length_take. repeat split. lia.
Qed.

Lemma encrypt_inv (w w' : World) (plaintext key ciphertext : list byte) :
  encrypt w plaintext key = (w', inr ciphertext) ->
  aes_NewCipher_ok key = true /\
  exists nonce, rand_Read nonceSize w = Some (nonce, w') /\
                ciphertext = nonce ++ gcm_Seal key nonce plaintext.
Proof.
  unfold encrypt. destruct (aes_NewCipher_ok key); [|discriminate]. cbn [negb].
  destruct (rand_Read nonceSize w) as [[nonce w1]|] eqn:Hr; [|discriminate].
  intros [= <- <-]. eauto.
Qed.

Lemma encrypt_enough (w : World) (plaintext key : list byte) :
  aes_NewCipher_ok key = true -> (nonceSize <= length (entropy w))%nat ->
  encrypt w plaintext key
  = (set_entropy w (drop nonceSize (entropy w)),
     inr (take nonceSize (entropy w) ++ gcm_Seal key (take nonceSize (entropy w)) plaintext)).
Proof.
  intros Hk He. unfold encrypt. rewrite Hk. cbn [negb]. by rewrite rand_Read_enough.
Qed.

Section WithLaws.
Context {Laws : LibLaws L}.

Lemma deriveMasterKey_length (masterPassword : string) (salt : list byte) :
  length (deriveMasterKey masterPassword salt) = keySize.
Proof. apply pbkdf2_length. Qed.

Lemma deriveMasterKey_ok (masterPassword : string) (salt : list byte) :
  aes_NewCipher_ok (deriveMasterKey masterPassword salt) = true.
Proof. unfold aes_NewCipher_ok. by rewrite deriveMasterKey_length. Qed.

(** What [encrypt] made, [decrypt] opens under the same key. *)
Lemma decrypt_encrypt (w w' : World) (plaintext key ciphertext : list byte) :
  encrypt w plaintext key = (w', inr ciphertext) ->
  decrypt ciphertext key = inr plaintext.
Proof.
  intros H. apply encrypt_inv in H as (Hk & nonce & Hr & ->).
  apply rand_Read_inv in Hr as (Hlen & _ & _).
  unfold decrypt. rewrite Hk. cbn [negb].
  rewrite length_app, Hlen.
  destruct (Nat.ltb_spec (nonceSize + length (gcm_Seal key nonce plaintext)) nonceSize);
    [lia|].
  rewrite take_app_length' by done. rewrite drop_app_length' by done.
  by rewrite gcm_Open_Seal.
Qed.

Lemma encrypt_entries_inv (es : list PasswordEntry) (w w' : World) (key : list byte)
    (acc out : list PasswordEntry) :
  encrypt_entries w key es acc = (w', inr out) ->
  range_order w' = range_order w /\ file w' = file w /\
  dir_ok w' = dir_ok w /\ write_ok w' = write_ok w /\
  exists es', out = acc ++ es' /\ Forall2 (sealed_as key) es es'.
Proof.
  revert w acc. induction es as [|e es IH]; intros w acc; cbn [encrypt_entries].
  - intros [= <- <-]. repeat split. exists []. by rewrite app_nil_r.
  - destruct (encrypt w (list_byte_of_string (Password e)) key) as [w1 [err|ct]] eqn:He;
      [discriminate|].
    intros H. apply IH in H as (Hr & Hf & Hd & Hw & es' & -> & Hes').
    pose proof (decrypt_encrypt _ _ _ _ _ He) as Hdec.
    apply encrypt_inv in He as (_ & nonce & Hrand & _).
    apply rand_Read_inv in Hrand as (_ & _ & ->). cbn in Hr, Hf, Hd, Hw.
    repeat split; try done.
    eexists (_ :: es'). split; [by rewrite <- app_assoc|].
    constructor; [|done]. repeat split. eauto.
Qed.

Lemma decrypt_entries_sealed (key : list byte) (es es' : list PasswordEntry)
    (m : gmap string PasswordEntry) :
  Forall2 (sealed_as key) es es' ->
  decrypt_entries key (coerce_entry <$> es') m = (insert_all (stored <$> es) m, None).
Proof.
  intros H. revert m. induction H as [|e e' es es' (Hid & Hdesc & ct & Hpw & Hdec) _ IH];
    intros m; [reflexivity|].
  cbn [fmap list_fmap decrypt_entries coerce_entry ID Description Password].
  rewrite Hpw, (json_coerce_valid _ (base64_ascii ct)), base64_Decode_Encode, Hdec.
  rewrite string_of_list_byte_of_string, Hid, Hdesc. apply IH.
Qed.

Lemma choose_salt_inv (w w1 : World) (salt : option (list byte)) (s : list byte) :
  choose_salt w salt = (w1, inr s) ->
  (forall s0, salt = Some s0 -> length s0 = saltSize) ->
  length s = saltSize /\ range_order w1 = range_order w /\
  dir_ok w1 = dir_ok w /\ write_ok w1 = write_ok w.
Proof.
  unfold choose_salt. intros H Hlen. destruct salt as [s0|].
  - injection H as <- <-. by rewrite (Hlen s0).
  - assert (forall w2 r, (match rand_Read saltSize w with
                          | Some (s1, w') => (w', inr s1)
                          | None => (w, inl ("failed to generate salt: " +:+ err_rand))
                          end) = (w2, inr r) ->
                         length r = saltSize /\ range_order w2 = range_order w /\
                         dir_ok w2 = dir_ok w /\ write_ok w2 = write_ok w) as Hrand.
    { intros w2 r. destruct (rand_Read saltSize w) as [[s1 w']|] eqn:Hr; [|discriminate].
      intros [= <- <-]. by apply rand_Read_inv in Hr as (? & _ & ->). }
    destruct (file w) as [data|]; [|by apply Hrand].
    destruct (Nat.leb_spec saltSize (length data)); [|by apply Hrand].
    injection H as <- <-. rewrite length_take. repeat split. lia.
Qed.

(** What [Save] wrote, [Load] reads back under the same passphrase: the
    entries in the order of the [range], each as it is stored. *)
Lemma Save_Load (w w' : World) (ps ps0 : PasswordStore) (masterPassword : string)
    (salt : option (list byte)) :
  Save w ps masterPassword salt = (w', None) ->
  (forall s0, salt = Some s0 -> length s0 = saltSize) ->
  Load w' ps0 masterPassword
  = ({| entries := insert_all (stored <$> (range_order w (entries ps)).*2) ∅ |}, None).
Proof.
  unfold Save. intros H Hlen.
  destruct (choose_salt w salt) as [w1 [e|s]] eqn:Hs; [discriminate|].
  apply choose_salt_inv in Hs as (Hslen & Hr1 & _ & _); [|done].
  destruct (encrypt_entries w1 _ _ _) as [w2 [e|out]] eqn:Hes; [discriminate|].
  apply encrypt_entries_inv in Hes as (_ & _ & _ & _ & es' & -> & Hes').
  destruct (encrypt w2 _ _) as [w3 [e|ct]] eqn:Hct; [discriminate|].
  destruct (dir_ok w3); [|discriminate]. destruct (write_ok w3); [|discriminate].
  cbn [negb] in H. injection H as <-.
  unfold Load. cbn [file set_file]. rewrite length_app, Hslen.
  destruct (Nat.ltb_spec (saltSize + length ct) saltSize); [lia|].
  rewrite take_app_length' by done. rewrite drop_app_length' by done.
  rewrite (decrypt_encrypt _ _ _ _ _ Hct), json_Unmarshal_Marshal.
  cbn [app]. rewrite (decrypt_entries_sealed _ _ _ _ Hes'), Hr1. reflexivity.
Qed.

(** The file that [Save] wrote is well formed under its passphrase. *)
Lemma Save_well_formed (w w' : World) (ps : PasswordStore) (masterPassword : string)
    (salt : option (list byte)) :
  Save w ps masterPassword salt = (w', None) ->
  (forall s0, salt = Some s0 -> length s0 = saltSize) ->
  exists data, file w' = Some data /\ well_formed_under masterPassword data /\
               (forall s0, salt = Some s0 -> take saltSize data = s0).
Proof.
  unfold Save. intros H Hlen.
  destruct (choose_salt w salt) as [w1 [e|s]] eqn:Hs; [discriminate|].
  pose proof Hs as Hs'. apply choose_salt_inv in Hs' as (Hslen & _); [|done].
  destruct (encrypt_entries w1 _ _ _) as [w2 [e|out]] eqn:Hes; [discriminate|].
  destruct (encrypt w2 _ _) as [w3 [e|ct]] eqn:Hct; [discriminate|].
  destruct (dir_ok w3); [|discriminate]. destruct (write_ok w3); [|discriminate].
  cbn [negb] in H. injection H as <-.
  apply encrypt_inv in Hct as (_ & nonce & Hrand & ->).
  apply rand_Read_inv in Hrand as (Hn & _ & _).
  eexists. split; [reflexivity|]. split.
  - exists s, nonce. eauto.
  - intros s0 ->. cbn in Hs. injection Hs as _ <-.
    by rewrite take_app_length'.
Qed.

Lemma insert_all_lookup_notin (es : list PasswordEntry) (m : gmap string PasswordEntry)
    (k : string) :
  k ∉ ID <$> es -> insert_all es m !! k = m !! k.
Proof.
  revert m. induction es as [|e es IH]; intros m Hk; [reflexivity|].
  cbn [fmap list_fmap] in Hk. apply not_elem_of_cons in Hk as [Hne Hk].
  cbn [insert_all foldl]. fold (insert_all es (<[ID e:=e]> m)).
  rewrite (IH _ Hk). by rewrite lookup_insert_ne.
Qed.

Lemma insert_all_lookup_in (es : list PasswordEntry) (m : gmap string PasswordEntry)
    (e : PasswordEntry) :
  NoDup (ID <$> es) -> e ∈ es -> insert_all es m !! ID e = Some e.
Proof.
  revert m. induction es as [|e0 es IH]; intros m Hnd He; [by apply elem_of_nil in He|].
  cbn [fmap list_fmap] in Hnd. apply NoDup_cons in Hnd as [Hnotin Hnd].
  cbn [insert_all foldl]. fold (insert_all es (<[ID e0:=e0]> m)).
  apply elem_of_cons in He as [->|He].
  - rewrite (insert_all_lookup_notin _ _ _ Hnotin). apply lookup_insert_eq.
  - by apply IH.
Qed.

(** Reading back the entries of a store that came from a file gives the
    same store, in whatever order they were written. *)
Lemma insert_all_range (w : World) (m : gmap string PasswordEntry) :
  range_any_order w -> from_file m ->
  insert_all (stored <$> (range_order w m).*2) ∅ = m.
Proof.
  intros Hord Hm. specialize (Hord m). set (l := range_order w m) in *.
  assert (forall k e, (k, e) ∈ l <-> m !! k = Some e) as Hl.
  { intros k e. rewrite Hord. apply elem_of_map_to_list. }
  assert (stored <$> l.*2 = l.*2) as ->.
  { rewrite <- (list_fmap_id (l.*2)) at 2. apply list_fmap_ext.
    intros i e Hi. apply list_elem_of_lookup_2 in Hi.
    apply list_elem_of_fmap in Hi as ([k e'] & -> & Hin). cbn.
    apply Hl, Hm in Hin as (_ & Hid & Hdesc). destruct e' as [i' d' p']. cbn in *.
    unfold stored. cbn. by rewrite !json_coerce_valid. }
  assert (ID <$> l.*2 = l.*1) as Hkeys.
  { rewrite <- list_fmap_compose. apply list_fmap_ext.
    intros i [k e] Hi. cbn. apply list_elem_of_lookup_2, Hl, Hm in Hi. by destruct Hi. }
  assert (NoDup (l.*1)) as Hnd.
  { rewrite Hord. apply NoDup_fst_map_to_list. }
  apply map_eq. intros k. destruct (m !! k) as [e|] eqn:Hk.
  - pose proof (Hm _ _ Hk) as (<- & _).
    apply insert_all_lookup_in; [by rewrite Hkeys|].
    apply list_elem_of_fmap. exists (ID e, e). split; [done|]. by apply Hl.
  - rewrite insert_all_lookup_notin; [apply lookup_empty|].
    rewrite Hkeys. intros Hin. apply list_elem_of_fmap in Hin as ([k' e] & -> & Hin).
    apply Hl in Hin. cbn in Hk. congruence.
Qed.

(** The loop of [Load] keeps the store one that came from a file. *)
Lemma decrypt_entries_from_file (key : list byte) (es : list PasswordEntry)
    (m m' : gmap string PasswordEntry) (err : option string) :
  decrypt_entries key es m = (m', err) ->
  Forall (fun e => entry_valid e = true) es -> from_file m -> from_file m'.
Proof.
  revert m. induction es as [|e es IH]; intros m H Hes Hm; cbn [decrypt_entries] in H.
  - by injection H as <- _.
  - apply Forall_cons in Hes as [He Hes].
    destruct (base64_Decode (Password e)) as [?|bytes]; [by injection H as <- _|].
    destruct (decrypt bytes key) as [?|pw]; [by injection H as <- _|].
    apply (IH _ H Hes). intros k e' Hk.
    destruct (decide (ID e = k)) as [<-|Hne].
    + rewrite lookup_insert_eq in Hk. injection Hk as <-. cbn.
      unfold entry_valid in He. apply andb_prop in He as [He _].
      by apply andb_prop in He as [? ?].
    + rewrite lookup_insert_ne in Hk by done. by apply Hm.
Qed.

Lemma from_file_empty : from_file ∅.
Proof. intros k e Hk. by rewrite lookup_empty in Hk. Qed.

(** Whatever [Load] returns, a store that came from a file stays one. *)
Lemma Load_from_file (w : World) (ps ps' : PasswordStore) (masterPassword : string)
    (err : option string) :
  Load w ps masterPassword = (ps', err) ->
  from_file (entries ps) -> from_file (entries ps').
Proof.
  unfold Load. intros H Hps. destruct (file w) as [data|].
  2: { injection H as <- _. apply from_file_empty. }
  destruct (length data <? saltSize)%nat; [by injection H as <- _|].
  destruct (decrypt _ _) as [?|json]; [by injection H as <- _|].
  destruct (json_Unmarshal json) as [?|es] eqn:Hjson; [by injection H as <- _|].
  destruct (decrypt_entries _ es ∅) as [m e] eqn:Hm. injection H as <- _. cbn.
  eapply decrypt_entries_from_file; [exact Hm| |apply from_file_empty].
  by eapply json_Unmarshal_valid.
Qed.

Lemma encrypt_entries_enough (es : list PasswordEntry) (w : World) (key : list byte)
    (acc : list PasswordEntry) :
  aes_NewCipher_ok key = true ->
  (nonceSize * length es <= length (entropy w))%nat ->
  exists out,
    encrypt_entries w key es acc
    = (set_entropy w (drop (nonceSize * length es) (entropy w)), inr out).
Proof.
  intros Hk. revert w acc. induction es as [|e es IH]; intros w acc Hlen.
  - exists acc. cbn. by destruct w.
  - cbn [length] in Hlen. cbn [encrypt_entries].
    rewrite (encrypt_enough _ _ _ Hk) by (unfold nonceSize in *; lia).
    edestruct (IH (set_entropy w (drop nonceSize (entropy w)))) as [out Hout].
    { cbn [entropy set_entropy]. rewrite length_drop. unfold nonceSize in *. lia. }
    exists out. rewrite Hout. cbn [entropy set_entropy]. rewrite drop_drop.
    unfold set_entropy. cbn [file entropy dir_ok write_ok range_order length].
    do 3 f_equal. unfold nonceSize. lia.
Qed.

(** [Save] succeeds when it has its salt, enough entropy for the nonces,
    and a file system that lets it write. *)
Lemma Save_succeeds (w : World) (ps : PasswordStore) (masterPassword : string)
    (salt : option (list byte)) (s : list byte) :
  choose_salt w salt = (w, inr s) ->
  range_any_order w -> dir_ok w = true -> write_ok w = true ->
  (save_entropy (size (entries ps)) <= length (entropy w))%nat ->
  exists data,
    Save w ps masterPassword salt
    = (set_file (set_entropy w (drop (save_entropy (size (entries ps))) (entropy w))) data,
       None).
Proof.
  intros Hs Hord Hdir Hwrite Hlen. unfold Save. rewrite Hs.
  pose proof (deriveMasterKey_ok masterPassword s) as Hk.
  assert (length (range_order w (entries ps)).*2 = size (entries ps)) as Hsize.
  { by rewrite length_fmap, (Hord (entries ps)), length_map_to_list. }
  unfold save_entropy in *.
  edestruct (encrypt_entries_enough (range_order w (entries ps)).*2 w _ [] Hk)
    as [out Hout]; [rewrite Hsize; lia|].
  rewrite Hout, Hsize. rewrite (encrypt_enough _ _ _ Hk).
  2: { cbn [entropy set_entropy]. rewrite length_drop. unfold nonceSize in *. lia. }
  cbn [dir_ok write_ok set_entropy]. rewrite Hdir, Hwrite. cbn [negb]. eexists.
  unfold set_file, set_entropy. cbn [file entropy dir_ok write_ok range_order].
  rewrite drop_drop. do 3 f_equal.
Qed.

Lemma range_order_empty (w : World) : range_any_order w -> range_order w ∅ = [].
Proof.
  intros Hord. apply Permutation_nil_r. rewrite (Hord ∅). by rewrite map_to_list_empty.
Qed.

Lemma range_order_singleton (w : World) (k : string) (e : PasswordEntry) :
  range_any_order w -> range_order w (<[k:=e]> ∅) = [(k, e)].
Proof.
  intros Hord. apply Permutation_singleton_r. rewrite (Hord _).
  by rewrite insert_empty, map_to_list_singleton.
Qed.

(** What [Initialize] does when the random source and the file system do
    not fail: whatever file there was, it is replaced. *)
Lemma Initialize_spec (w : World) (ps : PasswordStore) (masterPassword : string) :
  range_any_order w -> dir_ok w = true -> write_ok w = true ->
  (saltSize + nonceSize <= length (entropy w))%nat ->
  Initialize w ps masterPassword
  = (set_file (set_entropy w (drop (saltSize + nonceSize) (entropy w)))
       (initial_file masterPassword (entropy w)),
     {| entries := ∅ |}, None).
Proof.
  intros Hord Hdir Hwrite Hlen. unfold Initialize.
  rewrite rand_Read_enough by lia. unfold Save. cbn [choose_salt entries].
  cbn [range_order set_entropy]. rewrite (range_order_empty _ Hord).
  cbn [fmap list_fmap encrypt_entries].
  rewrite encrypt_enough.
  2: apply deriveMasterKey_ok.
  2: { cbn [entropy set_entropy]. rewrite length_drop. lia. }
  cbn [dir_ok write_ok entropy set_entropy]. rewrite Hdir, Hwrite. cbn [negb].
  unfold set_file, initial_file. cbn [file entropy dir_ok write_ok range_order].
  by rewrite drop_drop.
Qed.

(** The strings the JSON encoder writes are valid UTF-8. *)
Lemma json_coerce_is_valid (s : string) : utf8_valid (json_coerce s) = true.
Proof.
  pose proof (json_Unmarshal_valid _ _ (json_Unmarshal_Marshal [Entry s "" ""])) as H.
  apply Forall_cons in H as [H _]. unfold entry_valid in H. cbn in H.
  apply andb_prop in H as [H _]. by apply andb_prop in H as [H _].
Qed.

(** The round trip, step by step: every step succeeds, and [Get] looks the
    id up in a store whose one entry is keyed by the id as the JSON encoder
    wrote it. *)
Lemma round_trip_spec (w : World) (masterPassword id description secret : string) :
  range_any_order w -> dir_ok w = true -> write_ok w = true ->
  (saltSize + nonceSize + save_entropy 1 <= length (entropy w))%nat ->
  round_trip w masterPassword id description secret
  = Get {| entries := {[ json_coerce id :=
                           Entry (json_coerce id) (json_coerce description) secret ]} |}
        id.
Proof.
  intros Hord Hdir Hwrite Hlen. unfold save_entropy in Hlen. unfold round_trip.
  rewrite Initialize_spec by (done || lia).
  unfold Add. cbn [entries]. rewrite lookup_empty.
  set (w1 := set_file _ _).
  assert (range_any_order w1) as Hord1 by done.
  set (ps2 := {| entries := <[id:=Entry id description secret]> ∅ |}).
  edestruct (Save_succeeds w1 ps2 masterPassword None) as [data Hsave]; try done.
  { unfold choose_salt, w1. cbn [file set_file]. unfold initial_file.
    rewrite !length_app, length_take. 
    destruct (Nat.leb_spec saltSize
      (saltSize `min` length (entropy w)
       + (length (take nonceSize (drop saltSize (entropy w)))
          + length (gcm_Seal (deriveMasterKey masterPassword (take saltSize (entropy w)))
                      (take nonceSize (drop saltSize (entropy w)))
                      (json_MarshalIndent []))))); [reflexivity | lia]. }
  { unfold ps2. cbn [entries]. rewrite map_size_insert_None, map_size_empty by done.
    unfold w1. cbn [entropy set_file set_entropy]. rewrite length_drop.
    unfold save_entropy. lia. }
  rewrite Hsave. rewrite (Save_Load _ _ _ NewPasswordStore _ _ Hsave) by done.
  unfold ps2. cbn [entries]. rewrite (range_order_singleton _ _ _ Hord1).
  cbn [fmap list_fmap snd insert_all foldl stored ID Description Password].
  by rewrite insert_empty.
Qed.

(** [Load] rejects a file sealed under another key. *)
Lemma Load_wrong_key (w : World) (ps : PasswordStore) (masterPassword : string)
    (salt nonce plaintext key : list byte) :
  gcm_authentic L ->
  file w = Some (salt ++ nonce ++ gcm_Seal key nonce plaintext) ->
  length salt = saltSize -> length nonce = nonceSize -> length key = keySize ->
  deriveMasterKey masterPassword salt <> key ->
  Load w ps masterPassword
  = (ps, Some ("failed to decrypt (wrong password?): " +:+ err_open)).
Proof.
  intros Hauth Hfile Hs Hn Hk Hne. unfold Load. rewrite Hfile.
  rewrite length_app, Hs.
  destruct (Nat.ltb_spec (saltSize + length (nonce ++ gcm_Seal key nonce plaintext))
              saltSize); [lia|].
  rewrite take_app_length' by done. rewrite drop_app_length' by done.
  unfold decrypt. rewrite deriveMasterKey_ok. cbn [negb].
  rewrite length_app, Hn.
  destruct (Nat.ltb_spec (nonceSize + length (gcm_Seal key nonce plaintext)) nonceSize);
    [lia|].
  rewrite take_app_length' by done. rewrite drop_app_length' by done.
  rewrite Hauth; [done| |done]. by rewrite Hk, deriveMasterKey_length.
Qed.

(** What a successful [ChangeMasterPassword] went through. *)
Lemma ChangeMasterPassword_inv (w w' : World) (ps ps' ps0 : PasswordStore)
    (oldPassword newPassword : string) :
  ChangeMasterPassword w ps oldPassword newPassword = (w', ps', None) ->
  exists m newSalt w1,
    Load w ps0 oldPassword = ({| entries := m |}, None) /\
    from_file m /\ ps' = {| entries := m |} /\
    rand_Read saltSize w = Some (newSalt, w1) /\
    Save w1 {| entries := m |} newPassword (Some newSalt) = (w', None).
Proof.
  unfold ChangeMasterPassword, Load. destruct (file w) as [data|]; [|discriminate].
  destruct (length data <? saltSize)%nat; [discriminate|].
  destruct (decrypt _ _) as [?|json]; [discriminate|].
  destruct (json_Unmarshal json) as [?|es] eqn:Hjson; [discriminate|].
  destruct (decrypt_entries _ es ∅) as [m [e|]] eqn:Hm; [discriminate|].
  destruct (rand_Read saltSize w) as [[newSalt w1]|] eqn:Hrand; [|discriminate].
  destruct (Save w1 _ newPassword (Some newSalt)) as [w2 [e|]] eqn:Hsave; [discriminate|].
  intros [= <- <-]. exists m, newSalt, w1.
  split; [done|]. split; [|done].
  eapply decrypt_entries_from_file; [exact Hm| |apply from_file_empty].
  by eapply json_Unmarshal_valid.
Qed.

(** After a successful [ChangeMasterPassword]: the file starts with a salt
    that was drawn for this call; [Load] under the new passphrase gives what
    [Load] under the old one gave before; and [Load] under a passphrase
    whose key for the new salt is not the new key is rejected. *)
Lemma ChangeMasterPassword_spec (w w' : World) (ps ps' ps0 : PasswordStore)
    (oldPassword newPassword : string) :
  range_any_order w ->
  ChangeMasterPassword w ps oldPassword newPassword = (w', ps', None) ->
  snd (Load w ps0 oldPassword) = None /\
  Load w' ps0 newPassword = Load w ps0 oldPassword /\
  (saltSize <= length (entropy w))%nat /\
  (exists data, file w' = Some data /\ take saltSize data = take saltSize (entropy w)) /\
  (forall password,
     gcm_authentic L ->
     deriveMasterKey password (take saltSize (entropy w))
     <> deriveMasterKey newPassword (take saltSize (entropy w)) ->
     Load w' ps0 password
     = (ps0, Some ("failed to decrypt (wrong password?): " +:+ err_open))).
Proof.
  intros Hord H. apply (ChangeMasterPassword_inv _ _ _ _ ps0) in H
    as (m & newSalt & w1 & Hload & Hm & -> & Hrand & Hsave).
  pose proof Hrand as Hrand'. unfold rand_Read in Hrand'.
  destruct (Nat.leb_spec saltSize (length (entropy w))) as [Hlen|]; [|discriminate].
  apply rand_Read_inv in Hrand as (Hs & -> & ->).
  assert (forall s0, Some (take saltSize (entropy w)) = Some s0 -> length s0 = saltSize)
    as Hsalt by (by intros s0 [= <-]).
  rewrite Hload. split; [done|]. split.
  { rewrite (Save_Load _ _ _ ps0 _ _ Hsave Hsalt). cbn [entries range_order set_entropy].
    by rewrite (insert_all_range _ _ Hord Hm). }
  split; [done|].
  destruct (Save_well_formed _ _ _ _ _ Hsave Hsalt)
    as (data & Hfile & (salt & nonce & pt & Hsl & Hnl & ->) & Htake).
  assert (salt = take saltSize (entropy w)) as ->.
  { rewrite <- (Htake _ eq_refl). by rewrite take_app_length'. }
  split; [eexists; split; [exact Hfile | by apply Htake]|].
  intros password Hauth Hne.
  eapply Load_wrong_key; try done. apply deriveMasterKey_length.
Qed.


Lemma initial_file_salt (masterPassword : string) (e : list byte) :
  (saltSize <= length e)%nat ->
  take saltSize (initial_file masterPassword e) = take saltSize e.
Proof.
  intros He. unfold initial_file. rewrite take_app_length'; [done|].
  rewrite length_take. lia.
Qed.

(** What [Initialize] wrote, [Load] reads as an empty store. *)
Lemma Initialize_Load (w w' : World) (ps ps' ps0 : PasswordStore) (masterPassword : string) :
  range_any_order w ->
  Initialize w ps masterPassword = (w', ps', None) ->
  Load w' ps0 masterPassword = ({| entries := ∅ |}, None).
Proof.
  intros Hord. unfold Initialize.
  destruct (rand_Read saltSize w) as [[salt w1]|] eqn:Hrand; [|discriminate].
  destruct (Save w1 _ masterPassword (Some salt)) as [w2 [e|]] eqn:Hsave; [discriminate|].
  intros [= <- _]. apply rand_Read_inv in Hrand as (Hs & _ & ->).
  rewrite (Save_Load _ _ _ ps0 _ _ Hsave) by (by intros s0 [= <-]).
  cbn [entries range_order set_entropy]. by rewrite (range_order_empty _ Hord).
Qed.

(** C2: [Initialize] does not look for an existing store (its caller asks
    [StoreExists] first).  When the random source and the file system do
    not fail, it draws a fresh salt from the random source, makes the entry
    set empty and writes the store, whether or not a file was there: the
    new file starts with the salt just drawn and loads as an empty store. *)
Theorem Initialize_replaces_store (w : World) (ps ps0 : PasswordStore)
    (masterPassword : string) :
  range_any_order w -> dir_ok w = true -> write_ok w = true ->
  (saltSize + nonceSize <= length (entropy w))%nat ->
  exists w',
    Initialize w ps masterPassword = (w', {| entries := ∅ |}, None) /\
    file w' = Some (initial_file masterPassword (entropy w)) /\
    take saltSize (initial_file masterPassword (entropy w)) = take saltSize (entropy w) /\
    Load w' ps0 masterPassword = ({| entries := ∅ |}, None).
Proof.
  intros Hord Hdir Hwrite Hlen. eexists. split; [by apply Initialize_spec|].
  split; [done|]. split; [apply initial_file_salt; lia|].
  eapply (Initialize_Load w _ ps); [done|]. by apply Initialize_spec.
Qed.

(** Whatever [Load] returns, no key of the store is an id that is not
    valid UTF-8. *)
Lemma Get_invalid_id (id description secret : string) :
  utf8_valid id = false ->
  Get {| entries := {[ json_coerce id :=
                         Entry (json_coerce id) (json_coerce description) secret ]} |} id
  = inl ("password with ID '" +:+ id +:+ "' not found").
Proof.
  intros Hid. unfold Get. cbn [entries]. rewrite lookup_singleton_ne; [done|].
  intros E. pose proof (json_coerce_is_valid id) as Hv. rewrite E in Hv. congruence.
Qed.

(** Saving a store that came from a file and loading it again gives the
    same store, in whatever order the entries were written. *)
Lemma Save_Load_any_order (w w' : World) (ps ps0 : PasswordStore) (masterPassword : string)
    (salt : option (list byte)) :
  range_any_order w -> from_file (entries ps) ->
  (forall s0, salt = Some s0 -> length s0 = saltSize) ->
  Save w ps masterPassword salt = (w', None) ->
  Load w' ps0 masterPassword = ({| entries := entries ps |}, None).
Proof.
  intros Hord Hps Hsalt Hsave. rewrite (Save_Load _ _ _ ps0 _ _ Hsave Hsalt).
  by rewrite (insert_all_range _ _ Hord Hps).
Qed.

(** C3: for an id that is valid UTF-8, and any passphrase, description and
    secret: after [Initialize], [Add] and [Save], a new store that does
    [Load] and [Get] returns the secret, in whatever order a [range] visits
    the entries.  More generally, any store whose ids and descriptions are
    valid UTF-8 is loaded back as it was saved, whatever that order. *)
Theorem round_trip_returns_secret (w : World) (masterPassword id description secret : string) :
  range_any_order w -> dir_ok w = true -> write_ok w = true ->
  (saltSize + nonceSize + save_entropy 1 <= length (entropy w))%nat ->
  utf8_valid id = true ->
  round_trip w masterPassword id description secret = inr secret /\
  (forall (ps ps0 : PasswordStore) (salt : option (list byte)) (w' : World),
     from_file (entries ps) ->
     (forall s0, salt = Some s0 -> length s0 = saltSize) ->
     Save w ps masterPassword salt = (w', None) ->
     Load w' ps0 masterPassword = ({| entries := entries ps |}, None)).
Proof.
  intros Hord Hdir Hwrite Hlen Hid. split.
  - rewrite round_trip_spec by done. unfold Get. cbn [entries].
    rewrite (json_coerce_valid _ Hid). by rewrite lookup_singleton_eq.
  - intros ps ps0 salt w' Hps Hsalt Hsave. by eapply Save_Load_any_order.
Qed.



End WithLaws.

End WithLib.

End Store.

(** ** The scripted interaction engine: [ConnectInteractive] of [ssh/ssh.go]. *)
Module Interactive.
Import GoStrings Directives Store.

(** What the engine finds around it: the world of the password store, what
    [PromptMasterPassword] returns (an error text or the passphrase typed),
    and the errors, if any, of [pty.Start] and [MakeRaw]. *)
Record Env := {
  store_world : World;
  prompt_reply : string + string;
  pty_Start_error : option string;
  MakeRaw_error : option string;
}.

(** What the automation task does, in order. *)
Inductive action :=
| Sleep (nanoseconds : Z)
| WritePty (text : string)
| WriteStderr (text : string)
| CopyStdinToPty.

(** What a call of [ConnectInteractive] does, in order.  The session stands
    for the time between the start of the automation task and the end of
    the seed command; it carries what the automation task does (the copies
    that run beside it are not modelled). *)
Inductive effect :=
| Prompt (text : string)
| Println (text : string)
| PtyStart (command : string)
| InitialResize
| MakeRawStdin
| Session (script : list action)
| RestoreStdin
| PtyClose.

Record outcome := Outcome { effects : list effect; error : option string }.

Definition Millisecond : Z := 1000000.

Definition newline : string := String "010" "".

Definition is_kind (k : CommandType) (pc : ParsedCommand) : bool :=
  match k, Kind pc with
  | CommandTypeExec, CommandTypeExec
  | CommandTypeSend, CommandTypeSend
  | CommandTypeSendPass, CommandTypeSendPass
  | CommandTypeWait, CommandTypeWait
  | CommandTypeInteract, CommandTypeInteract => true
  | _, _ => false
  end.

(** The loop that looks for the first [Exec] directive: [execCmd] and
    [startIdx]; both stay zero when there is none.  [i] is the index of the
    head of [parsed]. *)
Fixpoint firstExec_from (i : nat) (parsed : list ParsedCommand) : string * nat :=
  match parsed with
  | [] => ("", O)
  | pc :: rest =>
      if is_kind CommandTypeExec pc then (Value pc, S i)
      else firstExec_from (S i) rest
  end.

(** The loop of the automation task over [parsed[startIdx:]]. *)
Fixpoint automation_loop (passwordStore : option PasswordStore)
    (script : list ParsedCommand) : list action :=
  match script with
  | [] => [CopyStdinToPty]
  | pc :: rest =>
      match Kind pc with
      | CommandTypeSend =>
          WritePty (Value pc +:+ newline) :: Sleep (100 * Millisecond)
          :: automation_loop passwordStore rest
      | CommandTypeSendPass =>
          match passwordStore with
          | None => [WriteStderr ("Error: password store not loaded" +:+ newline)]
          | Some ps =>
              match Get ps (Value pc) with
              | inl err =>
                  [WriteStderr ("Error: failed to get password '" +:+ Value pc
                                +:+ "': " +:+ err +:+ newline)]
              | inr pwd =>
                  WritePty (pwd +:+ newline) :: Sleep (100 * Millisecond)
                  :: automation_loop passwordStore rest
              end
          end
      | CommandTypeWait =>
          match waitSleep (Value pc) with
          | Some d => Sleep d :: automation_loop passwordStore rest
          | None => automation_loop passwordStore rest
          end
      | CommandTypeInteract => [CopyStdinToPty]
      | CommandTypeExec =>
          WritePty (Value pc +:+ newline) :: Sleep (100 * Millisecond)
          :: automation_loop passwordStore rest
      end
  end.

(** The automation task. *)
Definition automation (passwordStore : option PasswordStore)
    (parsed : list ParsedCommand) (startIdx : nat) : list action :=
  Sleep (500 * Millisecond) :: automation_loop passwordStore (drop startIdx parsed).

(** An effect that starts a session: the pseudo-terminal, the raw mode or
    the session itself. *)
Definition starts_session (e : effect) : bool :=
  match e with
  | PtyStart _ | InitialResize | MakeRawStdin | Session _ | RestoreStdin | PtyClose => true
  | Prompt _ | Println _ => false
  end.

Section WithLib.
Context `{L : Lib}.

(** The part of [ConnectInteractive] that unlocks the password store when a
    [SendPass] directive needs it: what it did, and the store or the error
    that ends the call. *)
Definition unlock_store (env : Env) (parsed : list ParsedCommand)
  : list effect * (string + option PasswordStore) :=
  if existsb (is_kind CommandTypeSendPass) parsed then
    if negb (StoreExists (store_world env))
    then ([], inl ("password store not initialized. "
                   +:+ "Please run password manager to add passwords first"))
    else
      match prompt_reply env with
      | inl e => ([Prompt "Master Password: "],
                  inl ("failed to read master password: " +:+ e))
      | inr masterPassword =>
          match Load (store_world env) NewPasswordStore masterPassword with
          | (_, Some e) => ([Prompt "Master Password: "],
                            inl ("failed to load password store: " +:+ e))
          | (ps, None) => ([Prompt "Master Password: ";
                            Println "Password store loaded successfully"],
                           inr (Some ps))
          end
      end
  else ([], inr None).

(** [ConnectInteractive]. *)
Definition ConnectInteractive (env : Env) (commands : list string) : outcome :=
  if (length commands =? 0)%nat then Outcome [] (Some "no commands specified")
  else
    let parsed := ParseCommands commands in
    if (length parsed =? 0)%nat then Outcome [] (Some "no valid commands")
    else
      match unlock_store env parsed with
      | (did, inl e) => Outcome did (Some e)
      | (did, inr passwordStore) =>
          let '(execCmd, startIdx) := firstExec_from 0 parsed in
          if String.eqb execCmd "" then Outcome did (Some "no executable command found")
          else
            match pty_Start_error env with
            | Some e => Outcome did (Some ("failed to start pty: " +:+ e))
            | None =>
                match MakeRaw_error env with
                | Some e =>
                    Outcome (did ++ [PtyStart execCmd; InitialResize; PtyClose])
                      (Some ("failed to set raw mode: " +:+ e))
                | None =>
                    Outcome (did ++ [PtyStart execCmd; InitialResize; MakeRawStdin;
                                      Session (automation passwordStore parsed startIdx);
                                      RestoreStdin; PtyClose])
                      None
                end
            end
      end.

(** The store unlocks: it exists, the passphrase is read, and [Load]
    succeeds. *)
Definition store_unlocks (env : Env) : Prop :=
  StoreExists (store_world env) = true /\
  exists masterPassword,
    prompt_reply env = inr masterPassword /\
    snd (Load (store_world env) NewPasswordStore masterPassword) = None.

(** The errors of a store that does not unlock. *)
Definition store_error (e : string) : Prop :=
  e = "password store not initialized. "
      +:+ "Please run password manager to add passwords first"
  \/ (exists e', e = "failed to read master password: " +:+ e')
  \/ (exists e', e = "failed to load password store: " +:+ e').

(** *** Facts about the engine. *)

Lemma firstExec_from_none (parsed : list ParsedCommand) (i : nat) :
  Forall (fun pc => Kind pc <> CommandTypeExec) parsed ->
  firstExec_from i parsed = ("", O).
Proof.
  intros H. revert i. induction H as [|pc parsed Hpc _ IH]; intros i; [reflexivity|].
  cbn [firstExec_from]. unfold is_kind. destruct (Kind pc); try apply IH. congruence.
Qed.

Lemma unlock_store_effects (env : Env) (parsed : list ParsedCommand) :
  existsb starts_session (unlock_store env parsed).1 = false.
Proof.
  unfold unlock_store. destruct (existsb _ parsed); [|reflexivity].
  destruct (StoreExists _); [|reflexivity]. cbn [negb].
  destruct (prompt_reply env) as [e|pw]; [reflexivity|].
  by destruct (Load _ _ pw) as [ps [e|]].
Qed.

Lemma unlock_store_cases (env : Env) (parsed : list ParsedCommand) :
  match (unlock_store env parsed).2 with
  | inl e => existsb (is_kind CommandTypeSendPass) parsed = true /\
             store_error e /\ ~ store_unlocks env
  | inr _ => existsb (is_kind CommandTypeSendPass) parsed = false \/ store_unlocks env
  end.
Proof.
  unfold unlock_store, store_unlocks.
  destruct (existsb _ parsed); [|by left].
  destruct (StoreExists _) eqn:Hex; cbn [negb].
  2: { split; [done|]. split; [by left|]. by intros [? _]. }
  destruct (prompt_reply env) as [e|pw] eqn:Hp.
  { split; [done|]. split; [right; left; eauto|]. by intros (_ & ? & ? & _). }
  destruct (Load _ _ pw) as [ps [e|]] eqn:Hl; cbn.
  - split; [done|]. split; [right; right; eauto|].
    intros (_ & pw' & [= <-] & Hload). by rewrite Hl in Hload.
  - right. split; [done|]. exists pw. by rewrite Hl.
Qed.

(** C10: for a non-empty command list whose directives contain no [Exec],
    the engine returns an error before it allocates a pseudo-terminal or
    sets the raw mode: no session is started.  The error is
    [no executable command found] when no directive is a [SendPass] or the
    password store unlocks; otherwise it is the error of the store that a
    [SendPass] directive needs and that does not unlock. *)
Theorem no_exec_no_session (env : Env) (commands : list string) :
  commands <> [] ->
  Forall (fun pc => Kind pc <> CommandTypeExec) (ParseCommands commands) ->
  let r := ConnectInteractive env commands in
  existsb starts_session (effects r) = false /\
  (exists e, error r = Some e /\
     (e = "no executable command found" \/
      existsb (is_kind CommandTypeSendPass) (ParseCommands commands) = true /\
      store_error e /\ ~ store_unlocks env)) /\
  (existsb (is_kind CommandTypeSendPass) (ParseCommands commands) = false
   \/ store_unlocks env ->
   error r = Some "no executable command found").
Proof.
  intros Hne Hexec. unfold ConnectInteractive.
  destruct commands as [|c commands]; [done|]. cbn [length Nat.eqb].
  set (parsed := ParseCommands (c :: commands)) in *.
  assert ((length parsed =? 0)%nat = false) as ->.
  { unfold parsed. by rewrite ParseCommands_map. }
  pose proof (unlock_store_effects env parsed) as Heff.
  pose proof (unlock_store_cases env parsed) as Hcases.
  destruct (unlock_store env parsed) as [did [e|passwordStore]]; cbn in Heff, Hcases.
  - destruct Hcases as (Hpass & Herr & Hno). cbn. split; [done|]. split.
    + exists e. split; [done|]. by right.
    + intros [Hp|Hu]; [congruence | done].
  - rewrite (firstExec_from_none _ _ Hexec). cbn. split; [done|]. split; [|done].
    eexists. split; [done|]. by left.
Qed.

End WithLib.

End Interactive.

(** ** A small model of the libraries.

    It shows that the laws of [Store.LibLaws] and [Store.gcm_authentic] can
    be met together, and it lets the operations of the store be run on
    concrete inputs.  It is not the real cryptography: the key derivation
    pads the passphrase and the salt, the cipher tags the plaintext with
    the key, base64 is replaced by two letters per byte, and JSON by a
    byte-wise encoding of the strings. *)
Module Toy.
Import Store.

Definition pbkdf2 (password salt : list byte) (iter : Z) (keyLen : nat) : list byte :=
  take keyLen (password ++ salt ++ replicate keyLen x00).

Fixpoint bytes_eqb (a b : list byte) : bool :=
  match a, b with
  | [], [] => true
  | x :: a', y :: b' => Byte.eqb x y && bytes_eqb a' b'
  | _, _ => false
  end.

Definition seal (key nonce plaintext : list byte) : list byte := key ++ plaintext.

Definition open (key nonce ciphertext : list byte) : option (list byte) :=
  if bytes_eqb (take (length key) ciphertext) key
  then Some (drop (length key) ciphertext)
  else None.

Definition letter (n : N) : ascii := ascii_of_N (65 + n).

Definition letters_of_byte (b : byte) : string :=
  String (letter (Byte.to_N b / 16)) (String (letter (Byte.to_N b mod 16)) "").

Fixpoint encode_letters (data : list byte) : string :=
  match data with
  | [] => ""
  | b :: r => letters_of_byte b +:+ encode_letters r
  end.

Fixpoint decode_letters (s : string) : string + list byte :=
  match s with
  | EmptyString => inr []
  | String c1 (String c2 r) =>
      match Byte.of_N ((N_of_ascii c1 - 65) * 16 + (N_of_ascii c2 - 65)) with
      | Some b =>
          match decode_letters r with
          | inr bs => inr (b :: bs)
          | inl e => inl e
          end
      | None => inl "illegal letter"
      end
  | String _ EmptyString => inl "odd length"
  end.

Definition coerce (s : string) : string := if utf8_valid s then s else "".

Fixpoint enc_str (s : string) : list byte :=
  match s with
  | EmptyString => [x00]
  | String c r => x01 :: byte_of_ascii c :: enc_str r
  end.

Fixpoint dec_str (bs : list byte) : option (string * list byte) :=
  match bs with
  | [] => None
  | t :: r =>
      if Byte.eqb t x00 then Some (EmptyString, r)
      else
        match r with
        | b :: r' =>
            match dec_str r' with
            | Some (s, rest) => Some (String (ascii_of_byte b) s, rest)
            | None => None
            end
        | [] => None
        end
  end.

Definition enc_entry (e : PasswordEntry) : list byte :=
  enc_str (ID e) ++ enc_str (Description e) ++ enc_str (Password e).

Fixpoint enc_entries (es : list PasswordEntry) : list byte :=
  match es with
  | [] => []
  | e :: r => enc_entry e ++ enc_entries r
  end.

Definition toy_coerce_entry (e : PasswordEntry) : PasswordEntry :=
  Entry (coerce (ID e)) (coerce (Description e)) (coerce (Password e)).

Definition marshal (es : list PasswordEntry) : list byte :=
  replicate (length es) x02 ++ x03 :: enc_entries (toy_coerce_entry <$> es).

Fixpoint dec_count (bs : list byte) : nat * list byte :=
  match bs with
  | [] => (O, [])
  | b :: r =>
      if Byte.eqb b x02 then let '(n, rest) := dec_count r in (S n, rest)
      else (O, r)
  end.

Fixpoint dec_entries (n : nat) (bs : list byte) : option (list PasswordEntry) :=
  match n with
  | O => Some []
  | S k =>
      match dec_str bs with
      | Some (i, r1) =>
          match dec_str r1 with
          | Some (d, r2) =>
              match dec_str r2 with
              | Some (p, r3) =>
                  match dec_entries k r3 with
                  | Some es => Some (Entry i d p :: es)
                  | None => None
                  end
              | None => None
              end
          | None => None
          end
      | None => None
      end
  end.

Definition unmarshal (bs : list byte) : string + list PasswordEntry :=
  let '(n, r) := dec_count bs in
  match dec_entries n r with
  | Some es => if forallb entry_valid es then inr es else inl "invalid UTF-8"
  | None => inl "unexpected end of input"
  end.

#[export] Instance lib : Lib := {|
  pbkdf2_Key := pbkdf2;
  gcm_Seal := seal;
  gcm_Open := open;
  base64_Encode := encode_letters;
  base64_Decode := decode_letters;
  json_MarshalIndent := marshal;
  json_Unmarshal := unmarshal;
  json_coerce := coerce;
|}.

(** A world with a given file, [n] bytes of entropy, a file system that
    works, and maps visited in the order of their list of entries. *)
Definition world (f : option (list byte)) (n : nat) : World :=
  {| file := f; entropy := replicate n x2a; dir_ok := true; write_ok := true;
     write_torn := None; range_order := map_to_list |}.

(** *** The model meets the laws. *)

Lemma bytes_eqb_eq (a b : list byte) : bytes_eqb a b = true <-> a = b.
Proof.
  revert b. induction a as [|x a IH]; intros [|y b]; cbn; try done.
  rewrite andb_true_iff, IH. split.
  - intros [Hxy ->]. f_equal. by apply Byte.byte_dec_bl.
  - intros [= -> ->]. split; [by apply Byte.byte_dec_lb | done].
Qed.

Lemma open_seal (key nonce plaintext : list byte) :
  open key nonce (seal key nonce plaintext) = Some plaintext.
Proof.
  unfold open, seal. rewrite take_app_length.
  assert (bytes_eqb key key = true) as -> by by apply bytes_eqb_eq.
  by rewrite drop_app_length.
Qed.


Lemma decode_encode_letters (data : list byte) :
  decode_letters (encode_letters data) = inr data.
Proof.
  induction data as [|b data IH]; [reflexivity|].
  cbn [encode_letters]. unfold letters_of_byte.
  change (String ?a (String ?c "") +:+ ?r) with (String a (String c r)).
  cbn [decode_letters]. rewrite IH.
  assert (Byte.of_N ((N_of_ascii (letter (Byte.to_N b / 16)) - 65) * 16
                     + (N_of_ascii (letter (Byte.to_N b mod 16)) - 65)) = Some b) as ->;
    [|done].
  destruct b; reflexivity.
Qed.

Lemma utf8_valid_letters (data : list byte) : utf8_valid (encode_letters data) = true.
Proof.
  unfold utf8_valid. induction data as [|b data IH]; [reflexivity|].
  cbn [encode_letters]. unfold letters_of_byte.
  change (String ?a (String ?c "") +:+ ?r) with (String a (String c r)).
  cbn [utf8_run].
  assert (utf8_step Boundary (N_of_ascii (letter (Byte.to_N b / 16))) = Some Boundary)
    as -> by (destruct b; reflexivity).
  assert (utf8_step Boundary (N_of_ascii (letter (Byte.to_N b mod 16))) = Some Boundary)
    as -> by (destruct b; reflexivity).
  exact IH.
Qed.

Lemma utf8_valid_coerce (s : string) : utf8_valid (coerce s) = true.
Proof. unfold coerce. by destruct (utf8_valid s) eqn:E. Qed.

Lemma dec_enc_str (s : string) (rest : list byte) :
  dec_str (enc_str s ++ rest) = Some (s, rest).
Proof.
  induction s as [|c s IH]; [reflexivity|].
  cbn [enc_str app dec_str]. change (Byte.eqb x01 x00) with false. cbn iota.
  by rewrite IH, ascii_of_byte_of_ascii.
Qed.

Lemma dec_count_marshal (n : nat) (rest : list byte) :
  dec_count (replicate n x02 ++ x03 :: rest) = (n, rest).
Proof. induction n as [|n IH]; [reflexivity|]. cbn. by rewrite IH. Qed.

Lemma dec_enc_entries (es : list PasswordEntry) :
  dec_entries (length es) (enc_entries es) = Some es.
Proof.
  induction es as [|[i d p] es IH]; [reflexivity|].
  cbn [length enc_entries dec_entries]. unfold enc_entry. cbn [ID Description Password].
  rewrite <- !app_assoc. by rewrite !dec_enc_str, IH.
Qed.

Lemma unmarshal_marshal (es : list PasswordEntry) :
  unmarshal (marshal es) = inr (toy_coerce_entry <$> es).
Proof.
  unfold unmarshal, marshal. rewrite dec_count_marshal.
  rewrite <- (length_fmap toy_coerce_entry es), dec_enc_entries.
  assert (forallb entry_valid (toy_coerce_entry <$> es) = true) as ->; [|done].
  apply forallb_forall. intros e He. apply in_map_iff in He as (e0 & <- & _).
  unfold entry_valid, toy_coerce_entry. cbn. by rewrite !utf8_valid_coerce.
Qed.

Lemma unmarshal_valid (data : list byte) (es : list PasswordEntry) :
  unmarshal data = inr es -> Forall (fun e => entry_valid e = true) es.
Proof.
  unfold unmarshal. destruct (dec_count data) as [n r].
  destruct (dec_entries n r) as [es'|]; [|discriminate].
  destruct (forallb entry_valid es') eqn:E; [|discriminate].
  intros [= <-]. apply Forall_forall. intros e He.
  rewrite forallb_forall in E. by apply E, list_elem_of_In.
Qed.

#[export] Instance laws : LibLaws lib.
Proof.
  split.
  - intros password salt iter keyLen. cbn. unfold pbkdf2.
    rewrite length_take, !length_app, length_replicate. lia.
  - apply open_seal.
  - apply decode_encode_letters.
  - apply utf8_valid_letters.
  - intros s Hs. cbn. unfold coerce. by rewrite Hs.
  - apply unmarshal_marshal.
  - apply unmarshal_valid.
Qed.


Lemma world_any_order (f : option (list byte)) (n : nat) : range_any_order (world f n).
Proof. intros m. reflexivity. Qed.

End Toy.

(** ** The theorems of the store and of the engine on concrete inputs, with
    the small model of the libraries. *)
Module Checks.
Import Store Interactive Toy.

(** The byte 0xFF alone: a string that is not valid UTF-8. *)
Definition bad_id : string := String "255" "".

(** A world after [Initialize], [Add] and [Save] under the passphrase
    [old-pw]. *)
Definition saved_world : World :=
  let '(w1, ps1, _) := Initialize (Toy.world None 200) NewPasswordStore "old-pw" in
  let '(ps2, _) := Add ps1 "db" "desc" "secret1" in
  fst (Save w1 ps2 "old-pw" None).

(** An environment of the engine without a password store. *)
Definition env_without_store : Env :=
  {| store_world := Toy.world None 0; prompt_reply := inr "pw";
     pty_Start_error := None; MakeRaw_error := None |}.

Lemma saved_world_any_order : range_any_order saved_world.
Proof. intros m. reflexivity. Qed.

Lemma Initialize_replaces_store_witness :
  exists w',
    Initialize (Toy.world (Some [x00]) 44) NewPasswordStore "master-pw"
    = (w', {| entries := ∅ |}, None) /\
    file w' = Some (initial_file "master-pw" (entropy (Toy.world (Some [x00]) 44))) /\
    take saltSize (initial_file "master-pw" (entropy (Toy.world (Some [x00]) 44)))
    = take saltSize (entropy (Toy.world (Some [x00]) 44)) /\
    Load w' NewPasswordStore "master-pw" = ({| entries := ∅ |}, None).
Proof.
  apply (Initialize_replaces_store (Toy.world (Some [x00]) 44)
           NewPasswordStore NewPasswordStore "master-pw").
  - apply Toy.world_any_order.
  - reflexivity.
  - reflexivity.
  - vm_compute. lia.
Defined.

(** With a store file already there, [Initialize] returns no error and the
    file is another one afterwards: for the small model of the libraries on
    a concrete world, and for all libraries that meet the laws. *)
Lemma Initialize_existing_store_counterexample :
  (StoreExists (Toy.world (Some [x00]) 44) = true /\
   snd (Initialize (Toy.world (Some [x00]) 44) NewPasswordStore "master-pw") = None /\
   file (fst (fst (Initialize (Toy.world (Some [x00]) 44) NewPasswordStore "master-pw")))
   <> Some [x00]) /\
  (forall (L : Lib) (Laws : LibLaws L) (w : World) (ps : PasswordStore)
          (masterPassword : string),
     StoreExists w = true ->
     range_any_order w -> dir_ok w = true -> write_ok w = true ->
     (saltSize + nonceSize <= length (entropy w))%nat ->
     snd (Initialize w ps masterPassword) = None /\
     file (fst (fst (Initialize w ps masterPassword)))
     = Some (initial_file masterPassword (entropy w))).
Proof.
  split.
  - split; [reflexivity|]. split; [vm_compute; reflexivity|]. vm_compute. discriminate.
  - intros L Laws w ps masterPassword _ Hord Hdir Hwrite Hlen.
    by rewrite Initialize_spec.
Qed.

Lemma round_trip_returns_secret_witness :
  round_trip (Toy.world None 100) "pw" "db" "desc" "secret1" = inr "secret1" /\
  Load saved_world NewPasswordStore "old-pw"
  = ({| entries := <["db" := Entry "db" "desc" "secret1"]> ∅ |}, None).
Proof.
  destruct (round_trip_returns_secret (Toy.world None 100) "pw" "db" "desc" "secret1")
    as [Hget Hload].
  - apply Toy.world_any_order.
  - reflexivity.
  - reflexivity.
  - vm_compute. lia.
  - reflexivity.
  - split; [exact Hget|].
    pose (w1 := fst (fst (Initialize (Toy.world None 200) NewPasswordStore "old-pw"))).
    destruct (round_trip_returns_secret w1 "old-pw" "db" "desc" "secret1")
      as [_ Hload1].
    + intros m. reflexivity.
    + reflexivity.
    + reflexivity.
    + vm_compute. lia.
    + reflexivity.
    + pose proof (Hload1 {| entries := <["db" := Entry "db" "desc" "secret1"]> ∅ |}
               NewPasswordStore None saved_world) as H.
      cbn [entries] in H. apply H; clear H.
      * intros k e Hk. cbn [entries] in Hk. rewrite insert_empty in Hk.
        apply lookup_singleton_Some in Hk as [<- <-]. by vm_compute.
      * discriminate.
      * reflexivity.
Defined.

(** For the id that is the byte 0xFF, the round trip ends with [Get]
    finding no entry: for all libraries that meet the laws, and for the
    small model on a concrete world. *)
Lemma round_trip_invalid_id_counterexample :
  utf8_valid bad_id = false /\
  round_trip (Toy.world None 100) "pw" bad_id "desc" "secret1"
  = inl ("password with ID '" +:+ bad_id +:+ "' not found") /\
  (forall (L : Lib) (Laws : LibLaws L) (w : World)
          (masterPassword description secret : string),
     range_any_order w -> dir_ok w = true -> write_ok w = true ->
     (saltSize + nonceSize + save_entropy 1 <= length (entropy w))%nat ->
     round_trip w masterPassword bad_id description secret
     = inl ("password with ID '" +:+ bad_id +:+ "' not found")).
Proof.
  split; [reflexivity|]. split; [vm_compute; reflexivity|].
  intros L Laws w masterPassword description secret Hord Hdir Hwrite Hlen.
  rewrite round_trip_spec by done. by apply Get_invalid_id.
Qed.






Lemma no_exec_no_session_witness :
  existsb starts_session
    (effects (ConnectInteractive env_without_store ["SEND:yes"; "WAIT:2"; "INTERACT"]))
  = false /\
  error (ConnectInteractive env_without_store ["SEND:yes"; "WAIT:2"; "INTERACT"])
  = Some "no executable command found".
Proof.
  destruct (no_exec_no_session env_without_store ["SEND:yes"; "WAIT:2"; "INTERACT"])
    as (Hnone & _ & Herr).
  - discriminate.
  - repeat constructor; discriminate.
  - split; [exact Hnone|]. apply Herr. left. reflexivity.
Defined.

(** With a [SendPass] directive and no store file, the error is the one of
    the missing store, not [no executable command found]; no session is
    started either way.  This holds for every model of the libraries, none
    being called. *)
Lemma sendpass_without_store_counterexample :
  Forall (fun pc => Directives.Kind pc <> Directives.CommandTypeExec)
    (Directives.ParseCommands ["SENDPASS:db"; "INTERACT"]) /\
  (forall L : Lib,
     @ConnectInteractive L env_without_store ["SENDPASS:db"; "INTERACT"]
     = Outcome [] (Some ("password store not initialized. "
                         +:+ "Please run password manager to add passwords first"))) /\
  error (ConnectInteractive env_without_store ["SENDPASS:db"; "INTERACT"])
  <> Some "no executable command found".
Proof.
  split; [repeat constructor; discriminate|]. split; [reflexivity|]. discriminate.
Qed.

End Checks.

(** ** Validation and the subprocess variant of the compiler:
    [ValidateCommand], [ValidateCommands], [Connect] and
    [ConnectWithCommandsSubprocess] of [ssh/ssh.go]. *)
Module Launch.
Import GoStrings Compiler Directives.

(** [ValidateCommand]: [None] is Go's [nil] error. *)
Definition ValidateCommand (command : string) : option string :=
  if String.eqb command "" then Some "command cannot be empty"
  else if negb (Contains command "ssh") then Some "command must contain 'ssh'"
  else None.

(** The loop of [ValidateCommands]: the error of the first empty command,
    or the final value of [hasSSH]. *)
Fixpoint validate_loop (hasSSH : bool) (commands : list string) : string + bool :=
  match commands with
  | [] => inr hasSSH
  | cmd :: rest =>
      if String.eqb cmd "" then inl "empty command in command list"
      else validate_loop (if Contains cmd "ssh" then true else hasSSH) rest
  end.

(** [ValidateCommands]. *)
Definition ValidateCommands (commands : list string) : option string :=
  if Z.of_nat (length commands) =? 0 then Some "no commands specified"
  else
    match validate_loop false commands with
    | inl err => Some err
    | inr hasSSH =>
        if negb hasSSH then Some "at least one command must contain 'ssh'"
        else None
    end.

(** What a call of the subprocess variant did: the lines written to
    standard output, the command run by [$SHELL -c] as a child process (if
    one was started) and the error returned. *)
Record sub_run := SubRun {
  sub_stdout : list string;
  sub_command : option string;
  sub_error : option string
}.

(** [Connect]: [child] is the error of [cmd.Run()], [None] when the child
    ran and exited with status 0. *)
Definition Connect (child : option string) (command : string)
  : option string * option string :=
  if String.eqb command "" then (None, Some "no command specified")
  else (Some command,
        match child with
        | Some err => Some ("error executing SSH command: " +:+ err)
        | None => None
        end).

Definition connected (out : list string) (r : option string * option string) : sub_run :=
  SubRun out r.1 r.2.

(** [ConnectWithCommandsSubprocess]. *)
Definition ConnectWithCommandsSubprocess (child : option string)
    (commands : list string) : sub_run :=
  if Z.of_nat (length commands) =? 0
  then SubRun [] None (Some "no commands specified")
  else if Z.of_nat (length commands) =? 1
  then connected [] (Connect child (nth 0 commands ""))
  else
    let i := firstSSHIndex commands in
    if i =? -1 then connected [] (Connect child (Join commands " && "))
    else
      let firstSSH := nth (Z.to_nat i) commands "" in
      if i =? Z.of_nat (length commands) - 1
      then connected [] (Connect child firstSSH)
      else
        let preCommands := if 0 <? i then take (Z.to_nat i) commands else [] in
        let remoteCommands := drop (Z.to_nat (i + 1)) commands in
        let final := finalCommand (sshCommand firstSSH) (remoteScript remoteCommands) in
        let final :=
          if 0 <? Z.of_nat (length preCommands)
          then Join preCommands " && " +:+ " && " +:+ final
          else final in
        connected ["Executing: " +:+ final +:+ String "010" ""]
                  (Connect child final).

(** The command an outcome of the exec variant hands to the shell. *)
Definition shell_command (o : outcome) : option string :=
  match o with
  | Exec command => Some command
  | Error _ => None
  end.

(** The remote script the way a reader writes it: every remote command but
    the last is followed by a semicolon and a space; the last one is
    prefixed with [exec] when it contains [ssh]. *)
Definition remote_line (init : list string) (last : string) : string :=
  foldr (fun c acc => c +:+ "; " +:+ acc)
        ((if Contains last "ssh" then "exec " else "") +:+ last) init.

(** The compiled command the way a reader writes it: the pre-steps, each
    followed by [&&], then the SSH command and the quoted remote script. *)
Definition compiled (pre : list string) (ssh : string) (init : list string)
    (last : string) : string :=
  foldr (fun c acc => c +:+ " && " +:+ acc)
        (sshCommand ssh +:+ " '" +:+ escape_each (remote_line init last) +:+ "'")
        pre.

(** *** Facts. *)

Lemma append_empty (a : string) : a +:+ "" = a.
Proof.
  induction a as [|x a IH]; [done|].
  change (String x (a +:+ "") = String x a). by rewrite IH.
Qed.

Lemma Contains_HasPrefix (s x : string) :
  HasPrefix s x = true -> Contains s x = true.
Proof. intros H. destruct s; cbn [Contains]; by rewrite H. Qed.

(** [Contains] finds exactly the substrings. *)
Lemma Contains_substring (s x : string) :
  Contains s x = true <-> exists a b, s = a +:+ x +:+ b.
Proof.
  split.
  - induction s as [|c r IH]; cbn [Contains]; intros H.
    + rewrite orb_false_r in H. exists "", (skip (String.length x) "").
      by apply prefix_split.
    + apply orb_true_iff in H as [H|H].
      * exists "", (skip (String.length x) (String c r)). by apply prefix_split.
      * destruct (IH H) as (a & b & ->). by exists (String c a), b.
  - intros (a & b & ->). induction a as [|c a IH].
    + change ("" +:+ x +:+ b) with (x +:+ b). apply Contains_HasPrefix.
      unfold HasPrefix. apply (prefix_append x b).
    + change (String c a +:+ x +:+ b) with (String c (a +:+ x +:+ b)).
      cbn [Contains]. by rewrite IH, orb_true_r.
Qed.



(** [Replace] leaves a string without an occurrence as it is. *)
Lemma replace_scan_absent (s old new : string) (n : Z) :
  Contains s old = false -> replace_scan s old new n 0 = s.
Proof.
  induction s as [|c r IH]; [done|]. cbn [Contains replace_scan]. intros H.
  apply orb_false_iff in H as [Hp Hr]. rewrite Hp, (IH Hr).
  by destruct (n =? 0).
Qed.

(** The first occurrence of [ssh ] becomes [ssh -tt ]. *)
Lemma replace_scan_tt (s : string) :
  Contains s "ssh " = true ->
  Contains (replace_scan s "ssh " "ssh -tt " 1 0) "ssh -tt " = true.
Proof.
  induction s as [|c r IH]; [done|]. intros H.
  change (Contains (String c r) "ssh ")
    with (HasPrefix (String c r) "ssh " || Contains r "ssh ") in H.
  cbn [replace_scan]. change (1 =? 0) with false. cbn iota.
  destruct (HasPrefix (String c r) "ssh ") eqn:Hp.
  - apply Contains_substring. by exists "", (replace_scan r "ssh " "ssh -tt " (1 - 1) (String.length "ssh " - 1)).
  - cbn [orb] in H.
    change (Contains (String c ?x) ?y) with (HasPrefix (String c x) y || Contains x y).
    cbn [Contains]. by rewrite (IH H), orb_true_r.
Qed.

Lemma remoteScript_from_line (init : list string) (last : string) (i len : Z) :
  0 <= i -> len = i + Z.of_nat (length init) + 1 ->
  remoteScript_from i len (init ++ [last]) =
    (if 0 <? i then "; " else "") +:+ remote_line init last.
Proof.
  revert i. induction init as [|c r IH]; intros i Hi Hlen; cbn [app remoteScript_from].
  - cbn [length] in Hlen.
    destruct (Z.eqb_spec i (len - 1)) as [_|E]; [|lia]. cbn [andb].
    unfold remote_line. cbn [foldr].
    by rewrite append_empty.
  - cbn [length] in Hlen.
    destruct (Z.eqb_spec i (len - 1)) as [E|_]; [lia|]. cbn [andb].
    rewrite (IH (i + 1)) by lia.
    destruct (Z.ltb_spec 0 (i + 1)) as [_|E]; [|lia].
    unfold remote_line. cbn [foldr]. done.
Qed.

Lemma Join_foldr (pre : list string) (sep x : string) :
  pre <> [] ->
  Join pre sep +:+ sep +:+ x = foldr (fun c acc => c +:+ sep +:+ acc) x pre.
Proof.
  induction pre as [|a [|b r] IH]; [done|done|]. intros _.
  change (Join (a :: b :: r) sep) with (a +:+ sep +:+ Join (b :: r) sep).
  rewrite !string_append_assoc. cbn [foldr] in *. by rewrite IH.
Qed.


Lemma existsb_Exists {A} (f : A -> bool) (l : list A) :
  existsb f l = true <-> Exists (fun x => f x = true) l.
Proof.
  induction l as [|x l IH]; cbn [existsb].
  - split; [done | by intros H; inversion H].
  - rewrite orb_true_iff, Exists_cons, IH. done.
Qed.

Lemma existsb_Forall {A} (f : A -> bool) (l : list A) :
  existsb f l = false <-> Forall (fun x => f x = false) l.
Proof.
  induction l as [|x l IH]; cbn [existsb].
  - split; [by constructor | done].
  - rewrite orb_false_iff, Forall_cons, IH. done.
Qed.

Lemma eqb_empty_false (c : string) : String.eqb c "" = false <-> c <> "".
Proof. apply String.eqb_neq. Qed.

Lemma validate_loop_spec (commands : list string) (hasSSH : bool) :
  validate_loop hasSSH commands =
    if existsb (fun c => String.eqb c "") commands
    then inl "empty command in command list"
    else inr (hasSSH || existsb (fun c => Contains c "ssh") commands).
Proof.
  revert hasSSH. induction commands as [|c r IH]; intros hasSSH; cbn [validate_loop existsb].
  - by rewrite orb_false_r.
  - destruct (String.eqb c ""); [done|]. rewrite IH. cbn [orb].
    destruct (existsb _ r); [done|]. f_equal.
    destruct (Contains c "ssh"), hasSSH; done.
Qed.




(** X1: [ValidateCommands] accepts a list exactly when it is not empty, no
    command in it is empty and at least one command contains [ssh]; an empty
    list, an empty command and a list without [ssh] are rejected with their
    own messages, in that order of precedence. *)
Theorem ValidateCommands_accepts (commands : list string) :
  (ValidateCommands commands = None <->
     commands <> [] /\ Forall (fun c => c <> "") commands /\
     Exists (fun c => Contains c "ssh" = true) commands) /\
  (ValidateCommands commands = Some "no commands specified" <-> commands = []) /\
  (ValidateCommands commands = Some "empty command in command list" <->
     Exists (fun c => c = "") commands) /\
  (ValidateCommands commands = Some "at least one command must contain 'ssh'" <->
     commands <> [] /\ Forall (fun c => c <> "") commands /\
     Forall (fun c => Contains c "ssh" = false) commands).
Proof.
  unfold ValidateCommands. rewrite validate_loop_spec. cbn [orb].
  destruct commands as [|c0 r0].
  { cbn. repeat split; try done.
    - by intros (H & _).
    - by intros H; inversion H.
    - by intros (H & _). }
  remember (c0 :: r0) as commands eqn:E.
  assert (Hne : commands <> []) by (subst; done).
  destruct (Z.eqb_spec (Z.of_nat (length commands)) 0) as [Hl|_];
    [subst; cbn in Hl; lia|]. clear E c0 r0.
  destruct (existsb (fun c => String.eqb c "") commands) eqn:Hempty.
  - apply existsb_Exists in Hempty.
    assert (Hex : Exists (fun c => c = "") commands).
    { eapply Exists_impl; [exact Hempty|]. intros x Hx. by apply String.eqb_eq. }
    assert (Hnot : ~ Forall (fun c => c <> "") commands).
    { intros Hall. apply Exists_exists in Hex as (x & Hin & ->).
      by eapply Forall_forall in Hall. }
    repeat split; try done; try (intros (_ & H & _); done).
  - apply existsb_Forall in Hempty.
    assert (Hall : Forall (fun c => c <> "") commands).
    { eapply Forall_impl; [exact Hempty|]. intros x Hx. by apply String.eqb_neq. }
    assert (Hnot : ~ Exists (fun c => c = "") commands).
    { intros Hex. apply Exists_exists in Hex as (x & Hin & ->).
      by eapply Forall_forall in Hall. }
    destruct (existsb (fun c => Contains c "ssh") commands) eqn:Hssh; cbn [negb].
    + apply existsb_Exists in Hssh.
      repeat split; try done.
      intros (_ & _ & H). apply Exists_exists in Hssh as (x & Hin & Hx).
      eapply Forall_forall in H; [|done]. congruence.
    + apply existsb_Forall in Hssh.
      repeat split; try done.
      intros (_ & _ & H). apply Exists_exists in H as (x & Hin & Hx).
      eapply Forall_forall in Hssh; [|done]. congruence.
Qed.





(** X3: the general shape of a compiled chain.  When the first command that
    contains [ssh] is followed by remote commands, the command handed to
    the shell (and echoed) is the pre-steps, each followed by [&&], then
    the SSH command with [-tt] ensured, then one single-quoted word holding
    the remote commands separated by semicolons, the last one prefixed
    with [exec] when it contains [ssh], with every single quote escaped. *)
Theorem compile_embeds_remote_steps (pre : list string) (ssh : string)
    (init : list string) (last : string) :
  Forall (fun c => Contains c "ssh" = false) pre ->
  Contains ssh "ssh" = true ->
  ConnectWithCommands (pre ++ ssh :: init ++ [last]) =
    Run ["Executing: " +:+ compiled pre ssh init last +:+ String "010" ""]
        (Exec (compiled pre ssh init last)).
Proof.
  intros Hpre Hssh. rewrite (ConnectWithCommands_split _ _ _ Hpre Hssh).
  destruct (init ++ [last]) as [|r0 rest] eqn:E; [by destruct init|]. rewrite <- E.
  cbv zeta. unfold finalCommand, escapedScript, ReplaceAll, Replace, remoteScript.
  rewrite replace_scan_each by lia.
  rewrite (remoteScript_from_line init last 0) by (rewrite ?length_app; cbn [length]; lia).
  change (0 <? 0) with false. cbn iota. rewrite append_nil.
  unfold compiled. destruct pre as [|p0 pre]; [done|].
  by rewrite Join_foldr.
Qed.

Lemma compile_embeds_remote_steps_witness :
  ConnectWithCommands (["cd /tmp"] ++ "ssh a" :: ["echo 'x'"] ++ ["ssh b"]) =
    Run ["Executing: " +:+ compiled ["cd /tmp"] "ssh a" ["echo 'x'"] "ssh b"
           +:+ String "010" ""]
        (Exec (compiled ["cd /tmp"] "ssh a" ["echo 'x'"] "ssh b")).
Proof.
  apply (compile_embeds_remote_steps ["cd /tmp"] "ssh a" ["echo 'x'"] "ssh b").
  - repeat constructor.
  - reflexivity.
Defined.

(** X4: terminal allocation.  An SSH command that reads [ssh ] and carries
    neither [ -tt] nor [ -t ] is compiled with [ssh -tt ]; a command that
    already carries one of the flags, or in which [ssh] is not followed by
    a space, is left as it is.  The command so obtained is the one in the
    compiled chain: when remote commands follow the first command that
    contains [ssh], [ConnectWithCommands] hands to the shell the
    pre-steps, then this command, then the quoted remote script. *)
Theorem sshCommand_requests_terminal (firstSSH : string) :
  (Contains firstSSH " -tt" = false -> Contains firstSSH " -t " = false ->
   Contains firstSSH "ssh " = true ->
   Contains (sshCommand firstSSH) "ssh -tt " = true) /\
  (Contains firstSSH " -tt" = true \/ Contains firstSSH " -t " = true \/
   Contains firstSSH "ssh " = false ->
   sshCommand firstSSH = firstSSH) /\
  (forall (pre : list string) (r0 : string) (rest : list string),
     Forall (fun c => Contains c "ssh" = false) pre ->
     Contains firstSSH "ssh" = true ->
     ending (ConnectWithCommands (pre ++ firstSSH :: r0 :: rest))
     = Exec (preSteps pre +:+ sshCommand firstSSH
             +:+ " '" +:+ escapedScript (remoteScript (r0 :: rest)) +:+ "'")).
Proof.
  split; [|split].
  - unfold sshCommand, Replace.
    intros -> -> H. cbn [negb andb]. by apply replace_scan_tt.
  - unfold sshCommand, Replace.
    intros [-> | [-> | H]]; [done | by rewrite andb_false_r |].
    destruct (negb _ && negb _); [|done]. by apply replace_scan_absent.
  - intros pre r0 rest Hpre Hssh.
    rewrite (ConnectWithCommands_split _ _ _ Hpre Hssh). cbv zeta. cbn [ending].
    unfold finalCommand, preSteps. destruct pre as [|p0 pre]; [reflexivity|].
    by rewrite (string_append_assoc (Join (p0 :: pre) " && ") " && ").
Qed.

Lemma Connect_as_exec (child : option string) (out : list string) (command : string) :
  sub_stdout (connected out (Connect child command)) = out /\
  sub_command (connected out (Connect child command))
  = shell_command (ConnectWithExec command) /\
  sub_error (connected out (Connect child command)) =
    match ConnectWithExec command with
    | Error msg => Some msg
    | Exec _ => (fun err => "error executing SSH command: " +:+ err) <$> child
    end.
Proof.
  unfold Connect, ConnectWithExec, connected.
  destruct (String.eqb command ""); [done|]. by destruct child.
Qed.

(** X5: the subprocess variant compiles like the exec variant.  For every
    list, [ConnectWithCommandsSubprocess] echoes the same line and runs, as
    a child of the shell, the very command that [ConnectWithCommands]
    hands to the shell; where the exec variant fails before the shell, the
    subprocess variant fails with the same error, and otherwise its error
    is the error of the child, wrapped. *)
Theorem subprocess_compiles_alike (child : option string) (commands : list string) :
  let sub := ConnectWithCommandsSubprocess child commands in
  let run := ConnectWithCommands commands in
  sub_stdout sub = stdout run /\
  sub_command sub = shell_command (ending run) /\
  sub_error sub =
    match ending run with
    | Error msg => Some msg
    | Exec _ => (fun err => "error executing SSH command: " +:+ err) <$> child
    end.
Proof.
  cbv zeta. unfold ConnectWithCommandsSubprocess, ConnectWithCommands.
  destruct (Z.of_nat (length commands) =? 0); [done|].
  destruct (Z.of_nat (length commands) =? 1); [apply Connect_as_exec|].
  destruct (firstSSHIndex commands =? -1); [apply Connect_as_exec|].
  destruct (firstSSHIndex commands =? Z.of_nat (length commands) - 1);
    [apply Connect_as_exec|].
  cbn [stdout ending]. apply Connect_as_exec.
Qed.

End Launch.

(** ** The choice of the engine: [main] of [main.go], from the commands of
    the selected host on. *)
Module Dispatch.
Import GoStrings Compiler Directives Launch.

(** The loop of [main] that looks for a directive prefix. *)
Fixpoint hasInteractive (commands : list string) : bool :=
  match commands with
  | [] => false
  | cmd :: rest =>
      if HasPrefix cmd "SEND:" || HasPrefix cmd "SENDPASS:"
         || HasPrefix cmd "WAIT:" || HasPrefix cmd "EXPECT:"
         || String.eqb cmd "INTERACT" || String.eqb cmd "INTERACTIVE"
      then true
      else hasInteractive rest
  end.

(** What [main] does with the commands of the selected host: it exits with
    status 1 after a message on standard error, or it calls one of the
    engines (the second of each pair when the first returns an error). *)
Inductive route :=
| Exit (stderr : string)
| ViaConnectInteractive
| ViaConnectWithExec_or_Connect
| ViaConnectWithCommands_or_Subprocess.

(** The validation of [main]: [ValidateCommand] for one command,
    [ValidateCommands] for more; the message of a rejection. *)
Definition validate (commands : list string) : option string :=
  if Z.of_nat (length commands) =? 1 then
    match ValidateCommand (nth 0 commands "") with
    | Some err => Some ("Invalid command: " +:+ err +:+ String "010" "")
    | None => None
    end
  else
    match ValidateCommands commands with
    | Some err => Some ("Invalid commands: " +:+ err +:+ String "010" "")
    | None => None
    end.

(** [main], from [commands := selectedHost.GetCommands()] on; [name] is
    [selectedHost.Name]. *)
Definition dispatch (name : string) (commands : list string) : route :=
  if Z.of_nat (length commands) =? 0
  then Exit ("No command configured for host: " +:+ name +:+ String "010" "")
  else
    match validate commands with
    | Some msg => Exit msg
    | None =>
        if hasInteractive commands then ViaConnectInteractive
        else if Z.of_nat (length commands) =? 1 then ViaConnectWithExec_or_Connect
        else ViaConnectWithCommands_or_Subprocess
    end.

(** A command that the directive parser does not take for a command to
    run, or that starts with [EXPECT:]. *)
Definition is_directive (cmd : string) : bool :=
  negb (Interactive.is_kind CommandTypeExec (parseOne cmd)) || HasPrefix cmd "EXPECT:".

(** *** Facts. *)

Lemma is_directive_prefixes (cmd : string) :
  is_directive cmd =
    (HasPrefix cmd "SEND:" || HasPrefix cmd "SENDPASS:"
     || HasPrefix cmd "WAIT:" || HasPrefix cmd "EXPECT:"
     || String.eqb cmd "INTERACT" || String.eqb cmd "INTERACTIVE").
Proof.
  unfold is_directive, parseOne, Interactive.is_kind.
  destruct (HasPrefix cmd "SEND:"); [done|].
  destruct (HasPrefix cmd "SENDPASS:"); [done|].
  destruct (HasPrefix cmd "WAIT:"); [done|].
  destruct (String.eqb cmd "INTERACT"); [cbn; by rewrite orb_true_r|].
  destruct (String.eqb cmd "INTERACTIVE"); [cbn; by rewrite orb_true_r|].
  cbn. by rewrite !orb_false_r.
Qed.

Lemma hasInteractive_existsb (commands : list string) :
  hasInteractive commands = existsb is_directive commands.
Proof.
  induction commands as [|cmd rest IH]; [done|].
  cbn [hasInteractive existsb]. rewrite is_directive_prefixes, IH.
  by destruct (_ || _).
Qed.

Lemma validate_accepts (commands : list string) :
  validate commands = None <-> ValidateCommands commands = None.
Proof.
  unfold validate.
  destruct (Z.eqb_spec (Z.of_nat (length commands)) 1) as [Hlen|_].
  - destruct commands as [|c [|c' r]]; cbn [length] in Hlen; try lia.
    cbn [nth]. unfold ValidateCommand, ValidateCommands. cbn [length validate_loop].
    change (Z.of_nat 1 =? 0) with false. cbn iota.
    destruct (String.eqb c ""); [done|]. by destruct (Contains c "ssh").
  - by destruct (ValidateCommands commands).
Qed.

Lemma plain_command_parses (cmd : string) :
  is_directive cmd = false -> parseOne cmd = Parsed CommandTypeExec cmd.
Proof.
  rewrite is_directive_prefixes. unfold parseOne.
  destruct (HasPrefix cmd "SEND:"); [done|].
  destruct (HasPrefix cmd "SENDPASS:"); [done|].
  destruct (HasPrefix cmd "WAIT:"); [done|].
  destruct (HasPrefix cmd "EXPECT:"); [done|].
  destruct (String.eqb cmd "INTERACT"); [done|].
  by destruct (String.eqb cmd "INTERACTIVE").
Qed.

Lemma plain_commands_parse (commands : list string) :
  existsb is_directive commands = false ->
  ParseCommands commands = Parsed CommandTypeExec <$> commands.
Proof.
  intros H. rewrite ParseCommands_map. apply existsb_Forall in H.
  induction H as [|c r Hc _ IH]; [done|]. cbn [map fmap list_fmap].
  rewrite (plain_command_parses _ Hc). f_equal. exact IH.
Qed.

(** X6: how [main] chooses the engine.  It exits with a message exactly
    when the commands do not pass [ValidateCommands] (one command is
    checked by [ValidateCommand], with the same result).  Accepted commands
    go to the interactive engine exactly when one of them is a directive
    for the parser ([SEND:], [SENDPASS:], [WAIT:], [INTERACT],
    [INTERACTIVE]) or starts with [EXPECT:]; otherwise every command is a
    plain [Exec] command for the parser, and one command goes to
    [ConnectWithExec], two or more go to [ConnectWithCommands]. *)
Theorem dispatch_routes (name : string) (commands : list string) :
  match dispatch name commands with
  | Exit _ => ValidateCommands commands <> None
  | ViaConnectInteractive =>
      ValidateCommands commands = None /\
      Exists (fun c => is_directive c = true) commands
  | ViaConnectWithExec_or_Connect =>
      ValidateCommands commands = None /\
      Forall (fun c => is_directive c = false) commands /\
      exists command, commands = [command] /\
        ParseCommands commands = [Parsed CommandTypeExec command]
  | ViaConnectWithCommands_or_Subprocess =>
      ValidateCommands commands = None /\
      Forall (fun c => is_directive c = false) commands /\
      (2 <= length commands)%nat /\
      ParseCommands commands = Parsed CommandTypeExec <$> commands
  end.
Proof.
  unfold dispatch.
  destruct (Z.eqb_spec (Z.of_nat (length commands)) 0) as [Hlen|Hlen].
  { by destruct commands. }
  destruct (validate commands) as [msg|] eqn:Hv.
  { intros H. apply validate_accepts in H. congruence. }
  apply validate_accepts in Hv. rewrite hasInteractive_existsb.
  destruct (existsb is_directive commands) eqn:Hd.
  { split; [done|]. by apply existsb_Exists. }
  pose proof (plain_commands_parse _ Hd) as Hparse.
  pose proof (proj1 (existsb_Forall _ _) Hd) as Hall.
  destruct (Z.eqb_spec (Z.of_nat (length commands)) 1) as [H1|H1].
  - destruct commands as [|c [|c' r]]; cbn [length] in H1; try lia.
    split; [done|]. split; [done|]. by exists c.
  - split; [done|]. split; [done|]. split; [lia | done].
Qed.

End Dispatch.

(** ** The automation task of the interactive engine, and the start of a
    session: more facts about [ConnectInteractive] of [ssh/ssh.go]. *)
Module Engine.
Import GoStrings Directives Store Interactive Launch.

(** A directive the automation task can carry out: every directive but a
    [SendPass] whose password the store does not give. *)
Definition resolves (passwordStore : option PasswordStore) (pc : ParsedCommand) : bool :=
  match Kind pc with
  | CommandTypeSendPass =>
      match passwordStore with
      | None => false
      | Some ps => match Get ps (Value pc) with inl _ => false | inr _ => true end
      end
  | _ => true
  end.

Definition is_WriteStderr (a : action) : bool :=
  match a with WriteStderr _ => true | _ => false end.


(** The message of the automation task for a [SendPass] directive when no
    store was loaded. *)
Definition not_loaded : action :=
  WriteStderr ("Error: password store not loaded" +:+ newline).

(** The scripts of the sessions among the effects of a call. *)
Definition sessions (r : outcome) : list (list action) :=
  omap (fun e => match e with Session script => Some script | _ => None end) (effects r).

(** *** Facts. *)

(** X7: [INTERACT] ends the automation.  Whatever follows an [Interact]
    directive in the list is never carried out: the automation task does
    the same with and without it. *)
Theorem interact_ends_automation (passwordStore : option PasswordStore)
    (pre : list ParsedCommand) (value : string) (rest : list ParsedCommand) :
  automation_loop passwordStore (pre ++ Parsed CommandTypeInteract value :: rest)
  = automation_loop passwordStore pre.
Proof.
  induction pre as [|pc pre IH]; [done|].
  cbn [app automation_loop]. rewrite IH. done.
Qed.

Lemma automation_loop_resolved (passwordStore : option PasswordStore)
    (script : list ParsedCommand) :
  forallb (resolves passwordStore) script = true ->
  last (automation_loop passwordStore script) = Some CopyStdinToPty /\
  existsb is_WriteStderr (automation_loop passwordStore script) = false.
Proof.
  induction script as [|pc script IH]; [done|].
  cbn [forallb]. intros [Hpc Hrest]%andb_true_iff. specialize (IH Hrest).
  assert (Hcons : forall a l, last l = Some CopyStdinToPty -> last (a :: l) = Some CopyStdinToPty).
  { intros a [|b l] H; [done|]. exact H. }
  cbn [automation_loop]. unfold resolves in Hpc.
  destruct (Kind pc).
  - cbn [existsb is_WriteStderr orb]. split; [|apply IH]. do 2 apply Hcons. apply IH.
  - cbn [existsb is_WriteStderr orb]. split; [|apply IH]. do 2 apply Hcons. apply IH.
  - destruct passwordStore as [ps|]; [|done].
    destruct (Get ps (Value pc)); [done|].
    cbn [existsb is_WriteStderr orb]. split; [|apply IH]. do 2 apply Hcons. apply IH.
  - destruct (waitSleep (Value pc)); [|apply IH].
    cbn [existsb is_WriteStderr orb]. split; [|apply IH]. apply Hcons. apply IH.
  - done.
Qed.


Lemma automation_loop_loaded (ps : PasswordStore) (script : list ParsedCommand) :
  not_loaded ∉ automation_loop (Some ps) script.
Proof.
  induction script as [|pc script IH]; cbn [automation_loop].
  - by intros ?%list_elem_of_singleton.
  - destruct (Kind pc).
    + by intros [?|[?|?]%elem_of_cons]%elem_of_cons.
    + by intros [?|[?|?]%elem_of_cons]%elem_of_cons.
    + destruct (Get ps (Value pc)).
      * by intros ?%list_elem_of_singleton.
      * by intros [?|[?|?]%elem_of_cons]%elem_of_cons.
    + destruct (waitSleep (Value pc)); [|done].
      by intros [?|?]%elem_of_cons.
    + by intros ?%list_elem_of_singleton.
Qed.

Lemma automation_loop_no_sendpass (script : list ParsedCommand) :
  existsb (is_kind CommandTypeSendPass) script = false ->
  not_loaded ∉ automation_loop None script.
Proof.
  intros H.
  assert (Hres : forallb (resolves None) script = true).
  { induction script as [|pc script IH]; [done|]. cbn [existsb] in H.
    apply orb_false_iff in H as [Hpc H]. cbn [forallb]. rewrite (IH H), andb_true_r.
    unfold resolves. unfold is_kind in Hpc. by destruct (Kind pc). }
  destruct (automation_loop_resolved None script Hres) as [_ Hno].
  apply existsb_Forall in Hno. intros Hin.
  by apply (proj1 (Forall_forall _ _) Hno) in Hin.
Qed.

Lemma existsb_drop {A} (f : A -> bool) (n : nat) (l : list A) :
  existsb f l = false -> existsb f (drop n l) = false.
Proof.
  rewrite !existsb_Forall. apply Forall_drop.
Qed.

Section WithLib.
Context `{L : Lib}.

Lemma unlock_store_None (env : Env) (parsed : list ParsedCommand) (did : list effect) :
  unlock_store env parsed = (did, inr None) ->
  existsb (is_kind CommandTypeSendPass) parsed = false.
Proof.
  unfold unlock_store. destruct (existsb _ parsed); [|done].
  destruct (negb _); [done|]. destruct (prompt_reply env); [done|].
  by destruct (Load _ _ _) as [? [?|]].
Qed.

Lemma unlock_store_no_session (env : Env) (parsed : list ParsedCommand) :
  omap (fun e => match e with Session script => Some script | _ => None end)
       (unlock_store env parsed).1 = [].
Proof.
  unfold unlock_store. destruct (existsb _ parsed); [|done].
  destruct (negb _); [done|]. destruct (prompt_reply env); [done|].
  by destruct (Load _ _ _) as [? [?|]].
Qed.

(** X9: a session never meets an unloaded store.  The message
    [Error: password store not loaded] of the automation task is never
    written in a session that [ConnectInteractive] starts: a list with a
    [SendPass] directive gets no session unless the store was loaded. *)
Theorem session_has_store_loaded (env : Env) (commands : list string) :
  Forall (fun script => not_loaded ∉ script) (sessions (ConnectInteractive env commands)).
Proof.
  unfold sessions, ConnectInteractive.
  destruct (length commands =? 0)%nat; [by constructor|]. cbv zeta.
  destruct (length (ParseCommands commands) =? 0)%nat; [by constructor|].
  pose proof (unlock_store_no_session env (ParseCommands commands)) as Hdid.
  pose proof (unlock_store_None env (ParseCommands commands)) as Hnone.
  destruct (unlock_store env (ParseCommands commands)) as [did [e|passwordStore]];
    cbn [fst] in Hdid.
  { cbn [effects]. rewrite Hdid. by constructor. }
  destruct (firstExec_from 0 (ParseCommands commands)) as [execCmd startIdx].
  destruct (String.eqb execCmd ""). { cbn [effects]. rewrite Hdid. by constructor. }
  destruct (pty_Start_error env). { cbn [effects]. rewrite Hdid. by constructor. }
  destruct (MakeRaw_error env); cbn [effects]; rewrite omap_app, Hdid; cbn.
  { by constructor. }
  constructor; [|by constructor]. unfold automation.
  intros [H|H]%elem_of_cons; [done|]. revert H.
  destruct passwordStore as [ps|]; [apply automation_loop_loaded|].
  apply automation_loop_no_sendpass, existsb_drop. by eapply Hnone.
Qed.



End WithLib.


End Engine.

(** ** What the output filter passes and what it drops: more facts about
    [TerminalFilter.Read] of [ssh/ssh.go]. *)
Module FilterFacts.
Import Filter.

(** The parts of a stream the filter handles as a whole: a byte, a control
    sequence [ESC [ params t] and a fragment [; digits t] of a reply that
    lost its introducer. *)
Inductive token :=
| Plain (b : byte)
| Sequence (params : list byte) (t : byte)
| Fragment (digits : list byte) (t : byte).

Definition bytes_of (tok : token) : list byte :=
  match tok with
  | Plain b => [b]
  | Sequence params t => ESC :: "["%byte :: params ++ [t]
  | Fragment digits t => ";"%byte :: digits ++ [t]
  end.

(** What is displayed of a token: a byte and a display sequence as they
    are, nothing of a reply ([R], [c], [n]) and of a fragment. *)
Definition kept_of (tok : token) : list byte :=
  match tok with
  | Plain b => [b]
  | Sequence params t => if is_reply (Byte.to_N t) then [] else bytes_of tok
  | Fragment _ _ => []
  end.

(** The longest run of digits at the head of a stream, and what follows. *)
Fixpoint digit_run (l : list byte) : list byte * list byte :=
  match l with
  | [] => ([], [])
  | b :: r =>
      if is_digit (Byte.to_N b)
      then let '(ds, r') := digit_run r in (b :: ds, r')
      else ([], l)
  end.

(** A stream that goes on with digits and then [R] or [c]. *)
Definition fragment_ahead (rest : list byte) : bool :=
  let '(ds, r) := digit_run rest in
  negb (length ds =? 0)%nat
  && match r with
     | [] => false
     | t :: _ => (Byte.to_N t =? 82)%N || (Byte.to_N t =? 99)%N
     end.

(** A byte that stands for itself before [rest]: not an [ESC] before [[],
    and not a semicolon that starts a fragment. *)
Definition plain_ok (b : byte) (rest : list byte) : bool :=
  negb ((Byte.to_N b =? 27)%N
        && match rest with [] => false | n :: _ => (Byte.to_N n =? 91)%N end)
  && negb ((Byte.to_N b =? 59)%N && fragment_ahead rest).

(** A stream of whole tokens. *)
Fixpoint stream_ok (toks : list token) : bool :=
  match toks with
  | [] => true
  | tok :: rest =>
      match tok with
      | Plain b => plain_ok b (rest ≫= bytes_of)
      | Sequence params t =>
          forallb (fun b => is_param (Byte.to_N b)) params && is_final (Byte.to_N t)
      | Fragment digits t =>
          negb (length digits =? 0)%nat
          && forallb (fun b => is_digit (Byte.to_N b)) digits
          && ((Byte.to_N t =? 82)%N || (Byte.to_N t =? 99)%N)
      end
      && stream_ok rest
  end.

(** *** Facts. *)

Lemma scan_while_ge (P : N -> bool) (buf : list byte) (j fuel : nat) :
  (j <= scan_while P buf j fuel)%nat.
Proof.
  revert j. induction fuel as [|fuel IH]; intros j; cbn [scan_while]; [lia|].
  destruct (_ && _); [|lia]. specialize (IH (S j)). lia.
Qed.

Lemma scan_while_le (P : N -> bool) (buf : list byte) (j fuel : nat) :
  (j <= length buf -> scan_while P buf j fuel <= length buf)%nat.
Proof.
  revert j. induction fuel as [|fuel IH]; intros j Hj; cbn [scan_while]; [lia|].
  destruct (Nat.ltb_spec j (length buf)); cbn [andb]; [|lia].
  destruct (P _); [|lia]. apply IH. lia.
Qed.

(** One turn of the loop only deletes: what it has kept so far is what is
    left of the bytes it has passed, in their order. *)
Lemma filter_turn_sublist (buf : list byte) (i : nat) (filtered : list byte) :
  (i < length buf)%nat ->
  filtered `sublist_of` take i buf ->
  match filter_turn buf i filtered with
  | Continue i' filtered' =>
      (i < i' <= length buf)%nat /\ filtered' `sublist_of` take i' buf
  | Break _ => True
  end.
Proof.
  intros Hi Hsub.
  assert (Hext : forall k, (i <= k)%nat -> filtered `sublist_of` take k buf).
  { intros k Hk. replace k with (i + (k - i))%nat by lia. rewrite <- take_take_drop.
    by apply sublist_inserts_r. }
  assert (Hkeep : forall j, (i <= j < length buf)%nat ->
            filtered ++ slice buf i j `sublist_of` take (S j) buf).
  { intros j Hj. unfold slice. replace (S j) with (i + (S j - i))%nat at 2 by lia.
    rewrite <- take_take_drop. by apply sublist_app. }
  assert (Hfrag : match fragment_or_keep buf i filtered with
                  | Continue i' filtered' =>
                      (i < i' <= length buf)%nat /\ filtered' `sublist_of` take i' buf
                  | Break _ => True
                  end).
  { unfold fragment_or_keep. cbv zeta.
    pose proof (scan_while_ge is_digit buf (i + 1) (length buf)) as Hge.
    destruct (_ && _ && _ && (scan_while is_digit buf (i + 1) (length buf) <? length buf)%nat
              && _) eqn:E.
    - apply andb_true_iff in E as [E _]. apply andb_true_iff in E as [_ E].
      apply Nat.ltb_lt in E. split; [lia|]. apply Hext. lia.
    - split; [lia|]. replace (i + 1)%nat with (S i) by lia.
      specialize (Hkeep i). unfold slice in Hkeep.
      replace (S i - i)%nat with 1%nat in Hkeep by lia.
      destruct (drop i buf) as [|b r] eqn:Hd.
      { apply (f_equal length) in Hd. rewrite length_drop in Hd. cbn in Hd. lia. }
      assert (nth i buf x00 = b) as ->.
      { rewrite <- (take_drop i buf) at 1. rewrite Hd, app_nth2 by (rewrite length_take; lia).
        rewrite length_take. replace (i - i `min` length buf)%nat with 0%nat by lia. done. }
      apply Hkeep. lia. }
  unfold filter_turn. destruct (_ && _ && _); [|exact Hfrag]. cbv zeta.
  pose proof (scan_while_ge is_param buf (i + 2) (length buf)) as Hge.
  destruct (Nat.ltb_spec (scan_while is_param buf (i + 2) (length buf)) (length buf))
    as [Hj|Hj]; cbn [andb].
  - destruct (is_reply _).
    + split; [lia|]. apply Hext. lia.
    + destruct (is_final _).
      * split; [lia|]. replace (scan_while is_param buf (i + 2) (length buf) + 1)%nat
          with (S (scan_while is_param buf (i + 2) (length buf))) by lia.
        apply Hkeep. lia.
      * destruct (Nat.leb_spec (length buf) (scan_while is_param buf (i + 2) (length buf)));
          [done | exact Hfrag].
  - destruct (Nat.leb_spec (length buf) (scan_while is_param buf (i + 2) (length buf)));
      [done | exact Hfrag].
Qed.

Lemma filter_loop_sublist (fuel : nat) (buf : list byte) (i : nat) (filtered : list byte) :
  (i <= length buf)%nat ->
  filtered `sublist_of` take i buf ->
  (filter_loop fuel buf i filtered).2 `sublist_of` buf.
Proof.
  revert i filtered. induction fuel as [|fuel IH]; intros i filtered Hi Hsub.
  - cbn. etrans; [exact Hsub|]. apply sublist_take.
  - rewrite filter_loop_S. destruct (Nat.ltb_spec i (length buf)) as [Hlt|Hge]; cbn [negb].
    2: { cbn. etrans; [exact Hsub|]. apply sublist_take. }
    pose proof (filter_turn_sublist buf i filtered Hlt Hsub) as Hturn.
    destruct (filter_turn buf i filtered) as [i' filtered'|buffer'].
    + destruct Hturn as [Hi' Hsub']. apply IH; [lia | done].
    + cbn. etrans; [exact Hsub|]. apply sublist_take.
Qed.

Lemma nth_app_here (pre : list byte) (b : byte) (rest : list byte) :
  nth (length pre) (pre ++ b :: rest) x00 = b.
Proof. rewrite app_nth2; [by rewrite Nat.sub_diag | lia]. Qed.

Lemma at_app_next (pre : list byte) (b n : byte) (rest : list byte) :
  at_ (pre ++ b :: n :: rest) (length pre + 1) = Byte.to_N n.
Proof.
  replace (pre ++ b :: n :: rest) with ((pre ++ [b]) ++ n :: rest)
    by (by rewrite <- app_assoc).
  replace (length pre + 1)%nat with (length (pre ++ [b]))
    by (rewrite length_app; reflexivity).
  apply at_app.
Qed.

Lemma digit_run_spec (l : list byte) :
  l = (digit_run l).1 ++ (digit_run l).2 /\
  Forall (fun b => is_digit (Byte.to_N b) = true) (digit_run l).1 /\
  match (digit_run l).2 with
  | [] => True
  | t :: _ => is_digit (Byte.to_N t) = false
  end.
Proof.
  induction l as [|b r IH]; [by repeat split|]. cbn [digit_run].
  destruct (is_digit (Byte.to_N b)) eqn:Hb.
  - destruct (digit_run r) as [ds r']. cbn [fst snd] in *.
    destruct IH as (-> & Hds & Hr). repeat split; [by constructor | done].
  - cbn [fst snd]. by repeat split.
Qed.

Lemma is_final_not_param (t : N) : is_final t = true -> is_param t = false.
Proof.
  unfold is_final, is_param. intros [H1 H2]%andb_true_iff.
  apply N.leb_le in H1. apply N.leb_le in H2.
  repeat match goal with
         | |- context [(?a <=? ?b)%N] => destruct (N.leb_spec a b)
         | |- context [(?a =? ?b)%N] => destruct (N.eqb_spec a b)
         end; try reflexivity; lia.
Qed.

(** A turn at a byte that stands for itself keeps it. *)
Lemma filter_turn_plain (pre : list byte) (b : byte) (rest filtered : list byte) :
  plain_ok b rest = true ->
  filter_turn (pre ++ b :: rest) (length pre) filtered
  = Continue (length pre + 1) (filtered ++ [b]).
Proof.
  unfold plain_ok. intros [Hesc Hsemi]%andb_true_iff.
  apply negb_true_iff in Hesc. apply negb_true_iff in Hsemi.
  assert (Hkeep : fragment_or_keep (pre ++ b :: rest) (length pre) filtered
                  = Continue (length pre + 1) (filtered ++ [b])).
  { unfold fragment_or_keep. cbv zeta. rewrite at_app, nth_app_here.
    destruct (Byte.to_N b =? 59)%N; [|done]. cbn [andb] in Hsemi |- *.
    unfold fragment_ahead in Hsemi.
    destruct (digit_run_spec rest) as (Hrest & Hds & Hr).
    destruct (digit_run rest) as [ds r]. cbn [fst snd] in *. subst rest.
    pose proof (scan_while_run is_digit ds r (pre ++ [b])
                  (length (pre ++ b :: ds ++ r)) Hds Hr) as Hscan.
    rewrite <- app_assoc in Hscan. cbn [app] in Hscan.
    rewrite (length_app pre [b]) in Hscan. cbn [length] in Hscan.
    rewrite Hscan by (rewrite !length_app; cbn [length]; rewrite length_app; lia).
    rewrite !length_app. cbn [length]. rewrite !length_app.
    destruct (Nat.eqb_spec (length ds) 0) as [E|E].
    { destruct (Nat.ltb_spec (length pre + 1) (length pre + 1 + length ds)); [lia|].
      by rewrite andb_false_r. }
    cbn [negb andb] in Hsemi.
    destruct r as [|t r].
    { cbn [length].
      destruct (Nat.ltb_spec (length pre + 1 + length ds)
                  (length pre + S (length ds + 0))); [lia|].
      by rewrite andb_false_r. }
    assert (at_ (pre ++ b :: ds ++ t :: r) (length pre + 1 + length ds)
            = Byte.to_N t) as ->.
    { replace (pre ++ b :: ds ++ t :: r) with ((pre ++ b :: ds) ++ t :: r)
        by (rewrite <- app_assoc; reflexivity).
      replace (length pre + 1 + length ds)%nat with (length (pre ++ b :: ds))
        by (rewrite length_app; cbn [length]; lia).
      apply at_app. }
    rewrite Hsemi. by rewrite andb_false_r. }
  unfold filter_turn. rewrite at_app.
  destruct (Byte.to_N b =? 27)%N; [|by rewrite andb_false_r].
  cbn [andb] in Hesc. destruct rest as [|n rest].
  - rewrite length_app. cbn [length].
    by destruct (Nat.ltb_spec (length pre + 1) (length pre + 1)); [lia|].
  - rewrite at_app_next, Hesc. by rewrite andb_false_r.
Qed.

(** A turn at a whole control sequence drops a reply and keeps any other
    sequence, whatever follows it. *)
Lemma filter_turn_sequence (pre params : list byte) (t : byte) (rest filtered : list byte) :
  Forall (fun b => is_param (Byte.to_N b) = true) params ->
  is_final (Byte.to_N t) = true ->
  filter_turn (pre ++ (ESC :: "["%byte :: params ++ [t]) ++ rest) (length pre) filtered
  = Continue (length pre + length (ESC :: "["%byte :: params ++ [t]))
             (filtered ++ if is_reply (Byte.to_N t) then []
                          else ESC :: "["%byte :: params ++ [t]).
Proof.
  intros Hparams Ht. unfold filter_turn.
  set (buf := pre ++ (ESC :: "["%byte :: params ++ [t]) ++ rest).
  assert (Hbuf : buf = (pre ++ [ESC; "["%byte]) ++ params ++ t :: rest).
  { unfold buf. rewrite <- !app_assoc. cbn [app]. by rewrite <- app_assoc. }
  assert (Hlen : length buf = (length pre + 2 + length params + 1 + length rest)%nat).
  { rewrite Hbuf, !length_app. cbn [length]. lia. }
  assert (H0 : at_ buf (length pre) = 27%N).
  { unfold buf. cbn [app]. by rewrite at_app. }
  assert (H1 : at_ buf (length pre + 1) = 91%N).
  { unfold buf. cbn [app]. by rewrite at_app_next. }
  pose proof (scan_while_run is_param params (t :: rest) (pre ++ [ESC; "["%byte])
                (length buf) Hparams (is_final_not_param _ Ht)) as Hscan.
  rewrite <- Hbuf in Hscan. rewrite length_app in Hscan. cbn [length] in Hscan.
  rewrite H0, H1. cbn [N.eqb Pos.eqb andb]. rewrite andb_true_r.
  destruct (Nat.ltb_spec (length pre + 1) (length buf)) as [_|E]; [|lia].
  cbv zeta. rewrite Hscan by lia.
  destruct (Nat.ltb_spec (length pre + 2 + length params) (length buf)) as [_|E]; [|lia].
  cbn [andb].
  assert (Ht' : at_ buf (length pre + 2 + length params) = Byte.to_N t).
  { rewrite Hbuf. rewrite app_assoc.
    replace (length pre + 2 + length params)%nat
      with (length ((pre ++ [ESC; "["%byte]) ++ params))
      by (rewrite !length_app; cbn [length]; lia).
    apply at_app. }
  rewrite Ht'. cbn [length]. rewrite length_app. cbn [length].
  destruct (is_reply (Byte.to_N t)).
  - rewrite app_nil_r. f_equal. lia.
  - rewrite Ht. f_equal; [lia|]. f_equal. unfold slice.
    replace (S (length pre + 2 + length params) - length pre)%nat
      with (length (ESC :: "["%byte :: params ++ [t]))
      by (cbn [length]; rewrite length_app; cbn [length]; lia).
    unfold buf. rewrite drop_app_length. by rewrite take_app_length.
Qed.

(** A turn at a fragment [; digits t] drops it. *)
Lemma filter_turn_fragment (pre digits : list byte) (t : byte) (rest filtered : list byte) :
  digits <> [] ->
  Forall (fun b => is_digit (Byte.to_N b) = true) digits ->
  ((Byte.to_N t =? 82)%N || (Byte.to_N t =? 99)%N) = true ->
  filter_turn (pre ++ (";"%byte :: digits ++ [t]) ++ rest) (length pre) filtered
  = Continue (length pre + length (";"%byte :: digits ++ [t])) filtered.
Proof.
  intros Hne Hdigits Ht.
  set (buf := pre ++ (";"%byte :: digits ++ [t]) ++ rest).
  assert (Hbuf : buf = (pre ++ [";"%byte]) ++ digits ++ t :: rest).
  { unfold buf. rewrite <- !app_assoc. cbn [app]. by rewrite <- app_assoc. }
  assert (Hlen : length buf = (length pre + 1 + length digits + 1 + length rest)%nat).
  { rewrite Hbuf, !length_app. cbn [length]. lia. }
  assert (H0 : at_ buf (length pre) = 59%N).
  { unfold buf. cbn [app]. by rewrite at_app. }
  assert (Htd : is_digit (Byte.to_N t) = false).
  { unfold is_digit. apply orb_true_iff in Ht as [E|E]; apply N.eqb_eq in E; by rewrite E. }
  pose proof (scan_while_run is_digit digits (t :: rest) (pre ++ [";"%byte])
                (length buf) Hdigits Htd) as Hscan.
  rewrite <- Hbuf in Hscan. rewrite length_app in Hscan. cbn [length] in Hscan.
  unfold filter_turn. rewrite H0. cbn [N.eqb Pos.eqb andb]. rewrite andb_false_r.
  unfold fragment_or_keep. cbv zeta. rewrite H0, Hscan by lia.
  cbn [N.eqb Pos.eqb andb].
  assert (0 < length digits)%nat by (destruct digits; [done | cbn; lia]).
  destruct (Nat.ltb_spec (length pre + 1) (length buf)) as [_|E]; [|lia].
  destruct (Nat.ltb_spec (length pre + 1) (length pre + 1 + length digits)) as [_|E]; [|lia].
  destruct (Nat.ltb_spec (length pre + 1 + length digits) (length buf)) as [_|E]; [|lia].
  assert (Ht' : at_ buf (length pre + 1 + length digits) = Byte.to_N t).
  { rewrite Hbuf. rewrite app_assoc.
    replace (length pre + 1 + length digits)%nat
      with (length ((pre ++ [";"%byte]) ++ digits))
      by (rewrite !length_app; cbn [length]; lia).
    apply at_app. }
  rewrite Ht', Ht. cbn [andb]. f_equal. cbn [length]. rewrite length_app. cbn [length]. lia.
Qed.

Lemma filter_turn_token (pre : list byte) (tok : token) (rest : list token)
    (filtered : list byte) :
  stream_ok (tok :: rest) = true ->
  filter_turn (pre ++ bytes_of tok ++ (rest ≫= bytes_of)) (length pre) filtered
  = Continue (length pre + length (bytes_of tok)) (filtered ++ kept_of tok).
Proof.
  cbn [stream_ok]. intros [Htok _]%andb_true_iff. destruct tok as [b|params t|digits t].
  - by apply filter_turn_plain.
  - apply andb_true_iff in Htok as [Hp Ht].
    cbn [kept_of bytes_of]. apply filter_turn_sequence; [|done].
    apply Forall_forall. intros b Hb. rewrite forallb_forall in Hp.
    by apply Hp, list_elem_of_In.
  - apply andb_true_iff in Htok as [Htok Ht]. apply andb_true_iff in Htok as [Hne Hd].
    cbn [kept_of bytes_of]. rewrite app_nil_r. apply filter_turn_fragment; [| |done].
    + by destruct digits.
    + apply Forall_forall. intros b Hb. rewrite forallb_forall in Hd.
      by apply Hd, list_elem_of_In.
Qed.

Lemma bytes_of_nonempty (tok : token) : (0 < length (bytes_of tok))%nat.
Proof. destruct tok; cbn; lia. Qed.

(** The loop on a stream of whole tokens, from any point between two of
    them. *)
Lemma filter_loop_tokens (toks : list token) (pre filtered : list byte) (fuel : nat) :
  stream_ok toks = true -> (length toks <= fuel)%nat ->
  (filter_loop fuel (pre ++ (toks ≫= bytes_of)) (length pre) filtered).2
  = filtered ++ (toks ≫= kept_of).
Proof.
  revert pre filtered fuel. induction toks as [|tok rest IH]; intros pre filtered fuel Hok Hfuel.
  - cbn. rewrite !app_nil_r. by rewrite filter_loop_end.
  - destruct fuel as [|fuel]; [cbn in Hfuel; lia|]. rewrite filter_loop_S.
    rewrite !bind_cons.
    pose proof (bytes_of_nonempty tok) as Hpos.
    destruct (Nat.ltb_spec (length pre) (length (pre ++ bytes_of tok ++ (rest ≫= bytes_of))))
      as [_|E]; [|rewrite !length_app in E; lia].
    cbn [negb]. rewrite (filter_turn_token _ _ _ _ Hok).
    cbn [stream_ok] in Hok. apply andb_true_iff in Hok as [_ Hok].
    rewrite app_assoc, <- length_app.
    rewrite (IH _ _ fuel Hok) by (cbn [length] in Hfuel; lia).
    by rewrite <- app_assoc.
Qed.

Lemma tokens_length (toks : list token) : (length toks <= length (toks ≫= bytes_of))%nat.
Proof.
  induction toks as [|tok rest IH]; [done|]. rewrite bind_cons, length_app.
  pose proof (bytes_of_nonempty tok). cbn [length]. lia.
Qed.

(** X12: what passes and what is dropped.  Of a stream that comes in one
    call and is made of plain bytes, whole control sequences
    [ESC [ params t] and fragments [; digits R] or [; digits c], the filter
    displays the plain bytes and the control sequences other than the
    replies [R], [c] and [n], unchanged and in order; the replies and the
    fragments are dropped. *)
Theorem Read_whole_tokens (plen : nat) (toks : list token) :
  stream_ok toks = true ->
  (length (toks ≫= bytes_of) <= plen)%nat ->
  (Read new_filter plen (toks ≫= bytes_of)).2 = toks ≫= kept_of.
Proof.
  intros Hok Hplen. unfold Read. cbn [new_filter buffer app].
  destruct (toks ≫= bytes_of) as [|b data] eqn:Hdata.
  { destruct toks as [|tok rest]; [done|]. rewrite bind_cons in Hdata.
    pose proof (bytes_of_nonempty tok) as Hpos.
    apply (f_equal length) in Hdata. rewrite length_app in Hdata. cbn in Hdata. lia. }
  cbn [length Nat.eqb]. rewrite <- Hdata.
  pose proof (filter_loop_tokens toks [] [] (length (toks ≫= bytes_of)) Hok
                (tokens_length toks)) as Hloop.
  cbn [app length] in Hloop.
  replace (S (length data)) with (length (toks ≫= bytes_of)) by (by rewrite Hdata).
  destruct (filter_loop _ _ 0 []) as [buf filtered]. cbn [snd] in *. subst filtered.
  apply take_ge. etrans; [|exact Hplen].
  rewrite <- Hdata. clear.
  induction toks as [|tok rest IH]; [cbn; lia|]. rewrite !bind_cons, !length_app.
  assert (length (kept_of tok) <= length (bytes_of tok))%nat; [|lia].
  destruct tok as [b|params t|digits t]; cbn [kept_of bytes_of]; [lia| |cbn; lia].
  destruct (is_reply _); cbn; lia.
Qed.

(** X11: the filter only deletes.  What a call of [Read] hands to its
    caller is what is left of the bytes it was given (after the bytes held
    over, which are none after the first call) when some of them are taken
    out: no byte is added, changed or moved, and the result fits the
    caller's buffer. *)
Theorem Read_only_deletes (tf : TerminalFilter) (plen : nat) (data : list byte) :
  (Read tf plen data).2 `sublist_of` buffer tf ++ data /\
  (length (Read tf plen data).2 <= length (buffer tf ++ data))%nat /\
  (length (Read tf plen data).2 <= plen)%nat.
Proof.
  assert (H : (Read tf plen data).2 `sublist_of` buffer tf ++ data /\
              (length (Read tf plen data).2 <= plen)%nat).
  { unfold Read. destruct (length data =? 0)%nat.
    - cbn. split; [apply sublist_nil_l | lia].
    - pose proof (filter_loop_sublist (length (buffer tf ++ data)) (buffer tf ++ data) 0 []
                    ltac:(lia) ltac:(apply sublist_nil_l)) as Hs.
      destruct (filter_loop _ _ 0 []) as [b filtered]. cbn [snd] in *. split.
      + etrans; [apply sublist_take | exact Hs].
      + rewrite length_take. lia. }
  destruct H as [H1 H2]. split; [done|]. split; [by apply sublist_length | done].
Qed.

(** X13: every call is filtered on its own.  The filter holds nothing over
    from one call to the next, so the output of a stream fed in pieces is
    the outputs of the pieces, each filtered as if it came first. *)
Theorem feed_pieces (plen : nat) (chunks : list (list byte)) :
  feed new_filter plen chunks = chunks ≫= (fun data => (Read new_filter plen data).2).
Proof.
  induction chunks as [|data rest IH]; [done|]. cbn [feed]. rewrite bind_cons.
  destruct data as [|b data]; [cbn [Read length Nat.eqb snd app]; exact IH|].
  pose proof (Read_clears_buffer new_filter plen (b :: data) ltac:(done)) as Hclear.
  destruct (Read new_filter plen (b :: data)) as [[buf] out]. cbn [fst snd buffer] in *.
  subst buf. by rewrite <- IH.
Qed.

End FilterFacts.

(** ** The raw mode of the terminal: [MakeRaw], [Restore], [getTermios] and
    [setTermios] of [ssh/ssh.go]. *)
Module RawMode.

(** [syscall.Termios], as the systems with [TIOCGETA] have it: four words
    of flags, the control characters and the two speeds. *)
Record Termios := {
  Iflag : N;
  Oflag : N;
  Cflag : N;
  Lflag : N;
  Cc : list byte;
  Ispeed : N;
  Ospeed : N;
}.

(** The flag constants of the package [syscall]; their values are those of
    the system the program is built for. *)
Class Syscall := {
  IGNBRK : N; BRKINT : N; PARMRK : N; ISTRIP : N;
  INLCR : N; IGNCR : N; ICRNL : N; IXON : N;
  OPOST : N;
  ECHO : N; ECHONL : N; ICANON : N; ISIG : N; IEXTEN : N;
  CSIZE : N; PARENB : N; CS8 : N;
}.

(** The terminal behind the file descriptor: its attributes, and the error
    numbers of the [ioctl] calls to come (0, or none left, is success).  An
    [ioctl] that fails changes nothing. *)
Record Tty := {
  attrs : Termios;
  errnos : list N;
}.

(** One [syscall.Syscall6(SYS_IOCTL, ...)]: the error number, and the
    terminal with that call behind it. *)
Definition ioctl (tty : Tty) : N * Tty :=
  match errnos tty with
  | [] => (0%N, tty)
  | e :: rest => (e, {| attrs := attrs tty; errnos := rest |})
  end.

(** [getTermios]. *)
Definition getTermios (tty : Tty) : Tty * (N + Termios) :=
  let '(err, tty') := ioctl tty in
  if negb (err =? 0)%N then (tty', inl err) else (tty', inr (attrs tty')).

(** [setTermios]. *)
Definition setTermios (tty : Tty) (termios : Termios) : Tty * option N :=
  let '(err, tty') := ioctl tty in
  if negb (err =? 0)%N then (tty', Some err)
  else ({| attrs := termios; errnos := errnos tty' |}, None).

Section WithSyscall.
Context `{S : Syscall}.

(** The four assignments of [MakeRaw]. *)
Definition raw (termios : Termios) : Termios :=
  {| Iflag := N.ldiff (Iflag termios)
                (N.lor (N.lor (N.lor (N.lor (N.lor (N.lor (N.lor
                   IGNBRK BRKINT) PARMRK) ISTRIP) INLCR) IGNCR) ICRNL) IXON);
     Oflag := N.ldiff (Oflag termios) OPOST;
     Cflag := N.lor (N.ldiff (Cflag termios) (N.lor CSIZE PARENB)) CS8;
     Lflag := N.ldiff (Lflag termios)
                (N.lor (N.lor (N.lor (N.lor ECHO ECHONL) ICANON) ISIG) IEXTEN);
     Cc := Cc termios;
     Ispeed := Ispeed termios;
     Ospeed := Ospeed termios |}.

(** [MakeRaw]: the terminal after the call, and the error or the state to
    restore. *)
Definition MakeRaw (tty : Tty) : Tty * (N + Termios) :=
  match getTermios tty with
  | (tty1, inl err) => (tty1, inl err)
  | (tty1, inr termios) =>
      let oldState := termios in
      match setTermios tty1 (raw termios) with
      | (tty2, Some err) => (tty2, inl err)
      | (tty2, None) => (tty2, inr oldState)
      end
  end.

(** [Restore]. *)
Definition Restore (tty : Tty) (termios : Termios) : Tty * option N :=
  setTermios tty termios.

(** *** Facts. *)

Lemma ioctl_attrs (tty : Tty) : attrs (ioctl tty).2 = attrs tty.
Proof. unfold ioctl. by destruct (errnos tty). Qed.

Lemma getTermios_attrs (tty : Tty) :
  attrs (getTermios tty).1 = attrs tty /\
  forall termios, (getTermios tty).2 = inr termios -> termios = attrs tty.
Proof.
  unfold getTermios. pose proof (ioctl_attrs tty) as H.
  destruct (ioctl tty) as [err tty']. cbn [snd] in H.
  destruct (negb _); cbn [fst snd]; split; try done. by intros ? [= <-].
Qed.

Lemma setTermios_attrs (tty : Tty) (termios : Termios) :
  attrs (setTermios tty termios).1 =
    match (setTermios tty termios).2 with
    | None => termios
    | Some _ => attrs tty
    end.
Proof.
  unfold setTermios. pose proof (ioctl_attrs tty) as H.
  destruct (ioctl tty) as [err tty']. cbn [snd] in H. by destruct (negb _).
Qed.

Lemma MakeRaw_attrs (tty : Tty) :
  match (MakeRaw tty).2 with
  | inr oldState => oldState = attrs tty /\ attrs (MakeRaw tty).1 = raw (attrs tty)
  | inl _ => attrs (MakeRaw tty).1 = attrs tty
  end.
Proof.
  unfold MakeRaw. destruct (getTermios_attrs tty) as [H1 H2].
  destruct (getTermios tty) as [tty1 [err|termios]]; cbn [fst snd] in *; [done|].
  rewrite (H2 termios eq_refl) in *. clear H2.
  pose proof (setTermios_attrs tty1 (raw (attrs tty))) as H3.
  destruct (setTermios tty1 (raw (attrs tty))) as [tty2 [err|]]; cbn [fst snd] in *.
  - congruence.
  - done.
Qed.

(** X14: raw mode and back.  When [MakeRaw] succeeds, the state it
    returns is the one the terminal had and the terminal has the raw
    attributes of it; a [Restore] of that state that succeeds gives the
    terminal the attributes it had before [MakeRaw], and one that fails
    leaves it raw.  When [MakeRaw] fails the attributes are as before. *)
Theorem MakeRaw_then_Restore (tty : Tty) :
  match MakeRaw tty with
  | (tty1, inr oldState) =>
      oldState = attrs tty /\
      attrs tty1 = raw (attrs tty) /\
      match Restore tty1 oldState with
      | (tty2, None) => attrs tty2 = attrs tty
      | (tty2, Some _) => attrs tty2 = raw (attrs tty)
      end
  | (tty1, inl _) => attrs tty1 = attrs tty
  end.
Proof.
  pose proof (MakeRaw_attrs tty) as H.
  destruct (MakeRaw tty) as [tty1 [err|oldState]]; cbn [fst snd] in H; [done|].
  destruct H as [-> H]. split; [done|]. split; [done|].
  pose proof (setTermios_attrs tty1 (attrs tty)) as H3. unfold Restore.
  destruct (setTermios tty1 (attrs tty)) as [tty2 [err|]]; cbn [fst snd] in H3; congruence.
Qed.

Lemma ldiff_clears (a m f : N) : N.land f m = f -> N.land (N.ldiff a m) f = 0%N.
Proof.
  intros H. apply N.bits_inj. intros n.
  rewrite N.land_spec, N.ldiff_spec, N.bits_0.
  apply (f_equal (fun x => N.testbit x n)) in H. rewrite N.land_spec in H.
  destruct (N.testbit a n), (N.testbit m n), (N.testbit f n); done.
Qed.

Lemma ldiff_keeps (a m : N) : N.ldiff (N.ldiff a m) m = N.ldiff a m.
Proof.
  apply N.bits_inj. intros n. rewrite !N.ldiff_spec.
  destruct (N.testbit a n), (N.testbit m n); done.
Qed.

Lemma land_lor_l (f m : N) : N.land f (N.lor f m) = f.
Proof.
  apply N.bits_inj. intros n. rewrite N.land_spec, N.lor_spec.
  destruct (N.testbit f n), (N.testbit m n); done.
Qed.

Lemma land_lor_r (f m g : N) : N.land f m = f -> N.land f (N.lor m g) = f.
Proof.
  intros H. apply N.bits_inj. intros n. rewrite N.land_spec, N.lor_spec.
  apply (f_equal (fun x => N.testbit x n)) in H. rewrite N.land_spec in H.
  destruct (N.testbit f n), (N.testbit m n), (N.testbit g n); done.
Qed.

Lemma land_lor_here (f m : N) : N.land f (N.lor m f) = f.
Proof.
  apply N.bits_inj. intros n. rewrite N.land_spec, N.lor_spec.
  destruct (N.testbit f n), (N.testbit m n); done.
Qed.

(** X15: the attributes of raw mode.  Whatever the terminal had, in the
    attributes [MakeRaw] writes the local flags ECHO, ECHONL, ICANON, ISIG
    and IEXTEN, the input flags IGNBRK, BRKINT, PARMRK, ISTRIP, INLCR,
    IGNCR, ICRNL and IXON and the output flag OPOST are off and the
    character size is CS8; no local flag is turned on, and the control
    characters and the two speeds are kept. *)
Theorem raw_mode_flags (termios : Termios) :
  Forall (fun flag => N.land (Lflag (raw termios)) flag = 0%N)
         [ECHO; ECHONL; ICANON; ISIG; IEXTEN] /\
  Forall (fun flag => N.land (Iflag (raw termios)) flag = 0%N)
         [IGNBRK; BRKINT; PARMRK; ISTRIP; INLCR; IGNCR; ICRNL; IXON] /\
  N.land (Oflag (raw termios)) OPOST = 0%N /\
  N.land (Cflag (raw termios)) CS8 = CS8 /\
  (forall n, N.testbit (Lflag (raw termios)) n = true -> N.testbit (Lflag termios) n = true) /\
  Cc (raw termios) = Cc termios /\
  Ispeed (raw termios) = Ispeed termios /\
  Ospeed (raw termios) = Ospeed termios.
Proof.
  cbn [raw Lflag Iflag Oflag Cflag Cc Ispeed Ospeed].
  split; [|split; [|split; [|split; [|split]]]].
  - repeat constructor; apply ldiff_clears;
      repeat first [apply land_lor_here | apply land_lor_l | apply land_lor_r].
  - repeat constructor; apply ldiff_clears;
      repeat first [apply land_lor_here | apply land_lor_l | apply land_lor_r].
  - apply ldiff_clears, N.land_diag.
  - apply N.bits_inj. intros n. rewrite N.land_spec, N.lor_spec.
    by destruct (N.testbit CS8 n), (N.testbit _ n).
  - intros n. rewrite N.ldiff_spec. by intros [? _]%andb_true_iff.
  - done.
Qed.

End WithSyscall.

End RawMode.

(** ** The entries of the password store in memory, and more facts about
    the package [password]. *)
Module StoreFacts.
Import Store.

(** [GetEntry]. *)
Definition GetEntry (ps : PasswordStore) (id : string) : string + PasswordEntry :=
  match entries ps !! id with
  | None => inl ("password with ID '" +:+ id +:+ "' not found")
  | Some entry => inr entry
  end.

(** [List]: the copies, in the order of the [range]. *)
Definition List (w : World) (ps : PasswordStore) : list PasswordEntry :=
  (fun entry => Entry (ID entry) (Description entry) "***")
    <$> (range_order w (entries ps)).*2.

(** [Count]. *)
Definition Count (ps : PasswordStore) : Z := Z.of_nat (size (entries ps)).

(** The entries of a store are kept under their own [ID]. *)
Definition keyed_by_id (ps : PasswordStore) : Prop :=
  forall k e, entries ps !! k = Some e -> ID e = k.

(** *** Facts. *)

(** X16: [Add] never overwrites.  A new id is stored with its description
    and secret, [Get] then returns the secret, every other entry is as
    before and the store has one entry more; an id that is already there is
    refused with [already exists] and the store is left as it was. *)
Theorem Add_never_overwrites (ps : PasswordStore) (id description password : string) :
  match Add ps id description password with
  | (ps', None) =>
      Get ps id = inl ("password with ID '" +:+ id +:+ "' not found") /\
      Get ps' id = inr password /\
      GetEntry ps' id = inr (Entry id description password) /\
      (forall id', id' <> id -> Get ps' id' = Get ps id') /\
      Count ps' = Count ps + 1
  | (ps', Some e) =>
      ps' = ps /\
      e = "password with ID '" +:+ id +:+ "' already exists" /\
      exists old, Get ps id = inr old
  end.
Proof.
  unfold Add, Get, GetEntry, Count. destruct (entries ps !! id) as [old|] eqn:E.
  - eauto.
  - cbn [entries]. rewrite lookup_insert_eq. repeat split.
    + intros id' Hne. by rewrite lookup_insert_ne.
    + rewrite map_size_insert_None by done. lia.
Qed.

(** X17: [Remove] forgets one entry.  The entry of a known id is gone
    afterwards, every other entry is as before and the store has one entry
    less; an unknown id is refused with [not found] and the store is left
    as it was.  Removing an id right after it was added gives the store
    back as it was before. *)
Theorem Remove_forgets (ps : PasswordStore) (id : string) :
  match Remove ps id with
  | (ps', None) =>
      (exists old, Get ps id = inr old) /\
      Get ps' id = inl ("password with ID '" +:+ id +:+ "' not found") /\
      (forall id', id' <> id -> Get ps' id' = Get ps id') /\
      Count ps' = Count ps - 1
  | (ps', Some e) =>
      ps' = ps /\ Get ps id = inl e /\
      e = "password with ID '" +:+ id +:+ "' not found"
  end /\
  (forall description password ps',
     Add ps id description password = (ps', None) -> Remove ps' id = (ps, None)).
Proof.
  split.
  - unfold Remove, Get, Count. destruct (entries ps !! id) as [old|] eqn:E; [|done].
    cbn [entries]. rewrite lookup_delete_eq. split; [eauto|]. split; [done|]. split.
    + intros id' Hne. by rewrite lookup_delete_ne.
    + rewrite map_size_delete, E.
      assert (0 < size (entries ps))%nat; [|lia].
      destruct (decide (size (entries ps) = 0%nat)) as [H0|]; [|lia].
      apply map_size_empty_inv in H0. rewrite H0, lookup_empty in E. done.
  - intros description password ps'. unfold Add, Remove.
    destruct (entries ps !! id) eqn:E; [done|]. intros [= <-]. cbn [entries].
    rewrite lookup_insert_eq, delete_insert_id by done. by destruct ps.
Qed.

(** X18: [List] shows every entry once and no secret.  Each entry of the
    result carries [***] in place of the secret; the result has [Count]
    entries, one for every id of the store, and every id it shows is one
    that [Get] accepts. *)
Theorem List_hides_secrets (w : World) (ps : PasswordStore) :
  range_any_order w -> keyed_by_id ps ->
  Forall (fun e => Password e = "***") (List w ps) /\
  Z.of_nat (length (List w ps)) = Count ps /\
  ID <$> List w ps ≡ₚ (map_to_list (entries ps)).*1 /\
  (forall e, e ∈ List w ps -> exists secret, Get ps (ID e) = inr secret).
Proof.
  intros Horder Hkeyed. specialize (Horder (entries ps)).
  assert (Hids : ID <$> List w ps = (range_order w (entries ps)).*1).
  { unfold List. rewrite <- !list_fmap_compose. apply list_fmap_ext.
    intros i [k e] Hi. cbn. apply Hkeyed. apply elem_of_map_to_list.
    rewrite <- Horder. by eapply list_elem_of_lookup_2. }
  split; [|split; [|split]].
  - unfold List. apply Forall_fmap, Forall_forall. by intros e _.
  - unfold List, Count. rewrite !length_fmap, Horder, length_map_to_list. done.
  - rewrite Hids. by apply fmap_Permutation.
  - intros e He. apply (list_elem_of_fmap_2 ID) in He. rewrite Hids in He.
    apply list_elem_of_fmap in He as ([k e'] & -> & Hin). rewrite Horder in Hin.
    apply elem_of_map_to_list in Hin. unfold Get. cbn [fst]. rewrite Hin. eauto.
Qed.

Section WithLib.
Context `{L : Lib}.

Lemma decrypt_entries_keyed (key : list byte) (es : list PasswordEntry)
    (m : gmap string PasswordEntry) :
  keyed_by_id {| entries := m |} ->
  keyed_by_id {| entries := (decrypt_entries key es m).1 |}.
Proof.
  revert m. induction es as [|entry rest IH]; intros m Hm; [done|].
  cbn [decrypt_entries]. destruct (base64_Decode (Password entry)); [done|].
  destruct (decrypt _ key); [done|]. apply IH.
  intros k e. cbn [entries]. destruct (decide (k = ID entry)) as [->|Hne].
  - rewrite lookup_insert_eq. by intros [= <-].
  - rewrite lookup_insert_ne by done. apply Hm.
Qed.

Lemma keyed_by_id_empty : keyed_by_id {| entries := ∅ |}.
Proof. intros k e. cbn [entries]. by rewrite lookup_empty. Qed.

(** X19: the entries stay under their own ids.  A new store keeps every
    entry under the [ID] the entry carries, and [Add], [Remove], [Load],
    [Initialize] and [ChangeMasterPassword] keep it so, whether they
    succeed or fail. *)
Theorem entries_keyed_by_id :
  keyed_by_id NewPasswordStore /\
  (forall ps id description password,
     keyed_by_id ps -> keyed_by_id (Add ps id description password).1) /\
  (forall ps id, keyed_by_id ps -> keyed_by_id (Remove ps id).1) /\
  (forall w ps masterPassword,
     keyed_by_id ps -> keyed_by_id (Load w ps masterPassword).1) /\
  (forall w ps masterPassword,
     keyed_by_id ps -> keyed_by_id (Initialize w ps masterPassword).1.2) /\
  (forall w ps oldPassword newPassword,
     keyed_by_id ps -> keyed_by_id (ChangeMasterPassword w ps oldPassword newPassword).1.2).
Proof.
  split; [apply keyed_by_id_empty|]. split; [|split; [|split; [|split]]].
  - intros ps id description password Hps. unfold Add.
    destruct (entries ps !! id) eqn:E; [done|]. intros k e. cbn [fst entries].
    destruct (decide (k = id)) as [->|Hne].
    + rewrite lookup_insert_eq. by intros [= <-].
    + rewrite lookup_insert_ne by done. apply Hps.
  - intros ps id Hps. unfold Remove. destruct (entries ps !! id) eqn:E; [|done].
    intros k e. cbn [fst entries]. intros [_ H]%lookup_delete_Some. by apply Hps.
  - intros w ps masterPassword Hps. unfold Load.
    destruct (file w) as [data|]; [|apply keyed_by_id_empty].
    destruct (length data <? saltSize)%nat; [done|]. cbv zeta.
    destruct (decrypt _ _); [done|]. destruct (json_Unmarshal _) as [e|es]; [done|].
    pose proof (decrypt_entries_keyed (deriveMasterKey masterPassword (take saltSize data))
                  es ∅ keyed_by_id_empty) as H.
    by destruct (decrypt_entries _ es ∅).
  - intros w ps masterPassword Hps. unfold Initialize.
    destruct (rand_Read saltSize w) as [[salt w1]|]; [|done].
    destruct (Save w1 _ masterPassword (Some salt)) as [w2 [e|]]; apply keyed_by_id_empty.
  - intros w ps oldPassword newPassword Hps. unfold ChangeMasterPassword.
    destruct (file w) as [data|]; [|done].
    destruct (length data <? saltSize)%nat; [done|]. cbv zeta.
    destruct (decrypt _ _); [done|]. destruct (json_Unmarshal _) as [e|es]; [done|].
    pose proof (decrypt_entries_keyed (deriveMasterKey oldPassword (take saltSize data))
                  es ∅ keyed_by_id_empty) as H.
    destruct (decrypt_entries _ es ∅) as [m [e|]]; [done|].
    destruct (rand_Read saltSize w) as [[newSalt w1]|]; [|done].
    by destruct (Save w1 _ newPassword (Some newSalt)) as [w2 [e|]].
Qed.

Section WithLaws.
Context {Laws : LibLaws L}.

(** X20: an ordinary save keeps the salt.  [Save] without a salt, on a
    store file that is there, writes the new file under the salt of the old
    one: the first [saltSize] bytes stay, and the rest is sealed under the
    key of the passphrase and that salt. *)
Theorem Save_keeps_salt (w w' : World) (ps : PasswordStore) (masterPassword : string)
    (data : list byte) :
  file w = Some data -> (saltSize <= length data)%nat ->
  Save w ps masterPassword None = (w', None) ->
  exists data',
    file w' = Some data' /\
    take saltSize data' = take saltSize data /\
    well_formed_under masterPassword data'.
Proof.
  intros Hfile Hlen Hsave.
  assert (Hsame : Save w ps masterPassword None
                  = Save w ps masterPassword (Some (take saltSize data))).
  { unfold Save, choose_salt. rewrite Hfile.
    by destruct (Nat.leb_spec saltSize (length data)); [|lia]. }
  rewrite Hsame in Hsave.
  destruct (Save_well_formed _ _ _ _ _ Hsave) as (data' & Hfile' & Hwf & Hsalt).
  { intros s0 [= <-]. rewrite length_take. lia. }
  exists data'. split; [done|]. split; [by apply Hsalt | done].
Qed.

(** X21: encryption and decryption.  [encrypt] puts the next [nonceSize]
    bytes of the random source in front of the sealed text, and [decrypt]
    under the same key gives the plaintext back; under any other key of the
    same length it fails (for a cipher that authenticates).  [encrypt]
    fails only on a key of a wrong size or when the random source fails,
    and a text shorter than a nonce is refused as too short. *)
Theorem encrypt_then_decrypt (w : World) (plaintext key : list byte) :
  match encrypt w plaintext key with
  | (w', inr ciphertext) =>
      decrypt ciphertext key = inr plaintext /\
      take nonceSize ciphertext = take nonceSize (entropy w) /\
      entropy w' = drop nonceSize (entropy w) /\
      (gcm_authentic L ->
       forall key', length key' = length key -> key' <> key ->
                    decrypt ciphertext key' = inl err_open)
  | (w', inl _) =>
      w' = w /\
      (aes_NewCipher_ok key = false \/ (length (entropy w) < nonceSize)%nat)
  end /\
  (forall short, aes_NewCipher_ok key = true -> (length short < nonceSize)%nat ->
                 decrypt short key = inl "ciphertext too short").
Proof.
  split.
  - destruct (encrypt w plaintext key) as [w' [e|ciphertext]] eqn:He.
    + unfold encrypt in He. destruct (aes_NewCipher_ok key); cbn [negb] in He.
      * unfold rand_Read in He.
        destruct (Nat.leb_spec nonceSize (length (entropy w))); [done|].
        injection He as <- _. split; [done|]. by right.
      * injection He as <- _. split; [done|]. by left.
    + pose proof (decrypt_encrypt _ _ _ _ _ He) as Hdec.
      apply encrypt_inv in He as (Hkey & nonce & Hrand & ->).
      apply rand_Read_inv in Hrand as (Hlen & -> & ->).
      split; [done|]. split; [by rewrite take_app_length' by done|]. split; [done|].
      intros Hauth key' Hlen' Hne. unfold decrypt.
      assert (aes_NewCipher_ok key' = true) as ->.
      { unfold aes_NewCipher_ok in *. by rewrite Hlen'. }
      cbn [negb]. rewrite length_app, Hlen.
      destruct (Nat.ltb_spec (nonceSize + length (gcm_Seal key (take nonceSize (entropy w))
                                                    plaintext)) nonceSize); [lia|].
      rewrite take_app_length', drop_app_length' by done.
      by rewrite Hauth.
  - intros short Hkey Hshort. unfold decrypt. rewrite Hkey. cbn [negb].
    by destruct (Nat.ltb_spec (length short) nonceSize); [|lia].
Qed.

End WithLaws.

End WithLib.

End StoreFacts.

(** ** The start of the password manager: [runPasswordManager] of
    [main.go], up to the call of the user interface. *)
Module Startup.
Import Store.

(** How [runPasswordManager] goes on: it exits with status 1 after a
    message on standard error, or it calls [ui.RunPasswordManager] with the
    store and the master passphrase. *)
Inductive startup :=
| ExitError (stderr : string)
| RunPasswordManager (store : PasswordStore) (masterPassword : string).

Definition newline : string := String "010" "".

Section WithLib.
Context `{L : Lib}.

(** What [PromptMasterPassword] writes to standard output. *)
Definition prompted (prompt : string) : list string := [prompt; newline].

(** [runPasswordManager]: [first] and [second] are what the first and the
    second call of [PromptMasterPassword] return (an error text or the
    passphrase typed), and [storePath] is [store.GetStorePath()].  The
    result is what was written to standard output, the world after, and
    how the function goes on. *)
Definition runPasswordManager (w : World) (storePath : string)
    (first second : string + string) : list string * World * startup :=
  let store := NewPasswordStore in
  if negb (StoreExists w) then
    let out := ["Password store not found. Creating new store..." +:+ newline]
               ++ prompted "Create Master Password: " in
    match first with
    | inl err => (out, w, ExitError ("Error reading password: " +:+ err +:+ newline))
    | inr masterPassword =>
        if Z.of_nat (String.length masterPassword) <? 8
        then (out, w, ExitError ("Master password must be at least 8 characters" +:+ newline))
        else
          let out := out ++ prompted "Confirm Master Password: " in
          match second with
          | inl err => (out, w, ExitError ("Error reading password: " +:+ err +:+ newline))
          | inr confirmPassword =>
              if negb (String.eqb masterPassword confirmPassword)
              then (out, w, ExitError ("Passwords do not match" +:+ newline))
              else
                match Initialize w store masterPassword with
                | (w', _, Some err) =>
                    (out, w', ExitError ("Error initializing password store: "
                                         +:+ err +:+ newline))
                | (w', store', None) =>
                    (out ++ ["Password store created at: " +:+ storePath +:+ newline],
                     w', RunPasswordManager store' masterPassword)
                end
          end
    end
  else
    let out := prompted "Master Password: " in
    match first with
    | inl err => (out, w, ExitError ("Error reading password: " +:+ err +:+ newline))
    | inr masterPassword =>
        match Load w store masterPassword with
        | (_, Some err) =>
            (out, w, ExitError ("Error loading password store: " +:+ err +:+ newline))
        | (store', None) =>
            (out ++ ["Password store loaded successfully" +:+ newline], w,
             RunPasswordManager store' masterPassword)
        end
    end.

Section WithLaws.
Context {Laws : LibLaws L}.

(** X22: the start of the password manager guards the store.  A store file
    that is there is never written: the passphrase is asked once and the
    manager starts only if [Load] accepts it.  Without a store file, one is
    created only for a passphrase of at least 8 bytes that was typed twice
    alike, and the manager starts with an empty store that [Load] opens
    under that passphrase.  In every other case the function exits, and it
    has written nothing unless [Initialize] itself failed. *)
Theorem runPasswordManager_guards_store (w : World) (storePath : string)
    (first second : string + string) :
  range_any_order w ->
  match runPasswordManager w storePath first second with
  | (_, w', RunPasswordManager store masterPassword) =>
      Load w' NewPasswordStore masterPassword = (store, None) /\
      first = inr masterPassword /\
      (StoreExists w = true -> w' = w) /\
      (StoreExists w = false ->
       second = inr masterPassword /\ (8 <= String.length masterPassword)%nat /\
       store = {| entries := ∅ |})
  | (_, w', ExitError _) =>
      w' = w \/
      (StoreExists w = false /\
       exists masterPassword,
         first = inr masterPassword /\ second = inr masterPassword /\
         (8 <= String.length masterPassword)%nat /\
         (Initialize w NewPasswordStore masterPassword).2 <> None)
  end.
Proof.
  intros Horder. unfold runPasswordManager. cbv zeta.
  destruct (StoreExists w) eqn:Hex; cbn [negb].
  - destruct first as [err|masterPassword]; [by left|].
    destruct (Load w NewPasswordStore masterPassword) as [store' [err|]] eqn:Hload;
      [by left|].
    by repeat split.
  - destruct first as [err|masterPassword]; [by left|].
    destruct (Z.ltb_spec (Z.of_nat (String.length masterPassword)) 8) as [|Hlen]; [by left|].
    destruct second as [err|confirmPassword]; [by left|].
    destruct (String.eqb_spec masterPassword confirmPassword) as [<-|]; cbn [negb];
      [|by left].
    destruct (Initialize w NewPasswordStore masterPassword) as [[w' store'] [err|]] eqn:Hinit.
    + right. split; [done|]. exists masterPassword. repeat split; [lia | by rewrite Hinit].
    + pose proof (Initialize_Load _ _ _ _ NewPasswordStore _ Horder Hinit) as Hload.
      assert (store' = {| entries := ∅ |}) as ->.
      { unfold Initialize in Hinit. destruct (rand_Read saltSize w) as [[salt w1]|]; [|done].
        destruct (Save w1 _ masterPassword (Some salt)) as [w2 [e|]]; congruence. }
      repeat split; [done | done | lia].
Qed.

End WithLaws.

End WithLib.

End Startup.

(** ** The facts above at concrete inputs, with the small model of the
    libraries where they need one. *)
Module MoreChecks.
Import Directives Filter Store Interactive Toy.


(** A line of output with a colour sequence, a semicolon, a cursor report,
    the fragment of a report and plain text. *)
Definition sample_stream : list FilterFacts.token :=
  [FilterFacts.Plain "a"; FilterFacts.Sequence ["3"; "1"] "m"; FilterFacts.Plain ";";
   FilterFacts.Plain " "; FilterFacts.Sequence ["6"] "n";
   FilterFacts.Fragment ["1"; "2"] "R"; FilterFacts.Plain "b"]%byte.

Lemma Read_whole_tokens_witness :
  (Read new_filter 4096 (sample_stream ≫= FilterFacts.bytes_of)).2
  = sample_stream ≫= FilterFacts.kept_of.
Proof.
  apply (FilterFacts.Read_whole_tokens 4096 sample_stream).
  - reflexivity.
  - vm_compute. lia.
Defined.

Definition one_entry : PasswordStore :=
  {| entries := {[ "db" := Entry "db" "database" "secret1" ]} |}.

Lemma List_hides_secrets_witness :
  Forall (fun e => Password e = "***") (StoreFacts.List (Toy.world None 0) one_entry) /\
  Z.of_nat (length (StoreFacts.List (Toy.world None 0) one_entry))
  = StoreFacts.Count one_entry /\
  ID <$> StoreFacts.List (Toy.world None 0) one_entry
  ≡ₚ (map_to_list (entries one_entry)).*1 /\
  (forall e, e ∈ StoreFacts.List (Toy.world None 0) one_entry ->
             exists secret, Get one_entry (ID e) = inr secret).
Proof.
  apply (StoreFacts.List_hides_secrets (Toy.world None 0) one_entry).
  - apply Toy.world_any_order.
  - intros k e H. cbn in H. apply lookup_singleton_Some in H as [<- <-]. reflexivity.
Defined.

(** A world with a store file of forty bytes. *)
Definition old_file : list byte := replicate 40 x07.

Lemma Save_keeps_salt_witness :
  exists data',
    file (Save (Toy.world (Some old_file) 100) one_entry "master-pw" None).1 = Some data' /\
    take saltSize data' = take saltSize old_file /\
    well_formed_under "master-pw" data'.
Proof.
  apply (StoreFacts.Save_keeps_salt (Toy.world (Some old_file) 100)
           (Save (Toy.world (Some old_file) 100) one_entry "master-pw" None).1
           one_entry "master-pw" old_file).
  - reflexivity.
  - vm_compute. lia.
  - vm_compute. reflexivity.
Defined.

Lemma encrypt_then_decrypt_witness :
  match encrypt (Toy.world None 100) [x01; x02] (replicate 32 x00) with
  | (w', inr ciphertext) =>
      decrypt ciphertext (replicate 32 x00) = inr [x01; x02] /\
      take nonceSize ciphertext = take nonceSize (entropy (Toy.world None 100)) /\
      entropy w' = drop nonceSize (entropy (Toy.world None 100)) /\
      (gcm_authentic Toy.lib ->
       forall key', length key' = length (replicate 32 x00) -> key' <> replicate 32 x00 ->
                    decrypt ciphertext key' = inl err_open)
  | (w', inl _) =>
      w' = Toy.world None 100 /\
      (aes_NewCipher_ok (replicate 32 x00) = false \/
       (length (entropy (Toy.world None 100)) < nonceSize)%nat)
  end /\
  (forall short, aes_NewCipher_ok (replicate 32 x00) = true ->
                 (length short < nonceSize)%nat ->
                 decrypt short (replicate 32 x00) = inl "ciphertext too short").
Proof.
  apply (StoreFacts.encrypt_then_decrypt (Toy.world None 100) [x01; x02] (replicate 32 x00)).
Defined.

Lemma runPasswordManager_guards_store_witness :
  match Startup.runPasswordManager (Toy.world None 200) "passwords.enc"
          (inr "master-pw") (inr "master-pw") with
  | (_, w', Startup.RunPasswordManager store masterPassword) =>
      Load w' NewPasswordStore masterPassword = (store, None) /\
      inr "master-pw" = @inr string string masterPassword /\
      (StoreExists (Toy.world None 200) = true -> w' = Toy.world None 200) /\
      (StoreExists (Toy.world None 200) = false ->
       inr "master-pw" = @inr string string masterPassword /\
       (8 <= String.length masterPassword)%nat /\
       store = {| entries := ∅ |})
  | (_, w', Startup.ExitError _) =>
      w' = Toy.world None 200 \/
      (StoreExists (Toy.world None 200) = false /\
       exists masterPassword,
         inr "master-pw" = @inr string string masterPassword /\
         inr "master-pw" = @inr string string masterPassword /\
         (8 <= String.length masterPassword)%nat /\
         (Initialize (Toy.world None 200) NewPasswordStore masterPassword).2 <> None)
  end.
Proof.
  apply (Startup.runPasswordManager_guards_store (Toy.world None 200) "passwords.enc"
           (inr "master-pw") (inr "master-pw")).
  apply Toy.world_any_order.
Defined.

End MoreChecks.

(** ** The host configuration and its tree: the package [config]. *)
Module Config.

(** [Host]. *)
Record Host := MkHost {
  Name : string;
  Description : string;
  Command : string;
  Commands : list string;
}.

(** [Category]; its fields [Name], [Description] and [Categories] carry the
    prefix [cat_] here. *)
#[warnings="-register-all"]
Inductive Category := MkCategory {
  cat_Name : string;
  cat_Description : string;
  cat_Categories : list Category;
  Hosts : list Host;
}.

(** [Config]. *)
Record Config := { Categories : list Category }.

(** [TreeNode]; its fields [Name], [Description], [Command] and [Commands]
    carry the prefix [node_] here.  The nodes are held by pointers in Go; a
    pointer to a node is its position, [ptr] below, and the field [Parent]
    is the position above. *)
#[warnings="-register-all"]
Inductive TreeNode := Node {
  node_Name : string;
  node_Description : string;
  IsCategory : bool;
  IsExpanded : bool;
  Level : Z;
  node_Command : string;
  node_Commands : list string;
  Children : list TreeNode;
}.

(** A pointer to a node of a forest: the index of a root, then the index of
    a child at every level below. *)
Abbreviation ptr := (list nat).

(** [node.Parent]; [None] is [nil], the parent of a root. *)
Definition Parent (p : ptr) : option ptr :=
  match p with
  | [] | [_] => None
  | _ => Some (removelast p)
  end.

(** The node a pointer points to. *)
Fixpoint node_at (nodes : list TreeNode) (p : ptr) : option TreeNode :=
  match p with
  | [] => None
  | i :: rest =>
      match nodes !! i with
      | None => None
      | Some n =>
          match rest with
          | [] => Some n
          | _ => node_at (Children n) rest
          end
      end
  end.

(** [TreeNode.ToHost]; [None] is [nil]. *)
Definition ToHost (tn : TreeNode) : option Host :=
  if IsCategory tn then None
  else Some (MkHost (node_Name tn) (node_Description tn) (node_Command tn)
                    (node_Commands tn)).

(** The node of a host at a level. *)
Definition hostNode (level : Z) (host : Host) : TreeNode :=
  Node (Name host) (Description host) false false (level + 1)
       (Command host) (Commands host) [].

(** [buildCategoryNode]: the sub-categories first, then the hosts. *)
Fixpoint buildCategoryNode (cat : Category) (level : Z) : TreeNode :=
  Node (cat_Name cat) (cat_Description cat) true false level "" []
       (((fun c => buildCategoryNode c (level + 1)) <$> cat_Categories cat)
        ++ (hostNode level <$> Hosts cat)).

(** [BuildTree]. *)
Definition BuildTree (cfg : Config) : list TreeNode :=
  (fun c => buildCategoryNode c 0) <$> Categories cfg.

(** The loop over the children (or the roots) that appends what is visible
    below each of them; [i] is the index of the head of [nodes] and [p] the
    pointer to their parent. *)
Definition visible_each (recursive : ptr -> TreeNode -> list ptr) (p : ptr)
  : nat -> list TreeNode -> list ptr :=
  fix each (i : nat) (nodes : list TreeNode) : list ptr :=
    match nodes with
    | [] => []
    | node :: rest => recursive (p ++ [i]) node ++ each (S i) rest
    end.

(** [getVisibleNodesRecursive], for the node at [p]. *)
Fixpoint getVisibleNodesRecursive (p : ptr) (node : TreeNode) : list ptr :=
  p :: (if IsCategory node && IsExpanded node
        then visible_each getVisibleNodesRecursive p 0 (Children node)
        else []).

(** [GetVisibleNodes]. *)
Definition GetVisibleNodes (roots : list TreeNode) : list ptr :=
  visible_each getVisibleNodesRecursive [] 0 roots.

(** The hosts of a category and of a configuration, the hosts of the
    sub-categories first. *)
Fixpoint hosts_of (cat : Category) : list Host :=
  concat (hosts_of <$> cat_Categories cat) ++ Hosts cat.

Definition all_hosts (cfg : Config) : list Host :=
  concat (hosts_of <$> Categories cfg).

End Config.

(** ** The host tree on the screen: the package [ui], file [tree.go]. *)
Module TreeUI.
Import Config.

(** [model]; the pointers of [visible] and [selectedHost] point into
    [roots]. *)
Record model := Model {
  roots : list TreeNode;
  visible : list ptr;
  cursor : Z;
  width : Z;
  height : Z;
  selectedHost : option ptr;
  quitting : bool;
}.

(** The messages of the library: the two that [Update] looks at, a key
    being given by its name ([msg.String()]), and any other. *)
Inductive Msg :=
| WindowSizeMsg (Width Height : Z)
| KeyMsg (key : string)
| OtherMsg.

(** The command [Update] returns: [tea.Quit] or [nil]. *)
Inductive Cmd := Quit | NoCmd.

(** The assignment [node.IsExpanded = b]. *)
Definition set_IsExpanded (b : bool) (node : TreeNode) : TreeNode :=
  Node (node_Name node) (node_Description node) (IsCategory node) b (Level node)
       (node_Command node) (node_Commands node) (Children node).

Definition set_Children (children : list TreeNode) (node : TreeNode) : TreeNode :=
  Node (node_Name node) (node_Description node) (IsCategory node) (IsExpanded node)
       (Level node) (node_Command node) (node_Commands node) children.

(** The forest after the assignment [node.IsExpanded = b] through the
    pointer [p]. *)
Fixpoint assign_IsExpanded (nodes : list TreeNode) (p : ptr) (b : bool) : list TreeNode :=
  match p with
  | [] => nodes
  | i :: rest =>
      match nodes !! i with
      | None => nodes
      | Some node =>
          <[i := match rest with
                 | [] => set_IsExpanded b node
                 | _ => set_Children (assign_IsExpanded (Children node) rest b) node
                 end]> nodes
      end
  end.

(** [expandAll]. *)
Fixpoint expandAll_node (expand : bool) (node : TreeNode) : TreeNode :=
  if IsCategory node
  then Node (node_Name node) (node_Description node) (IsCategory node) expand
            (Level node) (node_Command node) (node_Commands node)
            (expandAll_node expand <$> Children node)
  else node.

Definition expandAll (nodes : list TreeNode) (expand : bool) : list TreeNode :=
  expandAll_node expand <$> nodes.

(** [countHostsInNode]. *)
Fixpoint countHostsInNode (node : TreeNode) : Z :=
  if negb (IsCategory node) then 1
  else fold_left (fun count child => count + countHostsInNode child) (Children node) 0.

(** [countHosts]. *)
Definition countHosts (nodes : list TreeNode) : Z :=
  fold_left (fun count node => count + countHostsInNode node) nodes 0.

(** [initialModel]. *)
Definition initialModel (cfg : Config) : model :=
  let roots := set_IsExpanded true <$> BuildTree cfg in
  Model roots (GetVisibleNodes roots) 0 0 0 None false.

(** The loop of [Update] that looks for the parent among the visible
    nodes; [i] is the index of the head of [nodes]. *)
Fixpoint index_of (parent : ptr) (i : Z) (nodes : list ptr) : option Z :=
  match nodes with
  | [] => None
  | n :: rest => if decide (n = parent) then Some i else index_of parent (i + 1) rest
  end.

Definition is_key (key : string) (names : list string) : bool :=
  existsb (String.eqb key) names.

(** The state after [node.IsExpanded = b] for the node under the cursor
    and [m.visible = config.GetVisibleNodes(m.roots)]. *)
Definition expand_at (m : model) (p : ptr) (b : bool) : model :=
  let roots := assign_IsExpanded (roots m) p b in
  Model roots (GetVisibleNodes roots) (cursor m) (width m) (height m)
        (selectedHost m) (quitting m).

Definition set_cursor (m : model) (c : Z) : model :=
  Model (roots m) (visible m) c (width m) (height m) (selectedHost m) (quitting m).

(** [m.visible[m.cursor]] and the node it points to, under the guard
    [m.cursor < len(m.visible)]. *)
Definition under_cursor (m : model) : option (ptr * TreeNode) :=
  if cursor m <? Z.of_nat (length (visible m)) then
    match visible m !! Z.to_nat (cursor m) with
    | Some p =>
        match node_at (roots m) p with
        | Some node => Some (p, node)
        | None => None
        end
    | None => None
    end
  else None.

(** [model.Update]. *)
Definition Update (m : model) (msg : Msg) : model * Cmd :=
  match msg with
  | WindowSizeMsg w h =>
      (Model (roots m) (visible m) (cursor m) w h (selectedHost m) (quitting m), NoCmd)
  | KeyMsg key =>
      if is_key key ["ctrl+c"; "q"] then
        (Model (roots m) (visible m) (cursor m) (width m) (height m) (selectedHost m) true,
         Quit)
      else if is_key key ["up"; "k"] then
        (if 0 <? cursor m then set_cursor m (cursor m - 1) else m, NoCmd)
      else if is_key key ["down"; "j"] then
        (if cursor m <? Z.of_nat (length (visible m)) - 1
         then set_cursor m (cursor m + 1) else m, NoCmd)
      else if is_key key ["left"; "h"] then
        match under_cursor m with
        | Some (p, node) =>
            if IsCategory node && IsExpanded node then (expand_at m p false, NoCmd)
            else
              match Parent p with
              | Some parent =>
                  match index_of parent 0 (visible m) with
                  | Some i => (set_cursor m i, NoCmd)
                  | None => (m, NoCmd)
                  end
              | None => (m, NoCmd)
              end
        | None => (m, NoCmd)
        end
      else if is_key key ["right"; "l"] then
        match under_cursor m with
        | Some (p, node) =>
            if IsCategory node && negb (IsExpanded node)
            then (expand_at m p true, NoCmd)
            else (m, NoCmd)
        | None => (m, NoCmd)
        end
      else if is_key key ["enter"; " "] then
        match under_cursor m with
        | Some (p, node) =>
            if IsCategory node then (expand_at m p (negb (IsExpanded node)), NoCmd)
            else
              (Model (roots m) (visible m) (cursor m) (width m) (height m) (Some p)
                     (quitting m), Quit)
        | None => (m, NoCmd)
        end
      else if String.eqb key "e" then
        let roots := expandAll (roots m) true in
        (Model roots (GetVisibleNodes roots) (cursor m) (width m) (height m)
               (selectedHost m) (quitting m), NoCmd)
      else if String.eqb key "c" then
        let roots := expandAll (roots m) false in
        (Model roots (GetVisibleNodes roots) (cursor m) (width m) (height m)
               (selectedHost m) (quitting m), NoCmd)
      else (m, NoCmd)
  | OtherMsg => (m, NoCmd)
  end.

(** The program loop of the library: [Update] for every message, up to the
    one that returns [tea.Quit]; the result is the final model. *)
Fixpoint run (m : model) (msgs : list Msg) : model :=
  match msgs with
  | [] => m
  | msg :: rest =>
      match Update m msg with
      | (m', Quit) => m'
      | (m', NoCmd) => run m' rest
      end
  end.

(** [Run], for the messages the program receives; [None] is the [nil]
    host (the error of the library is left out). *)
Definition Run (cfg : Config) (msgs : list Msg) : option Host :=
  let fm := run (initialModel cfg) msgs in
  match selectedHost fm with
  | Some p => node_at (roots fm) p ≫= ToHost
  | None => None
  end.

(** A pointer into the trees after the first [i] of a forest, as a pointer
    into the forest. *)
Definition shift (i : nat) (q : ptr) : ptr :=
  match q with
  | [] => []
  | k :: rest => (i + k)%nat :: rest
  end.

(** A tree without the marks of what is expanded. *)
Fixpoint skeleton (node : TreeNode) : TreeNode :=
  Node (node_Name node) (node_Description node) (IsCategory node) false (Level node)
       (node_Command node) (node_Commands node) (skeleton <$> Children node).

(** The hosts on the screen, from top to bottom. *)
Definition hosts_shown (nodes : list TreeNode) : list Host :=
  omap (fun p => node_at nodes p ≫= ToHost) (GetVisibleNodes nodes).

(** *** Facts. *)

(** Induction on a forest: on the children of its first tree and on the
    other trees. *)
Lemma forest_ind (P : list TreeNode -> Prop) :
  P [] ->
  (forall node rest, P (Children node) -> P rest -> P (node :: rest)) ->
  forall nodes, P nodes.
Proof.
  intros Hnil Hcons.
  assert (Hchildren : forall node, P (Children node)).
  { fix tree 1. intros [n d c e l cmd cmds cs]. cbn [Children].
    induction cs as [|child cs IH]; [exact Hnil|].
    apply Hcons; [apply tree | exact IH]. }
  induction nodes as [|node rest IH]; [exact Hnil|]. by apply Hcons.
Qed.

Lemma getVisibleNodesRecursive_eq (p : ptr) (node : TreeNode) :
  getVisibleNodesRecursive p node
  = p :: (if IsCategory node && IsExpanded node
          then visible_each getVisibleNodesRecursive p 0 (Children node)
          else []).
Proof. by destruct node. Qed.

Lemma visible_each_cons (p : ptr) (i : nat) (node : TreeNode) (rest : list TreeNode) :
  visible_each getVisibleNodesRecursive p i (node :: rest)
  = getVisibleNodesRecursive (p ++ [i]) node
    ++ visible_each getVisibleNodesRecursive p (S i) rest.
Proof. done. Qed.

Lemma shift_0 (q : ptr) : shift 0 q = q.
Proof. by destruct q. Qed.

(** The pointers found below a pointer [p], from the [i]-th tree on, are
    the pointers found in the forest, moved below [p] and by [i]. *)
Lemma visible_each_shift (nodes : list TreeNode) :
  forall p i,
    visible_each getVisibleNodesRecursive p i nodes
    = (fun q => p ++ shift i q) <$> GetVisibleNodes nodes.
Proof.
  induction nodes as [|node rest IHc IHr] using forest_ind; intros p i; [done|].
  unfold GetVisibleNodes. rewrite !visible_each_cons, !getVisibleNodesRecursive_eq.
  rewrite (IHr p (S i)), (IHr [] 1%nat). rewrite fmap_app, fmap_cons.
  cbn [app shift]. rewrite Nat.add_0_r.
  assert (Hc : (if IsCategory node && IsExpanded node
                then visible_each getVisibleNodesRecursive (p ++ [i]) 0 (Children node)
                else [])
               = (fun q => p ++ shift i q) <$>
                 (if IsCategory node && IsExpanded node
                  then visible_each getVisibleNodesRecursive [0%nat] 0 (Children node)
                  else [])).
  { destruct (IsCategory node && IsExpanded node); [|done].
    rewrite (IHc (p ++ [i]) 0%nat), (IHc [0%nat] 0%nat), <- list_fmap_compose.
    apply list_fmap_ext. intros _ q _. cbn. rewrite shift_0, Nat.add_0_r.
    by rewrite <- app_assoc. }
  assert (Hr : (fun q => p ++ shift (S i) q) <$> GetVisibleNodes rest
               = (fun q => p ++ shift i q) <$>
                 ((fun q : ptr => shift 1 q) <$> GetVisibleNodes rest)).
  { rewrite <- list_fmap_compose. apply list_fmap_ext. intros _ q _. cbn.
    destruct q as [|k r]; [done|]. cbn. do 2 f_equal. lia. }
  by rewrite Hc, Hr.
Qed.

(** What is visible of a forest: the first tree, what is visible of its
    children when it is an expanded category, and what is visible of the
    other trees. *)
Lemma GetVisibleNodes_cons (node : TreeNode) (rest : list TreeNode) :
  GetVisibleNodes (node :: rest)
  = ([0%nat] :: (if IsCategory node && IsExpanded node
                 then cons 0%nat <$> GetVisibleNodes (Children node)
                 else []))
    ++ (shift 1 <$> GetVisibleNodes rest).
Proof.
  unfold GetVisibleNodes at 1. rewrite visible_each_cons, getVisibleNodesRecursive_eq.
  rewrite !visible_each_shift. cbn [app]. f_equal. f_equal.
  destruct (_ && _); [|done]. apply list_fmap_ext. intros _ q _. by rewrite shift_0.
Qed.

Lemma GetVisibleNodes_nonempty (nodes : list TreeNode) :
  Forall (fun q => q <> []) (GetVisibleNodes nodes).
Proof.
  induction nodes as [|node rest IHc IHr] using forest_ind; [by constructor|].
  rewrite GetVisibleNodes_cons. apply Forall_app. split.
  - constructor; [done|]. destruct (_ && _); [|by constructor].
    apply Forall_fmap, Forall_forall. by intros q _.
  - apply Forall_fmap. eapply Forall_impl; [exact IHr|]. intros [|k r] H; [done|]. done.
Qed.

Lemma node_at_here (node : TreeNode) (rest : list TreeNode) :
  node_at (node :: rest) [0%nat] = Some node.
Proof. done. Qed.

Lemma node_at_child (node : TreeNode) (rest : list TreeNode) (q : ptr) :
  q <> [] -> node_at (node :: rest) (0%nat :: q) = node_at (Children node) q.
Proof. by destruct q. Qed.

Lemma node_at_shift (node : TreeNode) (rest : list TreeNode) (q : ptr) :
  node_at (node :: rest) (shift 1 q) = node_at rest q.
Proof. by destruct q. Qed.

(** Induction on a category: on its sub-categories. *)
Lemma Category_ind_nested (P : Category -> Prop) :
  (forall cat, Forall P (cat_Categories cat) -> P cat) -> forall cat, P cat.
Proof.
  intros H. fix go 1. intros [n d cats hosts]. apply H. cbn [cat_Categories].
  induction cats as [|c cats IH]; constructor; [apply go | exact IH].
Qed.

Lemma skeleton_eq (node : TreeNode) :
  skeleton node
  = Node (node_Name node) (node_Description node) (IsCategory node) false (Level node)
         (node_Command node) (node_Commands node) (skeleton <$> Children node).
Proof. by destruct node. Qed.

Lemma skeleton_hostNode (level : Z) (host : Host) :
  skeleton (hostNode level host) = hostNode level host.
Proof. done. Qed.

Lemma buildCategoryNode_eq (cat : Category) (level : Z) :
  buildCategoryNode cat level
  = Node (cat_Name cat) (cat_Description cat) true false level "" []
         (((fun c => buildCategoryNode c (level + 1)) <$> cat_Categories cat)
          ++ (hostNode level <$> Hosts cat)).
Proof. by destruct cat. Qed.

(** [BuildTree] builds a tree in which nothing is expanded. *)
Lemma skeleton_buildCategoryNode (cat : Category) :
  forall level, skeleton (buildCategoryNode cat level) = buildCategoryNode cat level.
Proof.
  induction cat as [cat IH] using Category_ind_nested. intros level.
  rewrite buildCategoryNode_eq, skeleton_eq. cbn [node_Name node_Description IsCategory
    Level node_Command node_Commands Children]. f_equal.
  rewrite fmap_app. f_equal.
  - rewrite <- list_fmap_compose. apply list_fmap_ext. intros i c Hc. cbn.
    eapply Forall_lookup_1 in IH; [|exact Hc]. apply IH.
  - rewrite <- list_fmap_compose. by apply list_fmap_ext.
Qed.

Lemma skeleton_BuildTree (cfg : Config) : skeleton <$> BuildTree cfg = BuildTree cfg.
Proof.
  unfold BuildTree. rewrite <- list_fmap_compose. apply list_fmap_ext.
  intros i c _. apply skeleton_buildCategoryNode.
Qed.

Lemma skeleton_set_IsExpanded (b : bool) (node : TreeNode) :
  skeleton (set_IsExpanded b node) = skeleton node.
Proof. by destruct node. Qed.

(** An assignment to [IsExpanded] changes no more than a mark. *)
Lemma skeleton_assign_IsExpanded (p : ptr) (b : bool) :
  forall nodes, skeleton <$> assign_IsExpanded nodes p b = skeleton <$> nodes.
Proof.
  induction p as [|i rest IH]; intros nodes; [done|]. cbn [assign_IsExpanded].
  destruct (nodes !! i) as [node|] eqn:Hi; [|done].
  rewrite list_fmap_insert. apply list_insert_id. rewrite list_lookup_fmap, Hi. cbn.
  f_equal. destruct rest as [|j rest']; [by rewrite skeleton_set_IsExpanded|].
  rewrite (skeleton_eq (set_Children _ _)), (skeleton_eq node).
  cbn [set_Children node_Name node_Description IsCategory
    Level node_Command node_Commands Children]. by rewrite IH.
Qed.

Lemma expandAll_node_eq (expand : bool) (node : TreeNode) :
  expandAll_node expand node
  = if IsCategory node
    then Node (node_Name node) (node_Description node) (IsCategory node) expand
              (Level node) (node_Command node) (node_Commands node)
              (expandAll (Children node) expand)
    else node.
Proof. by destruct node. Qed.

Lemma skeleton_expandAll (expand : bool) (nodes : list TreeNode) :
  skeleton <$> expandAll nodes expand = skeleton <$> nodes.
Proof.
  induction nodes as [|node rest IHc IHr] using forest_ind; [done|].
  unfold expandAll in *. rewrite !fmap_cons, IHr. f_equal.
  rewrite expandAll_node_eq. destruct (IsCategory node) eqn:Hcat; [|done].
  rewrite (skeleton_eq node), skeleton_eq. cbn [node_Name node_Description IsCategory
    Level node_Command node_Commands Children]. unfold expandAll. by rewrite IHc, Hcat.
Qed.

Lemma node_at_skeleton (p : ptr) :
  forall nodes, node_at (skeleton <$> nodes) p = skeleton <$> node_at nodes p.
Proof.
  induction p as [|i rest IH]; intros nodes; [done|]. cbn [node_at].
  rewrite list_lookup_fmap. destruct (nodes !! i) as [node|]; [|done]. cbn.
  destruct rest as [|j rest']; [done|]. rewrite <- IH. by destruct node.
Qed.

Lemma ToHost_skeleton (node : TreeNode) : ToHost (skeleton node) = ToHost node.
Proof. by destruct node. Qed.

Lemma elem_of_concat {A} (x : A) (ls : list (list A)) :
  x ∈ concat ls <-> exists l, x ∈ l /\ l ∈ ls.
Proof.
  induction ls as [|l ls IH]; cbn [concat].
  - split; [by intros ?%elem_of_nil | by intros (l & _ & ?%elem_of_nil)].
  - rewrite elem_of_app, IH. split.
    + intros [H|(l' & H1 & H2)]; [exists l | exists l']; split; try done.
      * by left.
      * by right.
    + intros (l' & H1 & [->|H2]%elem_of_cons); [by left|]. right. by exists l'.
Qed.

Lemma hosts_of_eq (cat : Category) :
  hosts_of cat = concat (hosts_of <$> cat_Categories cat) ++ Hosts cat.
Proof. by destruct cat. Qed.

Lemma ToHost_hostNode (level : Z) (host : Host) : ToHost (hostNode level host) = Some host.
Proof. by destruct host. Qed.

(** Every node below a category of the tree lies as deep as its pointer is
    long, and every host node among them is a host of the category. *)
Lemma nodes_of_category (cat : Category) :
  forall level p node,
    node_at (Children (buildCategoryNode cat level)) p = Some node ->
    Level node = level + Z.of_nat (length p) /\
    (forall host, ToHost node = Some host -> host ∈ hosts_of cat).
Proof.
  induction cat as [cat IH] using Category_ind_nested. intros level p node.
  rewrite buildCategoryNode_eq, hosts_of_eq. cbn [Children].
  destruct p as [|i rest]; [done|]. cbn [node_at]. rewrite lookup_app.
  rewrite list_lookup_fmap.
  destruct (cat_Categories cat !! i) as [c|] eqn:Hc; cbn.
  - destruct rest as [|j rest'].
    + intros [= <-]. rewrite buildCategoryNode_eq. cbn. split; [lia | done].
    + intros Hnode. eapply Forall_lookup_1 in IH; [|exact Hc].
      destruct (IH _ _ _ Hnode) as [Hlevel Hhost]. split.
      * rewrite Hlevel. cbn [length]. lia.
      * intros host Hh. apply elem_of_app. left. apply elem_of_concat.
        exists (hosts_of c). split; [by apply Hhost|].
        apply list_elem_of_fmap. exists c. split; [done|].
        by eapply list_elem_of_lookup_2.
  - rewrite list_lookup_fmap.
    destruct (Hosts cat !! _) as [host0|] eqn:Hh; cbn; [|done].
    destruct rest as [|j rest']; [|done]. intros [= <-]. split; [cbn; lia|].
    intros host. rewrite ToHost_hostNode. intros [= <-].
    apply elem_of_app. right. by eapply list_elem_of_lookup_2.
Qed.

Lemma nodes_of_BuildTree (cfg : Config) (p : ptr) (node : TreeNode) :
  node_at (BuildTree cfg) p = Some node ->
  Level node = Z.of_nat (length p) - 1 /\
  (forall host, ToHost node = Some host -> host ∈ all_hosts cfg).
Proof.
  unfold BuildTree, all_hosts. destruct p as [|i rest]; [done|]. cbn [node_at].
  rewrite list_lookup_fmap. destruct (Categories cfg !! i) as [c|] eqn:Hc; [|done]. cbn.
  destruct rest as [|j rest'].
  - intros [= <-]. rewrite buildCategoryNode_eq. cbn. split; [lia | done].
  - intros Hnode. destruct (nodes_of_category _ _ _ _ Hnode) as [Hlevel Hhost]. split.
    + rewrite Hlevel. cbn [length]. lia.
    + intros host Hh. apply elem_of_concat. exists (hosts_of c).
      split; [by apply Hhost|]. apply list_elem_of_fmap. exists c. split; [done|].
      by eapply list_elem_of_lookup_2.
Qed.

(** What [Update] keeps: the tree is the tree of the configuration, with
    marks; the visible nodes are those of the tree; the cursor is not
    negative. *)
Definition consistent (cfg : Config) (m : model) : Prop :=
  skeleton <$> roots m = BuildTree cfg /\
  visible m = GetVisibleNodes (roots m) /\
  0 <= cursor m.

Lemma initialModel_consistent (cfg : Config) : consistent cfg (initialModel cfg).
Proof.
  unfold consistent, initialModel. cbn. split; [|done].
  rewrite <- list_fmap_compose. etrans; [|apply skeleton_BuildTree].
  apply list_fmap_ext. intros i node _. cbn. apply (skeleton_set_IsExpanded true).
Qed.

Lemma index_of_ge (parent : ptr) (nodes : list ptr) :
  forall i j, index_of parent i nodes = Some j -> i <= j < i + Z.of_nat (length nodes).
Proof.
  induction nodes as [|n rest IH]; intros i j; [done|]. cbn [index_of length].
  destruct (decide (n = parent)).
  - intros [= <-]. lia.
  - intros H. apply IH in H. lia.
Qed.

Lemma Update_consistent (cfg : Config) (m : model) (msg : Msg) :
  consistent cfg m -> consistent cfg (Update m msg).1.
Proof.
  intros (Hroots & Hvisible & Hcursor). unfold consistent.
  assert (Hexpand : forall p b,
            skeleton <$> roots (expand_at m p b) = BuildTree cfg /\
            visible (expand_at m p b) = GetVisibleNodes (roots (expand_at m p b)) /\
            0 <= cursor (expand_at m p b)).
  { intros p b. unfold expand_at. cbn. by rewrite skeleton_assign_IsExpanded. }
  destruct msg as [w h|key|]; [done| |done]. unfold Update.
  destruct (is_key key ["ctrl+c"; "q"]); [done|].
  destruct (is_key key ["up"; "k"]).
  { cbn [fst]. destruct (Z.ltb_spec 0 (cursor m)); [|done]. cbn. repeat split; [done..|lia]. }
  destruct (is_key key ["down"; "j"]).
  { cbn [fst]. destruct (_ <? _); [|done]. cbn. repeat split; [done..|lia]. }
  destruct (is_key key ["left"; "h"]).
  { destruct (under_cursor m) as [[p node]|]; [|done].
    destruct (_ && _); [apply Hexpand|].
    destruct (Parent p) as [parent|]; [|done].
    destruct (index_of parent 0 (visible m)) as [i|] eqn:Hi; [|done].
    apply index_of_ge in Hi. cbn. repeat split; [done..|lia]. }
  destruct (is_key key ["right"; "l"]).
  { destruct (under_cursor m) as [[p node]|]; [|done].
    destruct (_ && _); [apply Hexpand | done]. }
  destruct (is_key key ["enter"; " "]).
  { destruct (under_cursor m) as [[p node]|]; [|done].
    destruct (IsCategory node); [apply Hexpand | done]. }
  destruct (String.eqb key "e").
  { cbn. by rewrite skeleton_expandAll. }
  destruct (String.eqb key "c"); [|done].
  cbn. by rewrite skeleton_expandAll.
Qed.

Lemma run_consistent (cfg : Config) (msgs : list Msg) :
  forall m, consistent cfg m -> consistent cfg (run m msgs).
Proof.
  induction msgs as [|msg rest IH]; intros m Hm; [done|]. cbn [run].
  pose proof (Update_consistent cfg m msg Hm) as H.
  destruct (Update m msg) as [m' [|]]; [done|]. by apply IH.
Qed.

(** X23: only a configured host is returned.  Whatever messages the
    program receives, the host that [Run] returns, if any, is one of the
    hosts of the configuration. *)
Theorem Run_returns_configured_host (cfg : Config) (msgs : list Msg) (host : Host) :
  Run cfg msgs = Some host -> host ∈ all_hosts cfg.
Proof.
  unfold Run. cbv zeta.
  destruct (run_consistent cfg msgs _ (initialModel_consistent cfg)) as (Hroots & _ & _).
  destruct (selectedHost _) as [p|]; [|done].
  destruct (node_at _ p) as [node|] eqn:Hnode; [|done]. cbn. intros Hhost.
  assert (Hat : node_at (BuildTree cfg) p = Some (skeleton node)).
  { by rewrite <- Hroots, node_at_skeleton, Hnode. }
  apply nodes_of_BuildTree in Hat as [_ Hat]. apply Hat. by rewrite ToHost_skeleton.
Qed.

Lemma countHostsInNode_eq (node : TreeNode) :
  countHostsInNode node
  = if negb (IsCategory node) then 1 else countHosts (Children node).
Proof. by destruct node. Qed.

Lemma fold_left_count {A} (f : A -> Z) (l : list A) (a : Z) :
  fold_left (fun count x => count + f x) l a
  = a + fold_left (fun count x => count + f x) l 0.
Proof.
  revert a. induction l as [|x l IH]; intros a; cbn [fold_left]; [lia|].
  rewrite (IH (a + f x)), (IH (0 + f x)). lia.
Qed.

Lemma countHosts_cons (node : TreeNode) (rest : list TreeNode) :
  countHosts (node :: rest) = countHostsInNode node + countHosts rest.
Proof. unfold countHosts. cbn [fold_left]. rewrite fold_left_count. lia. Qed.

Lemma countHosts_app (l1 l2 : list TreeNode) :
  countHosts (l1 ++ l2) = countHosts l1 + countHosts l2.
Proof.
  induction l1 as [|n l1 IH]; [done|]. cbn [app]. rewrite !countHosts_cons, IH. lia.
Qed.

Lemma countHosts_skeleton (nodes : list TreeNode) :
  countHosts (skeleton <$> nodes) = countHosts nodes.
Proof.
  induction nodes as [|node rest IHc IHr] using forest_ind; [done|].
  rewrite fmap_cons, !countHosts_cons, IHr. f_equal.
  rewrite !countHostsInNode_eq, skeleton_eq. cbn [IsCategory Children].
  destruct (IsCategory node); [|done]. exact IHc.
Qed.

Lemma countHosts_hostNodes (level : Z) (hosts : list Host) :
  countHosts (hostNode level <$> hosts) = Z.of_nat (length hosts).
Proof.
  induction hosts as [|h hosts IH]; [done|]. rewrite fmap_cons, countHosts_cons, IH.
  cbn [length]. rewrite countHostsInNode_eq. cbn. lia.
Qed.

Lemma countHostsInNode_build (cat : Category) :
  forall level,
    countHostsInNode (buildCategoryNode cat level) = Z.of_nat (length (hosts_of cat)).
Proof.
  induction cat as [cat IH] using Category_ind_nested. intros level.
  rewrite countHostsInNode_eq, buildCategoryNode_eq, hosts_of_eq. cbn [IsCategory negb Children].
  rewrite countHosts_app, countHosts_hostNodes, length_app, Nat2Z.inj_add. f_equal.
  induction IH as [|c cats Hc _ IHcats]; [done|].
  rewrite !fmap_cons, countHosts_cons, IHcats, Hc. cbn [concat].
  rewrite length_app. lia.
Qed.

Lemma countHosts_BuildTree (cfg : Config) :
  countHosts (BuildTree cfg) = Z.of_nat (length (all_hosts cfg)).
Proof.
  unfold BuildTree, all_hosts. induction (Categories cfg) as [|c cats IH]; [done|].
  rewrite !fmap_cons, countHosts_cons, IH, countHostsInNode_build. cbn [concat].
  rewrite length_app. lia.
Qed.

(** X24: what every state of the screen keeps.  Whatever messages the
    program has received, the visible nodes are those of the tree
    ([GetVisibleNodes] of the roots), the cursor is not negative, the
    number of hosts in the header ([countHosts]) is the number of hosts of
    the configuration, and every node lies as deep ([Level], the
    indentation on the screen) as its place in the tree. *)
Theorem screen_stays_consistent (cfg : Config) (msgs : list Msg) :
  let m := run (initialModel cfg) msgs in
  visible m = GetVisibleNodes (roots m) /\
  0 <= cursor m /\
  countHosts (roots m) = Z.of_nat (length (all_hosts cfg)) /\
  (forall p node, node_at (roots m) p = Some node ->
                  Level node = Z.of_nat (length p) - 1).
Proof.
  cbv zeta.
  destruct (run_consistent cfg msgs _ (initialModel_consistent cfg))
    as (Hroots & Hvisible & Hcursor).
  split; [done|]. split; [done|]. split.
  - by rewrite <- countHosts_skeleton, Hroots, countHosts_BuildTree.
  - intros p node Hnode.
    assert (Hat : node_at (BuildTree cfg) p = Some (skeleton node)).
    { by rewrite <- Hroots, node_at_skeleton, Hnode. }
    apply nodes_of_BuildTree in Hat as [Hlevel _]. by destruct node.
Qed.

Lemma omap_fmap_ext {A B C} (f : B -> option C) (g : A -> B) (h : A -> option C)
    (l : list A) :
  Forall (fun x => f (g x) = h x) l -> omap f (g <$> l) = omap h l.
Proof.
  induction 1 as [|x l Hx _ IH]; [done|]. rewrite fmap_cons. cbn [omap list_omap].
  by rewrite Hx, IH.
Qed.

(** The hosts on the screen: the first tree if it is a host, the hosts
    shown below it if it is an expanded category, and the hosts shown in
    the other trees. *)
Lemma hosts_shown_cons (node : TreeNode) (rest : list TreeNode) :
  hosts_shown (node :: rest)
  = option_list (ToHost node)
    ++ (if IsCategory node && IsExpanded node then hosts_shown (Children node) else [])
    ++ hosts_shown rest.
Proof.
  unfold hosts_shown. rewrite GetVisibleNodes_cons.
  assert (Hhead : omap (fun p => node_at (node :: rest) p ≫= ToHost) [[0%nat]]
                  = option_list (ToHost node)).
  { cbn. by destruct (ToHost node). }
  assert (Hrest : omap (fun p => node_at (node :: rest) p ≫= ToHost)
                    (shift 1 <$> GetVisibleNodes rest)
                  = omap (fun p => node_at rest p ≫= ToHost) (GetVisibleNodes rest)).
  { apply omap_fmap_ext, Forall_forall. intros q _. by rewrite node_at_shift. }
  change ([0%nat] :: ?l) with ([[0%nat]] ++ l).
  rewrite !omap_app, Hhead, Hrest, <- app_assoc. f_equal. f_equal.
  destruct (_ && _); [|done]. apply omap_fmap_ext.
  eapply Forall_impl; [apply GetVisibleNodes_nonempty|].
  intros q Hq. cbn beta. by rewrite node_at_child.
Qed.

Lemma hosts_shown_app (l1 l2 : list TreeNode) :
  hosts_shown (l1 ++ l2) = hosts_shown l1 ++ hosts_shown l2.
Proof.
  induction l1 as [|n l1 IH]; [done|]. cbn [app].
  rewrite !hosts_shown_cons, IH. by rewrite !app_assoc.
Qed.

Lemma ToHost_category (node : TreeNode) : IsCategory node = true -> ToHost node = None.
Proof. unfold ToHost. by intros ->. Qed.

Lemma hosts_shown_hostNodes (level : Z) (hosts : list Host) :
  forall nodes,
    skeleton <$> nodes = hostNode level <$> hosts ->
    hosts_shown (expandAll nodes true) = hosts.
Proof.
  induction hosts as [|h hosts IH]; intros nodes Hnodes.
  - by apply fmap_nil_inv in Hnodes as ->.
  - destruct nodes as [|n nodes]; [done|]. rewrite !fmap_cons in Hnodes.
    injection Hnodes as Hn Hnodes. unfold expandAll. rewrite fmap_cons.
    rewrite hosts_shown_cons, expandAll_node_eq.
    assert (Hcat : IsCategory n = false).
    { apply (f_equal IsCategory) in Hn. by destruct n. }
    rewrite !Hcat. cbn [andb]. rewrite <- ToHost_skeleton, Hn, ToHost_hostNode.
    change (option_list (Some h)) with [h]. cbn [app]. f_equal. by apply IH.
Qed.

(** With everything expanded, the hosts of a category are on the screen in
    the order of the configuration. *)
Lemma hosts_shown_category (cat : Category) :
  forall level node,
    skeleton node = buildCategoryNode cat level ->
    hosts_shown (expandAll [node] true) = hosts_of cat.
Proof.
  induction cat as [cat IH] using Category_ind_nested. intros level node Hnode.
  rewrite buildCategoryNode_eq, skeleton_eq in Hnode.
  injection Hnode as _ _ Hcat _ _ _ Hchildren.
  unfold expandAll. cbn [fmap list_fmap]. rewrite hosts_shown_cons, expandAll_node_eq, Hcat.
  cbn [IsCategory IsExpanded andb Children]. rewrite ToHost_category by done.
  change (hosts_shown []) with (@nil Host).
  change (option_list None) with (@nil Host).
  cbn [app]. rewrite app_nil_r, hosts_of_eq.
  apply fmap_app_inv in Hchildren as (cs1 & cs2 & Hcs1 & Hcs2 & ->).
  symmetry in Hcs1, Hcs2.
  unfold expandAll. rewrite fmap_app, hosts_shown_app. f_equal.
  - clear Hcs2. revert cs1 Hcs1.
    induction IH as [|c cats Hc _ IHcats]; intros cs1 Hcs1.
    + by apply fmap_nil_inv in Hcs1 as ->.
    + destruct cs1 as [|n cs1]; [done|]. rewrite !fmap_cons in Hcs1.
      injection Hcs1 as Hn Hcs1. rewrite !fmap_cons. cbn [concat].
      change (hosts_shown ([expandAll_node true n] ++ (expandAll_node true <$> cs1))
              = hosts_of c ++ concat (hosts_of <$> cats)).
      rewrite hosts_shown_app. f_equal; [|by apply IHcats].
      by apply (Hc (level + 1)).
  - by apply (hosts_shown_hostNodes level).
Qed.

Lemma hosts_shown_all (cfg : Config) (nodes : list TreeNode) :
  skeleton <$> nodes = BuildTree cfg ->
  hosts_shown (expandAll nodes true) = all_hosts cfg.
Proof.
  unfold BuildTree, all_hosts. revert nodes.
  induction (Categories cfg) as [|c cats IH]; intros nodes Hnodes.
  - by apply fmap_nil_inv in Hnodes as ->.
  - destruct nodes as [|n nodes]; [done|]. rewrite !fmap_cons in Hnodes.
    injection Hnodes as Hn Hnodes. unfold expandAll. rewrite !fmap_cons. cbn [concat].
    change (hosts_shown ([expandAll_node true n] ++ (expandAll_node true <$> nodes))
            = hosts_of c ++ concat (hosts_of <$> cats)).
    rewrite hosts_shown_app. f_equal; [|by apply IH].
    by apply (hosts_shown_category c 0).
Qed.

Lemma GetVisibleNodes_collapsed (nodes : list TreeNode) :
  GetVisibleNodes (expandAll nodes false) = (fun i => [i]) <$> seq 0 (length nodes).
Proof.
  induction nodes as [|node rest IH]; [done|].
  unfold expandAll in *. rewrite fmap_cons, GetVisibleNodes_cons, IH.
  assert (IsCategory (expandAll_node false node) && IsExpanded (expandAll_node false node)
          = false) as ->.
  { rewrite expandAll_node_eq. destruct (IsCategory node) eqn:E; [by rewrite andb_false_r|].
    by rewrite E. }
  cbn [app length seq]. rewrite fmap_cons. f_equal.
  rewrite <- fmap_S_seq, <- !list_fmap_compose. by apply list_fmap_ext.
Qed.

(** X25: expand all and collapse all.  In every state of the screen, the
    key [e] puts every host of the configuration on the screen, once each
    and in the order of the configuration (the hosts of the sub-categories
    before the hosts of a category), and the key [c] leaves the top
    categories alone on the screen. *)
Theorem expand_all_collapse_all (cfg : Config) (msgs : list Msg) :
  let m := run (initialModel cfg) msgs in
  let expanded := (Update m (KeyMsg "e")).1 in
  let collapsed := (Update m (KeyMsg "c")).1 in
  omap (fun p => node_at (roots expanded) p ≫= ToHost) (visible expanded) = all_hosts cfg /\
  visible collapsed = (fun i => [i]) <$> seq 0 (length (Categories cfg)).
Proof.
  cbv zeta.
  destruct (run_consistent cfg msgs _ (initialModel_consistent cfg)) as (Hroots & _ & _).
  cbn [Update is_key existsb String.eqb Ascii.eqb Bool.eqb orb fst visible roots].
  split.
  - by apply hosts_shown_all.
  - rewrite GetVisibleNodes_collapsed. f_equal. f_equal.
    apply (f_equal length) in Hroots. rewrite length_fmap in Hroots. rewrite Hroots.
    unfold BuildTree. by rewrite length_fmap.
Qed.

Lemma assign_here (node : TreeNode) (rest : list TreeNode) (b : bool) :
  assign_IsExpanded (node :: rest) [0%nat] b = set_IsExpanded b node :: rest.
Proof. done. Qed.

Lemma assign_child (node : TreeNode) (rest : list TreeNode) (q : ptr) (b : bool) :
  q <> [] ->
  assign_IsExpanded (node :: rest) (0%nat :: q) b
  = set_Children (assign_IsExpanded (Children node) q b) node :: rest.
Proof. by destruct q. Qed.

Lemma assign_shift (node : TreeNode) (rest : list TreeNode) (q : ptr) (b : bool) :
  assign_IsExpanded (node :: rest) (shift 1 q) b = node :: assign_IsExpanded rest q b.
Proof.
  destruct q as [|k r]; [done|]. cbn [shift Nat.add assign_IsExpanded].
  change ((node :: rest) !! S k) with (rest !! k). by destruct (rest !! k).
Qed.

(** An assignment to [IsExpanded] through a visible pointer leaves the
    visible nodes as they are up to that pointer. *)
Lemma assign_keeps_above (nodes : list TreeNode) :
  forall c q b,
    GetVisibleNodes nodes !! c = Some q ->
    take (S c) (GetVisibleNodes (assign_IsExpanded nodes q b))
    = take (S c) (GetVisibleNodes nodes).
Proof.
  induction nodes as [|node rest IHc IHr] using forest_ind; intros c q b Hq; [done|].
  rewrite GetVisibleNodes_cons in Hq |- *.
  set (cond := IsCategory node && IsExpanded node) in *.
  destruct c as [|c'].
  { injection Hq as <-. rewrite assign_here, GetVisibleNodes_cons. done. }
  change (([0%nat] :: ?l1) ++ ?l2) with ([0%nat] :: (l1 ++ l2)) in Hq |- *.
  change ((?x :: ?l) !! S c') with (l !! c') in Hq.
  apply lookup_app_Some in Hq as [Hq|[Hge Hq]].
  - destruct cond eqn:Hcond; [|done].
    apply list_lookup_fmap_Some in Hq as (q' & -> & Hq').
    assert (Hne : q' <> []).
    { eapply (Forall_lookup_1 _ _ _ _ (GetVisibleNodes_nonempty (Children node))), Hq'. }
    rewrite assign_child, GetVisibleNodes_cons by done.
    assert (IsCategory (set_Children (assign_IsExpanded (Children node) q' b) node)
            && IsExpanded (set_Children (assign_IsExpanded (Children node) q' b) node)
            = true) as ->.
    { unfold cond in Hcond. by destruct node. }
    change (Children (set_Children ?cs node)) with cs.
    specialize (IHc c' q' b Hq').
    assert (Hlt : (c' < length (GetVisibleNodes (Children node)))%nat).
    { by eapply lookup_lt_Some. }
    assert (Hlen : (S c' <= length (GetVisibleNodes
                                     (assign_IsExpanded (Children node) q' b)))%nat).
    { apply (f_equal length) in IHc. rewrite !length_take in IHc. lia. }
    cbn [app take]. f_equal.
    rewrite !take_app_le by (rewrite length_fmap; lia).
    by rewrite <- !fmap_take, IHc.
  - apply list_lookup_fmap_Some in Hq as (q' & -> & Hq').
    rewrite assign_shift, GetVisibleNodes_cons. fold cond.
    cbn [app take]. f_equal.
    rewrite !take_app_ge by lia. f_equal.
    specialize (IHr _ q' b Hq').
    replace (S c' - length (if cond then cons 0%nat <$> GetVisibleNodes (Children node)
                            else []))%nat
      with (S (c' - length (if cond then cons 0%nat <$> GetVisibleNodes (Children node)
                            else [])))%nat by lia.
    by rewrite <- !fmap_take, IHr.
Qed.

Lemma expandAll_shows_more (nodes : list TreeNode) :
  (length (GetVisibleNodes nodes) <= length (GetVisibleNodes (expandAll nodes true)))%nat.
Proof.
  induction nodes as [|node rest IHc IHr] using forest_ind; [done|].
  unfold expandAll in *. rewrite fmap_cons, !GetVisibleNodes_cons, !length_app.
  cbn [length]. rewrite !length_fmap.
  assert ((length (if IsCategory node && IsExpanded node
                   then cons 0%nat <$> GetVisibleNodes (Children node) else [])
           <= length (if IsCategory (expandAll_node true node)
                         && IsExpanded (expandAll_node true node)
                      then cons 0%nat <$> GetVisibleNodes (Children (expandAll_node true node))
                      else []))%nat); [|lia].
  rewrite expandAll_node_eq. destruct (IsCategory node) eqn:Hcat.
  - cbn [IsCategory IsExpanded Children andb].
    destruct (IsExpanded node); rewrite ?length_fmap; [exact IHc | cbn; lia].
  - by rewrite Hcat.
Qed.

(** The cursor is on a row of the screen. *)
Definition on_a_row (m : model) : Prop :=
  0 <= cursor m < Z.of_nat (length (visible m)).

Lemma under_cursor_visible (m : model) (p : ptr) (node : TreeNode) :
  under_cursor m = Some (p, node) -> visible m !! Z.to_nat (cursor m) = Some p.
Proof.
  unfold under_cursor. destruct (_ <? _); [|done].
  destruct (visible m !! _) as [p'|]; [|done].
  destruct (node_at _ _); [|done]. by intros [= <- _].
Qed.

Lemma Update_on_a_row (cfg : Config) (m : model) (msg : Msg) :
  msg <> KeyMsg "c" -> consistent cfg m -> on_a_row m -> on_a_row (Update m msg).1.
Proof.
  intros Hmsg (_ & Hvisible & _) [H0 Hlt]. unfold on_a_row.
  assert (Hexpand : forall p node b,
            under_cursor m = Some (p, node) ->
            0 <= cursor (expand_at m p b)
            < Z.of_nat (length (visible (expand_at m p b)))).
  { intros p node b Hp%under_cursor_visible. unfold expand_at. cbn [cursor visible].
    split; [done|]. rewrite Hvisible in Hp.
    pose proof (assign_keeps_above _ _ _ b Hp) as Hkeep.
    apply (f_equal length) in Hkeep. rewrite !length_take in Hkeep.
    rewrite Hvisible in Hlt. lia. }
  destruct msg as [w h|key|]; [done| |done]. unfold Update.
  destruct (is_key key ["ctrl+c"; "q"]); [done|].
  destruct (is_key key ["up"; "k"]).
  { cbn [fst]. destruct (Z.ltb_spec 0 (cursor m)); [|done]. cbn. lia. }
  destruct (is_key key ["down"; "j"]).
  { cbn [fst]. destruct (Z.ltb_spec (cursor m) (Z.of_nat (length (visible m)) - 1));
      [|done]. cbn. lia. }
  destruct (is_key key ["left"; "h"]).
  { destruct (under_cursor m) as [[p node]|] eqn:Hp; [|done].
    destruct (_ && _); [by eapply Hexpand|].
    destruct (Parent p) as [parent|]; [|done].
    destruct (index_of parent 0 (visible m)) as [i|] eqn:Hi; [|done].
    apply index_of_ge in Hi. cbn. lia. }
  destruct (is_key key ["right"; "l"]).
  { destruct (under_cursor m) as [[p node]|] eqn:Hp; [|done].
    destruct (_ && _); [by eapply Hexpand | done]. }
  destruct (is_key key ["enter"; " "]).
  { destruct (under_cursor m) as [[p node]|] eqn:Hp; [|done].
    destruct (IsCategory node); [by eapply Hexpand | done]. }
  destruct (String.eqb key "e").
  { cbn. split; [done|]. pose proof (expandAll_shows_more (roots m)) as Hmore.
    rewrite Hvisible in Hlt. lia. }
  destruct (String.eqb_spec key "c") as [->|]; [done | done].
Qed.

(** X26: the cursor stays on a row.  As long as the key [c] (collapse all)
    is not pressed, the cursor is on one of the rows of the screen after
    every message: moving, expanding, collapsing the category under the
    cursor, going to the parent and expanding all never take it off the
    list of visible nodes. *)
Theorem cursor_stays_on_a_row (cfg : Config) (msgs : list Msg) :
  Categories cfg <> [] ->
  Forall (fun msg => msg <> KeyMsg "c") msgs ->
  let m := run (initialModel cfg) msgs in
  0 <= cursor m < Z.of_nat (length (visible m)).
Proof.
  intros Hcfg Hmsgs. cbv zeta.
  assert (Hinit : on_a_row (initialModel cfg)).
  { unfold on_a_row, initialModel, BuildTree. cbn [cursor visible].
    destruct (Categories cfg) as [|c cats]; [done|]. rewrite !fmap_cons, GetVisibleNodes_cons.
    cbn [app length]. lia. }
  pose proof (initialModel_consistent cfg) as Hcons.
  revert Hinit Hcons. generalize (initialModel cfg).
  induction Hmsgs as [|msg rest Hmsg _ IH]; intros m Hrow Hcons; [done|]. cbn [run].
  pose proof (Update_on_a_row cfg m msg Hmsg Hcons Hrow) as Hrow'.
  pose proof (Update_consistent cfg m msg Hcons) as Hcons'.
  destruct (Update m msg) as [m' [|]]; [done|]. by apply IH.
Qed.

End TreeUI.

(** ** The host tree at a small configuration. *)
Module TreeChecks.
Import Config TreeUI.

Definition web : Host := MkHost "web" "web server" "ssh web" [].

Definition db : Host := MkHost "db" "database" "" ["ssh jump"; "ssh db"].

Definition sample : Config :=
  {| Categories := [MkCategory "Production" "" [MkCategory "Data" "" [] [db]] [web];
                    MkCategory "Staging" "" [] []] |}.

Lemma Run_returns_configured_host_witness : db ∈ all_hosts sample.
Proof.
  apply (Run_returns_configured_host sample
           [WindowSizeMsg 80 24; KeyMsg "down"; KeyMsg "right"; KeyMsg "j"; KeyMsg "enter"] db).
  reflexivity.
Defined.

Lemma cursor_stays_on_a_row_witness :
  let m := run (initialModel sample)
             [KeyMsg "down"; KeyMsg "down"; KeyMsg "e"; KeyMsg "left"; KeyMsg "h"] in
  0 <= cursor m < Z.of_nat (length (visible m)).
Proof.
  apply (cursor_stays_on_a_row sample
           [KeyMsg "down"; KeyMsg "down"; KeyMsg "e"; KeyMsg "left"; KeyMsg "h"]).
  - discriminate.
  - repeat constructor; discriminate.
Defined.

End TreeChecks.

(** ** The password manager on the screen: the package [ui], file
    [password_manager.go]. *)
Module Manager.

(** [passwordManagerModel]; [store] is a pointer in Go, and the store it
    points to is the one of this record. *)
Record passwordManagerModel := Model {
  store : Store.PasswordStore;
  masterPwd : string;
  mode : string;
  entries : list Store.PasswordEntry;
  cursor : Z;
  width : Z;
  height : Z;
  inputID : string;
  inputDesc : string;
  inputPwd : string;
  inputOldPwd : string;
  inputNewPwd : string;
  inputConfirmPwd : string;
  inputField : Z;
  message : string;
  messageType : string;
  quitting : bool;
  passwordAdded : bool;
  viewingPassword : string;
}.

(** The messages of the library: the two that [Update] looks at, a key
    being given by its name ([msg.String()]), and any other. *)
Inductive Msg :=
| WindowSizeMsg (Width Height : Z)
| KeyMsg (key : string)
| OtherMsg.

(** The command [Update] returns: [tea.Quit] or [nil]. *)
Inductive Cmd := Quit | NoCmd.

(** The assignments to the fields. *)
Definition set_store (v : Store.PasswordStore) (m : passwordManagerModel) :
        passwordManagerModel :=
  Model v (masterPwd m) (mode m) (entries m) (cursor m) (width m) (height m) (inputID
        m) (inputDesc m) (inputPwd m) (inputOldPwd m) (inputNewPwd m) (inputConfirmPwd
        m) (inputField m) (message m) (messageType m) (quitting m) (passwordAdded m)
        (viewingPassword m).

Definition set_masterPwd (v : string) (m : passwordManagerModel) : passwordManagerModel
        :=
  Model (store m) v (mode m) (entries m) (cursor m) (width m) (height m) (inputID m)
        (inputDesc m) (inputPwd m) (inputOldPwd m) (inputNewPwd m) (inputConfirmPwd m)
        (inputField m) (message m) (messageType m) (quitting m) (passwordAdded m)
        (viewingPassword m).

Definition set_mode (v : string) (m : passwordManagerModel) : passwordManagerModel :=
  Model (store m) (masterPwd m) v (entries m) (cursor m) (width m) (height m) (inputID
        m) (inputDesc m) (inputPwd m) (inputOldPwd m) (inputNewPwd m) (inputConfirmPwd
        m) (inputField m) (message m) (messageType m) (quitting m) (passwordAdded m)
        (viewingPassword m).

Definition set_entries (v : list Store.PasswordEntry) (m : passwordManagerModel) :
        passwordManagerModel :=
  Model (store m) (masterPwd m) (mode m) v (cursor m) (width m) (height m) (inputID m)
        (inputDesc m) (inputPwd m) (inputOldPwd m) (inputNewPwd m) (inputConfirmPwd m)
        (inputField m) (message m) (messageType m) (quitting m) (passwordAdded m)
        (viewingPassword m).

Definition set_cursor (v : Z) (m : passwordManagerModel) : passwordManagerModel :=
  Model (store m) (masterPwd m) (mode m) (entries m) v (width m) (height m) (inputID m)
        (inputDesc m) (inputPwd m) (inputOldPwd m) (inputNewPwd m) (inputConfirmPwd m)
        (inputField m) (message m) (messageType m) (quitting m) (passwordAdded m)
        (viewingPassword m).

Definition set_width (v : Z) (m : passwordManagerModel) : passwordManagerModel :=
  Model (store m) (masterPwd m) (mode m) (entries m) (cursor m) v (height m) (inputID
        m) (inputDesc m) (inputPwd m) (inputOldPwd m) (inputNewPwd m) (inputConfirmPwd
        m) (inputField m) (message m) (messageType m) (quitting m) (passwordAdded m)
        (viewingPassword m).

Definition set_height (v : Z) (m : passwordManagerModel) : passwordManagerModel :=
  Model (store m) (masterPwd m) (mode m) (entries m) (cursor m) (width m) v (inputID m)
        (inputDesc m) (inputPwd m) (inputOldPwd m) (inputNewPwd m) (inputConfirmPwd m)
        (inputField m) (message m) (messageType m) (quitting m) (passwordAdded m)
        (viewingPassword m).

Definition set_inputID (v : string) (m : passwordManagerModel) : passwordManagerModel :=
  Model (store m) (masterPwd m) (mode m) (entries m) (cursor m) (width m) (height m) v
        (inputDesc m) (inputPwd m) (inputOldPwd m) (inputNewPwd m) (inputConfirmPwd m)
        (inputField m) (message m) (messageType m) (quitting m) (passwordAdded m)
        (viewingPassword m).

Definition set_inputDesc (v : string) (m : passwordManagerModel) : passwordManagerModel
        :=
  Model (store m) (masterPwd m) (mode m) (entries m) (cursor m) (width m) (height m)
        (inputID m) v (inputPwd m) (inputOldPwd m) (inputNewPwd m) (inputConfirmPwd m)
        (inputField m) (message m) (messageType m) (quitting m) (passwordAdded m)
        (viewingPassword m).

Definition set_inputPwd (v : string) (m : passwordManagerModel) : passwordManagerModel
        :=
  Model (store m) (masterPwd m) (mode m) (entries m) (cursor m) (width m) (height m)
        (inputID m) (inputDesc m) v (inputOldPwd m) (inputNewPwd m) (inputConfirmPwd m)
        (inputField m) (message m) (messageType m) (quitting m) (passwordAdded m)
        (viewingPassword m).

Definition set_inputOldPwd (v : string) (m : passwordManagerModel) :
        passwordManagerModel :=
  Model (store m) (masterPwd m) (mode m) (entries m) (cursor m) (width m) (height m)
        (inputID m) (inputDesc m) (inputPwd m) v (inputNewPwd m) (inputConfirmPwd m)
        (inputField m) (message m) (messageType m) (quitting m) (passwordAdded m)
        (viewingPassword m).

Definition set_inputNewPwd (v : string) (m : passwordManagerModel) :
        passwordManagerModel :=
  Model (store m) (masterPwd m) (mode m) (entries m) (cursor m) (width m) (height m)
        (inputID m) (inputDesc m) (inputPwd m) (inputOldPwd m) v (inputConfirmPwd m)
        (inputField m) (message m) (messageType m) (quitting m) (passwordAdded m)
        (viewingPassword m).

Definition set_inputConfirmPwd (v : string) (m : passwordManagerModel) :
        passwordManagerModel :=
  Model (store m) (masterPwd m) (mode m) (entries m) (cursor m) (width m) (height m)
        (inputID m) (inputDesc m) (inputPwd m) (inputOldPwd m) (inputNewPwd m) v
        (inputField m) (message m) (messageType m) (quitting m) (passwordAdded m)
        (viewingPassword m).

Definition set_inputField (v : Z) (m : passwordManagerModel) : passwordManagerModel :=
  Model (store m) (masterPwd m) (mode m) (entries m) (cursor m) (width m) (height m)
        (inputID m) (inputDesc m) (inputPwd m) (inputOldPwd m) (inputNewPwd m)
        (inputConfirmPwd m) v (message m) (messageType m) (quitting m) (passwordAdded
        m) (viewingPassword m).

Definition set_message (v : string) (m : passwordManagerModel) : passwordManagerModel :=
  Model (store m) (masterPwd m) (mode m) (entries m) (cursor m) (width m) (height m)
        (inputID m) (inputDesc m) (inputPwd m) (inputOldPwd m) (inputNewPwd m)
        (inputConfirmPwd m) (inputField m) v (messageType m) (quitting m)
        (passwordAdded m) (viewingPassword m).

Definition set_messageType (v : string) (m : passwordManagerModel) :
        passwordManagerModel :=
  Model (store m) (masterPwd m) (mode m) (entries m) (cursor m) (width m) (height m)
        (inputID m) (inputDesc m) (inputPwd m) (inputOldPwd m) (inputNewPwd m)
        (inputConfirmPwd m) (inputField m) (message m) v (quitting m) (passwordAdded m)
        (viewingPassword m).

Definition set_quitting (v : bool) (m : passwordManagerModel) : passwordManagerModel :=
  Model (store m) (masterPwd m) (mode m) (entries m) (cursor m) (width m) (height m)
        (inputID m) (inputDesc m) (inputPwd m) (inputOldPwd m) (inputNewPwd m)
        (inputConfirmPwd m) (inputField m) (message m) (messageType m) v (passwordAdded
        m) (viewingPassword m).

Definition set_passwordAdded (v : bool) (m : passwordManagerModel) :
        passwordManagerModel :=
  Model (store m) (masterPwd m) (mode m) (entries m) (cursor m) (width m) (height m)
        (inputID m) (inputDesc m) (inputPwd m) (inputOldPwd m) (inputNewPwd m)
        (inputConfirmPwd m) (inputField m) (message m) (messageType m) (quitting m) v
        (viewingPassword m).

Definition set_viewingPassword (v : string) (m : passwordManagerModel) :
        passwordManagerModel :=
  Model (store m) (masterPwd m) (mode m) (entries m) (cursor m) (width m) (height m)
        (inputID m) (inputDesc m) (inputPwd m) (inputOldPwd m) (inputNewPwd m)
        (inputConfirmPwd m) (inputField m) (message m) (messageType m) (quitting m)
        (passwordAdded m) v.

(** [s[:len(s)-1]] for a string that is not empty. *)
Fixpoint drop_last (s : string) : string :=
  match s with
  | EmptyString => EmptyString
  | String c EmptyString => EmptyString
  | String c r => String c (drop_last r)
  end.

(** The case [backspace] for one field. *)
Definition backspace (s : string) : string :=
  if 0 <? Z.of_nat (String.length s) then drop_last s else s.

Definition is_key (key : string) (names : list string) : bool :=
  existsb (String.eqb key) names.

(** [initialPasswordManagerModel]. *)
Definition initialPasswordManagerModel (w : Store.World) (store : Store.PasswordStore)
    (masterPwd : string) : passwordManagerModel :=
  Model store masterPwd "menu" (StoreFacts.List w store) 0 0 0 "" "" "" "" "" "" 0 "" ""
        false false "".

(** [updateMenu]. *)
Definition updateMenu (w : Store.World) (m : passwordManagerModel) (key : string)
  : passwordManagerModel * Cmd :=
  if is_key key ["ctrl+c"; "q"; "esc"] then (set_quitting true m, Quit)
  else if is_key key ["up"; "k"] then
    (if 0 <? cursor m then set_cursor (cursor m - 1) m else m, NoCmd)
  else if is_key key ["down"; "j"] then
    (if cursor m <? 5 then set_cursor (cursor m + 1) m else m, NoCmd)
  else if is_key key ["enter"; " "] then
    if cursor m =? 0 then
      (set_message "" (set_inputField 0 (set_inputPwd "" (set_inputDesc ""
         (set_inputID "" (set_mode "add" m))))), NoCmd)
    else if cursor m =? 1 then
      (set_viewingPassword "" (set_message "" (set_cursor 0
         (set_entries (StoreFacts.List w (store m)) (set_mode "view" m)))), NoCmd)
    else if cursor m =? 2 then
      (set_message "" (set_cursor 0
         (set_entries (StoreFacts.List w (store m)) (set_mode "list" m))), NoCmd)
    else if cursor m =? 3 then
      (set_message "" (set_cursor 0
         (set_entries (StoreFacts.List w (store m)) (set_mode "remove" m))), NoCmd)
    else if cursor m =? 4 then
      (set_message "" (set_inputField 0 (set_inputConfirmPwd "" (set_inputNewPwd ""
         (set_inputOldPwd "" (set_mode "change-master" m))))), NoCmd)
    else if cursor m =? 5 then (set_quitting true m, Quit)
    else (m, NoCmd)
  else (m, NoCmd).

Section WithLib.
Context `{L : Store.Lib}.

(** [updateAdd]. *)
Definition updateAdd (w : Store.World) (m : passwordManagerModel) (key : string)
  : Store.World * passwordManagerModel * Cmd :=
  if String.eqb key "ctrl+c" then (w, set_quitting true m, Quit)
  else if String.eqb key "esc" then
    (w, set_message "" (set_cursor 0 (set_mode "menu" m)), NoCmd)
  else if is_key key ["tab"; "down"] then
    (w, set_inputField (Z.rem (inputField m + 1) 3) m, NoCmd)
  else if is_key key ["shift+tab"; "up"] then
    (w, set_inputField (Z.rem (inputField m - 1 + 3) 3) m, NoCmd)
  else if String.eqb key "enter" then
    if (inputField m =? 2) && negb (String.eqb (inputID m) "")
       && negb (String.eqb (inputPwd m) "")
    then
      match Store.Add (store m) (inputID m) (inputDesc m) (inputPwd m) with
      | (store', Some err) =>
          (w, set_messageType "error" (set_message ("Error: " +:+ err)
                (set_store store' m)), NoCmd)
      | (store', None) =>
          let m := set_store store' m in
          match Store.Save w (store m) (masterPwd m) None with
          | (w', Some err) =>
              (w', set_messageType "error" (set_message ("Error saving: " +:+ err) m),
               NoCmd)
          | (w', None) =>
              (w', set_inputField 0 (set_inputPwd "" (set_inputDesc "" (set_inputID ""
                     (set_passwordAdded true (set_messageType "success"
                        (set_message ("Password '" +:+ inputID m
                                      +:+ "' added successfully!") m)))))),
               NoCmd)
          end
      end
    else (w, m, NoCmd)
  else if String.eqb key "backspace" then
    if inputField m =? 0 then (w, set_inputID (backspace (inputID m)) m, NoCmd)
    else if inputField m =? 1 then (w, set_inputDesc (backspace (inputDesc m)) m, NoCmd)
    else if inputField m =? 2 then (w, set_inputPwd (backspace (inputPwd m)) m, NoCmd)
    else (w, m, NoCmd)
  else if Z.of_nat (String.length key) =? 1 then
    if inputField m =? 0 then (w, set_inputID (inputID m +:+ key) m, NoCmd)
    else if inputField m =? 1 then (w, set_inputDesc (inputDesc m +:+ key) m, NoCmd)
    else if inputField m =? 2 then (w, set_inputPwd (inputPwd m +:+ key) m, NoCmd)
    else (w, m, NoCmd)
  else (w, m, NoCmd).

(** [updateList]. *)
Definition updateList (m : passwordManagerModel) (key : string)
  : passwordManagerModel * Cmd :=
  if String.eqb key "ctrl+c" then (set_quitting true m, Quit)
  else if is_key key ["esc"; "q"] then (set_cursor 0 (set_mode "menu" m), NoCmd)
  else if is_key key ["up"; "k"] then
    (if 0 <? cursor m then set_cursor (cursor m - 1) m else m, NoCmd)
  else if is_key key ["down"; "j"] then
    (if cursor m <? Z.of_nat (length (entries m)) - 1
     then set_cursor (cursor m + 1) m else m, NoCmd)
  else (m, NoCmd).

(** [m.entries[m.cursor]] under the guard
    [len(m.entries) > 0 && m.cursor < len(m.entries)], for a cursor that
    is not negative (with a negative one the index panics in Go; the
    cursor is never negative, see [consistent]). *)
Definition selected (m : passwordManagerModel) : option Store.PasswordEntry :=
  if (0 <? Z.of_nat (length (entries m))) && (cursor m <? Z.of_nat (length (entries m)))
  then entries m !! Z.to_nat (cursor m)
  else None.

(** The two statements that bring the cursor back into the list. *)
Definition clamp_cursor (m : passwordManagerModel) : passwordManagerModel :=
  let m := if Z.of_nat (length (entries m)) <=? cursor m
           then set_cursor (Z.of_nat (length (entries m)) - 1) m else m in
  if cursor m <? 0 then set_cursor 0 m else m.

(** [updateRemove]. *)
Definition updateRemove (w : Store.World) (m : passwordManagerModel) (key : string)
  : Store.World * passwordManagerModel * Cmd :=
  if String.eqb key "ctrl+c" then (w, set_quitting true m, Quit)
  else if is_key key ["esc"; "q"] then
    (w, set_message "" (set_cursor 0 (set_mode "menu" m)), NoCmd)
  else if is_key key ["up"; "k"] then
    (w, if 0 <? cursor m then set_cursor (cursor m - 1) m else m, NoCmd)
  else if is_key key ["down"; "j"] then
    (w, if cursor m <? Z.of_nat (length (entries m)) - 1
        then set_cursor (cursor m + 1) m else m, NoCmd)
  else if is_key key ["enter"; " "] then
    match selected m with
    | Some entry =>
        match Store.Remove (store m) (Store.ID entry) with
        | (store', Some err) =>
            (w, set_messageType "error" (set_message ("Error: " +:+ err)
                  (set_store store' m)), NoCmd)
        | (store', None) =>
            let m := set_store store' m in
            match Store.Save w (store m) (masterPwd m) None with
            | (w', Some err) =>
                (w', set_messageType "error" (set_message ("Error saving: " +:+ err) m),
                 NoCmd)
            | (w', None) =>
                (w', clamp_cursor
                       (set_entries (StoreFacts.List w' (store m))
                          (set_messageType "success"
                             (set_message ("Password '" +:+ Store.ID entry +:+ "' removed")
                                m))),
                 NoCmd)
            end
        end
    | None => (w, m, NoCmd)
    end
  else (w, m, NoCmd).

(** [updateView]. *)
Definition updateView (m : passwordManagerModel) (key : string)
  : passwordManagerModel * Cmd :=
  if String.eqb key "ctrl+c" then (set_quitting true m, Quit)
  else if is_key key ["esc"; "q"] then
    (set_viewingPassword "" (set_cursor 0 (set_mode "menu" m)), NoCmd)
  else if is_key key ["up"; "k"] then
    (if 0 <? cursor m then set_viewingPassword "" (set_cursor (cursor m - 1) m) else m,
     NoCmd)
  else if is_key key ["down"; "j"] then
    (if cursor m <? Z.of_nat (length (entries m)) - 1
     then set_viewingPassword "" (set_cursor (cursor m + 1) m) else m, NoCmd)
  else if is_key key ["enter"; " "] then
    match selected m with
    | Some entry =>
        match Store.Get (store m) (Store.ID entry) with
        | inl err => (set_messageType "error" (set_message ("Error: " +:+ err) m), NoCmd)
        | inr pwd => (set_message "" (set_viewingPassword pwd m), NoCmd)
        end
    | None => (m, NoCmd)
    end
  else (m, NoCmd).

(** [updateChangeMaster]. *)
Definition updateChangeMaster (w : Store.World) (m : passwordManagerModel) (key : string)
  : Store.World * passwordManagerModel * Cmd :=
  if String.eqb key "ctrl+c" then (w, set_quitting true m, Quit)
  else if String.eqb key "esc" then
    (w, set_message "" (set_cursor 0 (set_mode "menu" m)), NoCmd)
  else if is_key key ["tab"; "down"] then
    (w, set_inputField (Z.rem (inputField m + 1) 3) m, NoCmd)
  else if is_key key ["shift+tab"; "up"] then
    (w, set_inputField (Z.rem (inputField m - 1 + 3) 3) m, NoCmd)
  else if String.eqb key "enter" then
    if (inputField m =? 2) && negb (String.eqb (inputOldPwd m) "")
       && negb (String.eqb (inputNewPwd m) "")
    then
      if Z.of_nat (String.length (inputNewPwd m)) <? 8 then
        (w, set_messageType "error"
              (set_message "New password must be at least 8 characters" m), NoCmd)
      else if negb (String.eqb (inputNewPwd m) (inputConfirmPwd m)) then
        (w, set_messageType "error" (set_message "New passwords do not match" m), NoCmd)
      else
        match Store.ChangeMasterPassword w (store m) (inputOldPwd m) (inputNewPwd m) with
        | (w', store', Some err) =>
            (w', set_messageType "error" (set_message ("Error: " +:+ err)
                   (set_store store' m)), NoCmd)
        | (w', store', None) =>
            (w', set_inputField 0 (set_inputConfirmPwd "" (set_inputNewPwd ""
                   (set_inputOldPwd "" (set_masterPwd (inputNewPwd m)
                      (set_messageType "success"
                         (set_message "Master password changed successfully!"
                            (set_store store' m))))))),
             NoCmd)
        end
    else (w, m, NoCmd)
  else if String.eqb key "backspace" then
    if inputField m =? 0 then (w, set_inputOldPwd (backspace (inputOldPwd m)) m, NoCmd)
    else if inputField m =? 1 then (w, set_inputNewPwd (backspace (inputNewPwd m)) m, NoCmd)
    else if inputField m =? 2
    then (w, set_inputConfirmPwd (backspace (inputConfirmPwd m)) m, NoCmd)
    else (w, m, NoCmd)
  else if Z.of_nat (String.length key) =? 1 then
    if inputField m =? 0 then (w, set_inputOldPwd (inputOldPwd m +:+ key) m, NoCmd)
    else if inputField m =? 1 then (w, set_inputNewPwd (inputNewPwd m +:+ key) m, NoCmd)
    else if inputField m =? 2
    then (w, set_inputConfirmPwd (inputConfirmPwd m +:+ key) m, NoCmd)
    else (w, m, NoCmd)
  else (w, m, NoCmd).

(** [passwordManagerModel.Update]. *)
Definition Update (w : Store.World) (m : passwordManagerModel) (msg : Msg)
  : Store.World * passwordManagerModel * Cmd :=
  match msg with
  | WindowSizeMsg width height => (w, set_height height (set_width width m), NoCmd)
  | KeyMsg key =>
      if String.eqb (mode m) "menu" then let '(m', cmd) := updateMenu w m key in (w, m', cmd)
      else if String.eqb (mode m) "add" then updateAdd w m key
      else if String.eqb (mode m) "list"
      then let '(m', cmd) := updateList m key in (w, m', cmd)
      else if String.eqb (mode m) "remove" then updateRemove w m key
      else if String.eqb (mode m) "view"
      then let '(m', cmd) := updateView m key in (w, m', cmd)
      else if String.eqb (mode m) "change-master" then updateChangeMaster w m key
      else (w, m, NoCmd)
  | OtherMsg => (w, m, NoCmd)
  end.

(** The order in which the next [range] visits a map. *)
Definition set_range_order (w : Store.World)
    (order : gmap string Store.PasswordEntry -> list (string * Store.PasswordEntry))
  : Store.World :=
  {| Store.file := Store.file w; Store.entropy := Store.entropy w;
     Store.dir_ok := Store.dir_ok w; Store.write_ok := Store.write_ok w;
     Store.write_torn := Store.write_torn w; Store.range_order := order |}.

(** The program loop of the library: [Update] for every message, up to the
    one that returns [tea.Quit].  Every message comes with the order in
    which the maps are visited while it is handled. *)
Fixpoint run (w : Store.World) (m : passwordManagerModel)
    (inputs : list ((gmap string Store.PasswordEntry
                     -> list (string * Store.PasswordEntry)) * Msg))
  : Store.World * passwordManagerModel :=
  match inputs with
  | [] => (w, m)
  | (order, msg) :: rest =>
      match Update (set_range_order w order) m msg with
      | (w', m', Quit) => (w', m')
      | (w', m', NoCmd) => run w' m' rest
      end
  end.

(** A string of 7-bit characters. *)
Definition ascii_only (s : string) : bool :=
  Directives.string_forallb (fun c => (N_of_ascii c <? 128)%N) s.

(** The name of a key is valid UTF-8, as the library writes it. *)
Definition key_ok (msg : Msg) : bool :=
  match msg with
  | KeyMsg key => Store.utf8_valid key
  | _ => true
  end.

(** What [Update] keeps: the file system works; the list on the screen
    holds no secret; the cursor and the field number are in their ranges;
    the passphrase of the manager opens the file; the entries of the store
    are as a file gives them, and what was typed as an id or a description
    is 7-bit text. *)
Definition consistent (w : Store.World) (m : passwordManagerModel) : Prop :=
  Store.dir_ok w = true /\ Store.write_ok w = true /\
  Forall (fun e => Store.Password e = "***") (entries m) /\
  0 <= cursor m /\
  0 <= inputField m < 3 /\
  (Store.Load w Store.NewPasswordStore (masterPwd m)).2 = None /\
  Store.from_file (Store.entries (store m)) /\
  ascii_only (inputID m) = true /\ ascii_only (inputDesc m) = true.

(** *** Facts. *)

(** Two worlds with the same file system and the same order of the maps. *)
Definition same_env (w w' : Store.World) : Prop :=
  Store.dir_ok w' = Store.dir_ok w /\ Store.write_ok w' = Store.write_ok w /\
  Store.range_order w' = Store.range_order w.

Lemma rand_Read_frame (n : nat) (w w' : Store.World) (b : list byte) :
  Store.rand_Read n w = Some (b, w') -> same_env w w' /\ Store.file w' = Store.file w.
Proof. intros (_ & _ & ->)%Store.rand_Read_inv. by repeat split. Qed.

Lemma encrypt_frame (w : Store.World) (plaintext key : list byte) :
  same_env w (Store.encrypt w plaintext key).1 /\
  Store.file (Store.encrypt w plaintext key).1 = Store.file w.
Proof.
  unfold Store.encrypt. destruct (negb _); [by repeat split|].
  destruct (Store.rand_Read _ w) as [[nonce w']|] eqn:E; [|by repeat split].
  by apply rand_Read_frame in E.
Qed.

Lemma encrypt_entries_frame (es : list Store.PasswordEntry) :
  forall w key acc,
    same_env w (Store.encrypt_entries w key es acc).1 /\
    Store.file (Store.encrypt_entries w key es acc).1 = Store.file w.
Proof.
  induction es as [|e es IH]; intros w key acc; [by repeat split|].
  cbn [Store.encrypt_entries].
  pose proof (encrypt_frame w (list_byte_of_string (Store.Password e)) key) as H.
  destruct (Store.encrypt w _ key) as [w' [err|c]]; cbn [fst] in H; [done|].
  destruct H as ((H1 & H2 & H3) & H4).
  destruct (IH w' key (acc ++ [Store.Entry (Store.ID e) (Store.Description e)
                                 (Store.base64_Encode c)])) as ((I1 & I2 & I3) & I4).
  repeat split; congruence.
Qed.

Lemma choose_salt_frame (w : Store.World) (salt : option (list byte)) :
  same_env w (Store.choose_salt w salt).1 /\
  Store.file (Store.choose_salt w salt).1 = Store.file w.
Proof.
  unfold Store.choose_salt. destruct salt; [by repeat split|].
  destruct (Store.file w) as [data|] eqn:Hf.
  - destruct (_ <=? _)%nat; [by repeat split|].
    destruct (Store.rand_Read _ w) as [[s w']|] eqn:E; [|by repeat split].
    apply rand_Read_frame in E. by rewrite Hf in E.
  - destruct (Store.rand_Read _ w) as [[s w']|] eqn:E; [|by repeat split].
    apply rand_Read_frame in E. by rewrite Hf in E.
Qed.

(** [Save] leaves the file system and the order of the maps as they are.
    When it fails the file is as it was, unless it is the write of the
    file that fails; and it fails when the file cannot be written. *)
Lemma Save_frame (w : Store.World) (ps : Store.PasswordStore) (masterPassword : string)
    (salt : option (list byte)) :
  same_env w (Store.Save w ps masterPassword salt).1 /\
  ((Store.Save w ps masterPassword salt).2 <> None -> Store.write_ok w = true ->
   Store.file (Store.Save w ps masterPassword salt).1 = Store.file w) /\
  (Store.write_ok w = false -> (Store.Save w ps masterPassword salt).2 <> None).
Proof.
  unfold Store.Save, same_env.
  pose proof (choose_salt_frame w salt) as H1.
  destruct (Store.choose_salt w salt) as [w1 [e|s]]; cbn [fst] in H1;
    destruct H1 as ((A1 & A2 & A3) & A4); [done|].
  cbv zeta.
  pose proof (encrypt_entries_frame (Store.range_order w1 (Store.entries ps)).*2 w1
                (Store.deriveMasterKey masterPassword s) []) as H2.
  destruct (Store.encrypt_entries w1 _ _ []) as [w2 [e|out]]; cbn [fst] in H2;
    destruct H2 as ((B1 & B2 & B3) & B4).
  { cbn [fst snd]. repeat split; congruence. }
  pose proof (encrypt_frame w2 (Store.json_MarshalIndent out)
                (Store.deriveMasterKey masterPassword s)) as H3.
  destruct (Store.encrypt w2 _ _) as [w3 [e|c]]; cbn [fst] in H3;
    destruct H3 as ((C1 & C2 & C3) & C4).
  { cbn [fst snd]. repeat split; congruence. }
  destruct (negb (Store.dir_ok w3)); [cbn [fst snd]; repeat split; congruence|].
  destruct (Store.write_ok w3) eqn:Hw; cbn [negb fst snd].
  - cbn. repeat split; congruence.
  - unfold Store.write_failed. destruct (Store.write_torn w3); cbn;
      repeat split; congruence.
Qed.

Lemma Load_same_file (w w' : Store.World) (ps : Store.PasswordStore)
    (masterPassword : string) :
  Store.file w' = Store.file w ->
  Store.Load w' ps masterPassword = Store.Load w ps masterPassword.
Proof. intros H. unfold Store.Load. by rewrite H. Qed.

Section WithLaws.
Context {Laws : Store.LibLaws L}.

(** The passphrase opens the file of the world. *)
Definition opens (w : Store.World) (masterPassword : string) : Prop :=
  (Store.Load w Store.NewPasswordStore masterPassword).2 = None.

Lemma Save_opens (w w' : Store.World) (ps : Store.PasswordStore)
    (masterPassword : string) (r : option string) :
  Store.Save w ps masterPassword None = (w', r) -> Store.write_ok w = true ->
  opens w masterPassword -> opens w' masterPassword.
Proof.
  intros Hsave Hwrite Hopens. unfold opens in *. destruct r as [e|].
  - destruct (Save_frame w ps masterPassword None) as (_ & Hfile & _).
    rewrite Hsave in Hfile. cbn [fst snd] in Hfile.
    by rewrite (Load_same_file w w') by (by apply Hfile).
  - by rewrite (Store.Save_Load _ _ _ Store.NewPasswordStore _ _ Hsave).
Qed.

Lemma ChangeMasterPassword_frame (w : Store.World) (ps : Store.PasswordStore)
    (oldPassword newPassword : string) :
  same_env w (Store.ChangeMasterPassword w ps oldPassword newPassword).1.1 /\
  ((Store.ChangeMasterPassword w ps oldPassword newPassword).2 <> None ->
   Store.write_ok w = true ->
   Store.file (Store.ChangeMasterPassword w ps oldPassword newPassword).1.1
   = Store.file w) /\
  (Store.from_file (Store.entries ps) ->
   Store.from_file
     (Store.entries (Store.ChangeMasterPassword w ps oldPassword newPassword).1.2)) /\
  (Store.write_ok w = false ->
   (Store.ChangeMasterPassword w ps oldPassword newPassword).2 <> None).
Proof.
  unfold Store.ChangeMasterPassword, same_env.
  destruct (Store.file w) as [data|] eqn:Hfile; [|done].
  destruct (length data <? Store.saltSize)%nat; [done|]. cbv zeta.
  destruct (Store.decrypt _ _) as [e|decryptedData]; [done|].
  destruct (Store.json_Unmarshal decryptedData) as [e|es] eqn:Hjson; [done|].
  pose proof (Store.decrypt_entries_from_file
                (Store.deriveMasterKey oldPassword (take Store.saltSize data)) es ∅) as Hff.
  destruct (Store.decrypt_entries _ es ∅) as [m err].
  specialize (Hff m err eq_refl (Store.json_Unmarshal_valid _ _ Hjson) Store.from_file_empty).
  destruct err as [e|]; [done|].
  destruct (Store.rand_Read Store.saltSize w) as [[newSalt w1]|] eqn:Hrand; [|done].
  apply rand_Read_frame in Hrand as ((A1 & A2 & A3) & A4).
  destruct (Save_frame w1 {| Store.entries := m |} newPassword (Some newSalt))
    as ((B1 & B2 & B3) & B4 & B5).
  destruct (Store.Save w1 _ newPassword (Some newSalt)) as [w2 [e|]]; cbn [fst snd] in *.
  - split; [repeat split; congruence|]. split; [|done].
    intros _ Hwrite. rewrite B4 by congruence. congruence.
  - split; [repeat split; congruence|]. split; [done|]. split; [done|].
    intros Hwrite. apply B5. congruence.
Qed.

Lemma ChangeMasterPassword_opens (w w' : Store.World) (ps ps' : Store.PasswordStore)
    (oldPassword newPassword masterPassword : string) (r : option string) :
  Store.ChangeMasterPassword w ps oldPassword newPassword = (w', ps', r) ->
  Store.write_ok w = true ->
  opens w masterPassword ->
  opens w' (match r with None => newPassword | Some _ => masterPassword end).
Proof.
  intros Hchange Hwrite Hopens. unfold opens in *. destruct r as [e|].
  - destruct (ChangeMasterPassword_frame w ps oldPassword newPassword) as (_ & Hfile & _).
    rewrite Hchange in Hfile. cbn [fst snd] in Hfile.
    by rewrite (Load_same_file w w') by (by apply Hfile).
  - apply (Store.ChangeMasterPassword_inv _ _ _ _ Store.NewPasswordStore) in Hchange
      as (m & newSalt & w1 & _ & _ & _ & Hrand & Hsave).
    rewrite (Store.Save_Load _ _ _ Store.NewPasswordStore _ _ Hsave); [done|].
    intros s0 [= <-]. by apply Store.rand_Read_inv in Hrand as [? _].
Qed.

Lemma ascii_only_valid (s : string) : ascii_only s = true -> Store.utf8_valid s = true.
Proof.
  unfold ascii_only, Store.utf8_valid. induction s as [|c r IH]; [done|].
  cbn [Directives.string_forallb Store.utf8_run Store.utf8_step].
  intros [Hc Hr]%andb_true_iff. rewrite Hc. by apply IH.
Qed.

Lemma ascii_only_append (a b : string) :
  ascii_only (a +:+ b) = ascii_only a && ascii_only b.
Proof.
  unfold ascii_only. induction a as [|c r IH]; [done|].
  change (String c r +:+ b) with (String c (r +:+ b)).
  cbn [Directives.string_forallb]. by rewrite IH, andb_assoc.
Qed.

Lemma ascii_only_backspace (s : string) :
  ascii_only s = true -> ascii_only (backspace s) = true.
Proof.
  unfold backspace. destruct (0 <? _); [|done]. unfold ascii_only.
  induction s as [|c r IH]; [done|]. cbn [Directives.string_forallb drop_last].
  intros [Hc Hr]%andb_true_iff. destruct r as [|d r']; [done|].
  cbn [Directives.string_forallb]. rewrite Hc. by apply IH.
Qed.

(** The name of a key that is one byte long is a 7-bit character. *)
Lemma key_ascii (key : string) :
  Z.of_nat (String.length key) = 1 -> Store.utf8_valid key = true -> ascii_only key = true.
Proof.
  destruct key as [|c [|d r]]; cbn [String.length]; [lia| |lia]. intros _.
  unfold Store.utf8_valid, ascii_only.
  cbn [Store.utf8_run Store.utf8_step Directives.string_forallb].
  destruct (N_of_ascii c <? 128)%N; [done|].
  repeat match goal with
         | |- context [if ?c then _ else _] => destruct c
         end; done.
Qed.

Lemma ascii_only_typed (s key : string) :
  (Z.of_nat (String.length key) =? 1) = true -> Store.utf8_valid key = true ->
  ascii_only s = true -> ascii_only (s +:+ key) = true.
Proof.
  intros Hlen%Z.eqb_eq Hkey Hs. by rewrite ascii_only_append, Hs, key_ascii.
Qed.

Lemma Add_from_file_valid (ps : Store.PasswordStore) (id description password : string) :
  Store.from_file (Store.entries ps) ->
  Store.utf8_valid id = true -> Store.utf8_valid description = true ->
  Store.from_file (Store.entries (Store.Add ps id description password).1).
Proof.
  intros Hps Hid Hdesc. unfold Store.Add.
  destruct (Store.entries ps !! id) eqn:E; [done|]. intros k e. cbn [fst Store.entries].
  destruct (decide (k = id)) as [->|Hne].
  - rewrite lookup_insert_eq. by intros [= <-].
  - rewrite lookup_insert_ne by done. apply Hps.
Qed.

Lemma Add_from_file (ps : Store.PasswordStore) (id description password : string) :
  Store.from_file (Store.entries ps) ->
  ascii_only id = true -> ascii_only description = true ->
  Store.from_file (Store.entries (Store.Add ps id description password).1).
Proof.
  intros Hps Hid%ascii_only_valid Hdesc%ascii_only_valid. by apply Add_from_file_valid.
Qed.

Lemma Remove_from_file (ps : Store.PasswordStore) (id : string) :
  Store.from_file (Store.entries ps) ->
  Store.from_file (Store.entries (Store.Remove ps id).1).
Proof.
  intros Hps. unfold Store.Remove. destruct (Store.entries ps !! id) eqn:E; [|done].
  intros k e. cbn [fst Store.entries]. intros [_ H]%lookup_delete_Some. by apply Hps.
Qed.

Lemma List_masked (w : Store.World) (ps : Store.PasswordStore) :
  Forall (fun e => Store.Password e = "***") (StoreFacts.List w ps).
Proof. unfold StoreFacts.List. apply Forall_fmap, Forall_forall. by intros e _. Qed.

Lemma field_next (f : Z) : 0 <= f < 3 -> 0 <= Z.rem (f + 1) 3 < 3.
Proof. intros H. apply Z.rem_bound_pos; lia. Qed.

Lemma field_previous (f : Z) : 0 <= f < 3 -> 0 <= Z.rem (f - 1 + 3) 3 < 3.
Proof. intros H. apply Z.rem_bound_pos; lia. Qed.

Ltac fields := cbn [store masterPwd mode entries cursor width height inputID inputDesc inputPwd inputOldPwd inputNewPwd inputConfirmPwd inputField message messageType quitting passwordAdded viewingPassword set_store set_masterPwd set_mode set_entries set_cursor set_width set_height set_inputID set_inputDesc set_inputPwd set_inputOldPwd set_inputNewPwd set_inputConfirmPwd set_inputField set_message set_messageType set_quitting set_passwordAdded set_viewingPassword] in *.

Ltac split_consistent :=
  unfold consistent;
  split; [|split; [|split; [|split; [|split; [|split; [|split; [|split]]]]]]].

Ltac keep :=
  fields;
  first [ assumption | done | lia | congruence | apply List_masked | by apply field_next
        | by apply field_previous | by apply ascii_only_backspace
        | by apply ascii_only_typed ].

Lemma updateMenu_consistent (w : Store.World) (m : passwordManagerModel) (key : string) :
  consistent w m -> consistent w (updateMenu w m key).1.
Proof.
  intros (E1 & E2 & Hmask & Hcur & Hfield & Hopen & Hff & Hid & Hdesc). unfold updateMenu.
  repeat match goal with
         | |- context [if ?c then _ else _] => destruct c eqn:?
         end; cbn [fst]; split_consistent; keep.
Qed.

Ltac branches :=
  repeat match goal with
         | |- context [if ?c then _ else _] => destruct c eqn:?
         end.

Lemma updateList_consistent (w : Store.World) (m : passwordManagerModel) (key : string) :
  consistent w m -> consistent w (updateList m key).1.
Proof.
  intros (E1 & E2 & Hmask & Hcur & Hfield & Hopen & Hff & Hid & Hdesc). unfold updateList.
  branches; cbn [fst]; split_consistent; keep.
Qed.

Lemma updateView_consistent (w : Store.World) (m : passwordManagerModel) (key : string) :
  consistent w m -> consistent w (updateView m key).1.
Proof.
  intros (E1 & E2 & Hmask & Hcur & Hfield & Hopen & Hff & Hid & Hdesc). unfold updateView.
  destruct (String.eqb key "ctrl+c"); [cbn [fst]; split_consistent; keep|].
  destruct (is_key key ["esc"; "q"]); [cbn [fst]; split_consistent; keep|].
  destruct (is_key key ["up"; "k"]); [branches; cbn [fst]; split_consistent; keep|].
  destruct (is_key key ["down"; "j"]); [branches; cbn [fst]; split_consistent; keep|].
  destruct (is_key key ["enter"; " "]); [|cbn [fst]; split_consistent; keep].
  destruct (selected m) as [entry|]; [|cbn [fst]; split_consistent; keep].
  destruct (Store.Get _ _); cbn [fst]; split_consistent; keep.
Qed.

Lemma updateAdd_consistent (w : Store.World) (m : passwordManagerModel) (key : string) :
  Store.utf8_valid key = true ->
  consistent w m -> consistent (updateAdd w m key).1.1 (updateAdd w m key).1.2.
Proof.
  intros Hkey (E1 & E2 & Hmask & Hcur & Hfield & Hopen & Hff & Hid & Hdesc).
  unfold updateAdd.
  destruct (String.eqb key "ctrl+c"); [cbn [fst snd]; split_consistent; keep|].
  destruct (String.eqb key "esc"); [cbn [fst snd]; split_consistent; keep|].
  destruct (is_key key ["tab"; "down"]); [cbn [fst snd]; split_consistent; keep|].
  destruct (is_key key ["shift+tab"; "up"]); [cbn [fst snd]; split_consistent; keep|].
  destruct (String.eqb key "enter").
  { destruct (_ && _ && _); [|cbn [fst snd]; split_consistent; keep].
    pose proof (Add_from_file (store m) (inputID m) (inputDesc m) (inputPwd m)
                  Hff Hid Hdesc) as Hadd.
    destruct (Store.Add _ _ _ _) as [store' [err|]]; cbn [fst] in Hadd;
      [cbn [fst snd]; split_consistent; keep|].
    fields.
    destruct (Save_frame w store' (masterPwd m) None) as ((S1 & S2 & S3) & _).
    pose proof (Save_opens w (Store.Save w store' (masterPwd m) None).1 store'
                  (masterPwd m) (Store.Save w store' (masterPwd m) None).2) as Hsave.
    destruct (Store.Save w store' (masterPwd m) None) as [w' r]. cbn [fst snd] in *.
    specialize (Hsave eq_refl E2 Hopen).
    destruct r; cbn [fst snd]; split_consistent; keep. }
  destruct (String.eqb key "backspace");
    [branches; cbn [fst snd]; split_consistent; keep|].
  branches; cbn [fst snd]; split_consistent; keep.
Qed.

Lemma updateRemove_consistent (w : Store.World) (m : passwordManagerModel) (key : string) :
  consistent w m -> consistent (updateRemove w m key).1.1 (updateRemove w m key).1.2.
Proof.
  intros (E1 & E2 & Hmask & Hcur & Hfield & Hopen & Hff & Hid & Hdesc).
  unfold updateRemove.
  destruct (String.eqb key "ctrl+c"); [cbn [fst snd]; split_consistent; keep|].
  destruct (is_key key ["esc"; "q"]); [cbn [fst snd]; split_consistent; keep|].
  destruct (is_key key ["up"; "k"]); [branches; cbn [fst snd]; split_consistent; keep|].
  destruct (is_key key ["down"; "j"]); [branches; cbn [fst snd]; split_consistent; keep|].
  destruct (is_key key ["enter"; " "]); [|cbn [fst snd]; split_consistent; keep].
  destruct (selected m) as [entry|]; [|cbn [fst snd]; split_consistent; keep].
  pose proof (Remove_from_file (store m) (Store.ID entry) Hff) as Hremove.
  destruct (Store.Remove _ _) as [store' [err|]]; cbn [fst] in Hremove;
    [cbn [fst snd]; split_consistent; keep|].
  fields.
  destruct (Save_frame w store' (masterPwd m) None) as ((S1 & S2 & S3) & _).
  pose proof (Save_opens w (Store.Save w store' (masterPwd m) None).1 store'
                (masterPwd m) (Store.Save w store' (masterPwd m) None).2) as Hsave.
  destruct (Store.Save w store' (masterPwd m) None) as [w' r]. cbn [fst snd] in *.
  specialize (Hsave eq_refl E2 Hopen).
  destruct r; cbn [fst snd]; [split_consistent; keep|].
  unfold clamp_cursor. fields. branches; split_consistent; keep.
Qed.

Lemma updateChangeMaster_consistent (w : Store.World) (m : passwordManagerModel)
    (key : string) :
  consistent w m ->
  consistent (updateChangeMaster w m key).1.1 (updateChangeMaster w m key).1.2.
Proof.
  intros (E1 & E2 & Hmask & Hcur & Hfield & Hopen & Hff & Hid & Hdesc).
  unfold updateChangeMaster.
  destruct (String.eqb key "ctrl+c"); [cbn [fst snd]; split_consistent; keep|].
  destruct (String.eqb key "esc"); [cbn [fst snd]; split_consistent; keep|].
  destruct (is_key key ["tab"; "down"]); [cbn [fst snd]; split_consistent; keep|].
  destruct (is_key key ["shift+tab"; "up"]); [cbn [fst snd]; split_consistent; keep|].
  destruct (String.eqb key "enter").
  { destruct (_ && _ && _); [|cbn [fst snd]; split_consistent; keep].
    destruct (_ <? 8); [cbn [fst snd]; split_consistent; keep|].
    destruct (negb _); [cbn [fst snd]; split_consistent; keep|].
    destruct (ChangeMasterPassword_frame w (store m) (inputOldPwd m) (inputNewPwd m))
      as ((S1 & S2 & S3) & _ & Hff' & _).
    specialize (Hff' Hff).
    pose proof (ChangeMasterPassword_opens w
                  (Store.ChangeMasterPassword w (store m) (inputOldPwd m)
                     (inputNewPwd m)).1.1 (store m)
                  (Store.ChangeMasterPassword w (store m) (inputOldPwd m)
                     (inputNewPwd m)).1.2
                  (inputOldPwd m) (inputNewPwd m) (masterPwd m)
                  (Store.ChangeMasterPassword w (store m) (inputOldPwd m)
                     (inputNewPwd m)).2) as Hchange.
    destruct (Store.ChangeMasterPassword w (store m) (inputOldPwd m) (inputNewPwd m))
      as [[w' store'] r]. cbn [fst snd] in *.
    specialize (Hchange eq_refl E2 Hopen).
    destruct r; cbn [fst snd]; split_consistent; keep. }
  destruct (String.eqb key "backspace");
    [branches; cbn [fst snd]; split_consistent; keep|].
  branches; cbn [fst snd]; split_consistent; keep.
Qed.

Lemma consistent_set_range_order (w : Store.World) (m : passwordManagerModel)
    (order : gmap string Store.PasswordEntry -> list (string * Store.PasswordEntry)) :
  consistent w m -> consistent (set_range_order w order) m.
Proof.
  intros (E1 & E2 & Hmask & Hcur & Hfield & Hopen & Hff & Hid & Hdesc).
  split_consistent; try done.
Qed.

Lemma Update_keeps_consistent (w : Store.World) (m : passwordManagerModel) (msg : Msg) :
  key_ok msg = true ->
  consistent w m -> consistent (Update w m msg).1.1 (Update w m msg).1.2.
Proof.
  intros Hkey Hm. destruct msg as [width height|key|]; cbn [Update].
  - destruct Hm as (E1 & E2 & Hmask & Hcur & Hfield & Hopen & Hff & Hid & Hdesc).
    cbn [fst snd]. split_consistent; keep.
  - destruct (String.eqb (mode m) "menu").
    { pose proof (updateMenu_consistent w m key Hm) as H.
      by destruct (updateMenu w m key). }
    destruct (String.eqb (mode m) "add"); [by apply updateAdd_consistent|].
    destruct (String.eqb (mode m) "list").
    { pose proof (updateList_consistent w m key Hm) as H.
      by destruct (updateList m key). }
    destruct (String.eqb (mode m) "remove"); [by apply updateRemove_consistent|].
    destruct (String.eqb (mode m) "view").
    { pose proof (updateView_consistent w m key Hm) as H.
      by destruct (updateView m key). }
    destruct (String.eqb (mode m) "change-master");
      [by apply updateChangeMaster_consistent | done].
  - done.
Qed.

Lemma run_keeps_consistent
    (inputs : list ((gmap string Store.PasswordEntry
                     -> list (string * Store.PasswordEntry)) * Msg)) :
  forall w m,
    Forall (fun input => key_ok input.2 = true) inputs ->
    consistent w m -> consistent (run w m inputs).1 (run w m inputs).2.
Proof.
  induction inputs as [|[order msg] rest IH]; intros w m Hkeys Hm; [done|].
  apply Forall_cons in Hkeys as [Hkey Hkeys]. cbn [run].
  pose proof (Update_keeps_consistent (set_range_order w order) m msg Hkey
                (consistent_set_range_order w m order Hm)) as H.
  destruct (Update (set_range_order w order) m msg) as [[w' m'] [|]]; [done|].
  by apply IH.
Qed.

Lemma initial_consistent (w : Store.World) (st : Store.PasswordStore) (pwd : string) :
  Store.dir_ok w = true -> Store.write_ok w = true ->
  Store.Load w Store.NewPasswordStore pwd = (st, None) ->
  consistent w (initialPasswordManagerModel w st pwd).
Proof.
  intros E1 E2 Hload. unfold initialPasswordManagerModel. split_consistent; fields;
    try done; try lia.
  - apply List_masked.
  - by rewrite Hload.
  - eapply (Store.Load_from_file w Store.NewPasswordStore st); [exact Hload|].
    apply Store.from_file_empty.
Qed.

(** X27: what the password manager keeps.  Started on a store that [Load]
    opened, and whatever keys are pressed, the manager is always in a
    state where the list it holds for the screen carries [***] in place of
    every secret, the cursor is not negative, the number of the input
    field is 0, 1 or 2, the passphrase it holds opens the store file,
    every entry of the store in memory is under its own id with id and
    description in valid UTF-8, and what was typed as an id or a
    description is 7-bit text (the file system working, and the names of
    the keys being valid UTF-8). *)
Theorem manager_stays_consistent (w : Store.World) (st : Store.PasswordStore)
    (pwd : string)
    (inputs : list ((gmap string Store.PasswordEntry
                     -> list (string * Store.PasswordEntry)) * Msg)) :
  Store.dir_ok w = true -> Store.write_ok w = true ->
  Store.Load w Store.NewPasswordStore pwd = (st, None) ->
  Forall (fun input => key_ok input.2 = true) inputs ->
  let '(w', m) := run w (initialPasswordManagerModel w st pwd) inputs in
  Forall (fun e => Store.Password e = "***") (entries m) /\
  0 <= cursor m /\
  0 <= inputField m < 3 /\
  (Store.Load w' Store.NewPasswordStore (masterPwd m)).2 = None /\
  Store.from_file (Store.entries (store m)) /\
  ascii_only (inputID m) = true /\ ascii_only (inputDesc m) = true.
Proof.
  intros E1 E2 Hload Hkeys.
  pose proof (run_keeps_consistent inputs w _ Hkeys (initial_consistent w st pwd
                                                  E1 E2 Hload)) as H.
  destruct (run w _ inputs) as [w' m]. cbn [fst snd] in H.
  destruct H as (_ & _ & Hmask & Hcur & Hfield & Hopen & Hff & Hid & Hdesc). done.
Qed.

Lemma Save_synced (w w' : Store.World) (ps : Store.PasswordStore) (masterPassword : string) :
  Store.range_any_order w -> Store.from_file (Store.entries ps) ->
  Store.Save w ps masterPassword None = (w', None) ->
  Store.Load w' Store.NewPasswordStore masterPassword = (ps, None).
Proof.
  intros Horder Hff Hsave.
  rewrite (Store.Save_Load_any_order w w' ps Store.NewPasswordStore masterPassword None);
    [by destruct ps|done..].
Qed.

(** X28: a password added through the form is saved.  On [enter] in the
    last field of the form, with an id and a password typed (the store in
    memory as a file gives it, id and description in valid UTF-8, a
    [range] visiting every entry once): when the manager reports success,
    the store in memory gives the password for the id, and the store file,
    read again with the passphrase of the manager, gives exactly the store
    in memory; otherwise it reports an error, and the store file is as
    before unless it is the write of the file that failed (a write that
    fails can leave the file emptied or in part written). *)
Theorem added_password_is_saved (w : Store.World) (m : passwordManagerModel) :
  Store.from_file (Store.entries (store m)) ->
  Store.utf8_valid (inputID m) = true -> Store.utf8_valid (inputDesc m) = true ->
  Store.range_any_order w ->
  mode m = "add" -> inputField m = 2 -> inputID m <> "" -> inputPwd m <> "" ->
  let '(w', m', _) := Update w m (KeyMsg "enter") in
  (messageType m' = "success" ->
   Store.Get (store m') (inputID m) = inr (inputPwd m) /\
   Store.Load w' Store.NewPasswordStore (masterPwd m') = (store m', None) /\
   message m' = "Password '" +:+ inputID m +:+ "' added successfully!") /\
  (messageType m' <> "success" ->
   messageType m' = "error" /\
   (Store.write_ok w = true -> Store.file w' = Store.file w)).
Proof.
  intros Hff Hid Hdesc Horder Hmode Hf Hidne Hpwdne.
  cbn [Update]. rewrite Hmode. cbn [String.eqb Ascii.eqb Bool.eqb].
  unfold updateAdd. cbn [String.eqb Ascii.eqb Bool.eqb is_key existsb orb].
  rewrite Hf. cbn [Z.eqb Pos.eqb andb].
  destruct (String.eqb_spec (inputID m) "") as [|_]; [done|].
  destruct (String.eqb_spec (inputPwd m) "") as [|_]; [done|]. cbn [negb andb].
  pose proof (Add_from_file_valid (store m) (inputID m) (inputDesc m) (inputPwd m)
                Hff Hid Hdesc) as Hadd.
  unfold Store.Add in *.
  destruct (Store.entries (store m) !! inputID m) eqn:Hlook.
  { fields. split; [done|]. done. }
  cbn [fst] in Hadd. fields.
  destruct (Store.Save w _ (masterPwd m) None) as [w' [err|]] eqn:Hsave; fields.
  - split; [done|]. intros _. split; [done|].
    destruct (Save_frame w {| Store.entries := <[inputID m:=Store.Entry (inputID m)
                (inputDesc m) (inputPwd m)]> (Store.entries (store m)) |}
                (masterPwd m) None) as (_ & Hfile & _).
    rewrite Hsave in Hfile. by apply Hfile.
  - split; [|done]. intros _. split; [|split; [|done]].
    + unfold Store.Get. cbn [Store.entries]. by rewrite lookup_insert_eq.
    + by apply (Save_synced w).
Qed.

(** X29: removing the entry under the cursor.  On [enter] in the list of
    the removal screen, with the cursor on an entry of the list (the store
    in memory as a file gives it, a [range] visiting every entry once):
    when the manager reports success, the store in
    memory no longer has the id, the store file read again with the
    passphrase of the manager gives exactly the store in memory, the list
    on the screen is the list of that store, and the cursor is on a row of
    it (or at 0 when nothing is left); otherwise the store file is as
    before unless it is the write of the file that failed (a write that
    fails can leave the file emptied or in part written). *)
Theorem removed_password_is_gone (w : Store.World) (m : passwordManagerModel)
    (entry : Store.PasswordEntry) :
  Store.from_file (Store.entries (store m)) -> Store.range_any_order w ->
  mode m = "remove" -> 0 <= cursor m -> selected m = Some entry ->
  let '(w', m', _) := Update w m (KeyMsg "enter") in
  (messageType m' = "success" ->
   Store.Get (store m') (Store.ID entry)
   = inl ("password with ID '" +:+ Store.ID entry +:+ "' not found") /\
   Store.Load w' Store.NewPasswordStore (masterPwd m') = (store m', None) /\
   entries m' = StoreFacts.List w' (store m') /\
   0 <= cursor m' /\
   (cursor m' < Z.of_nat (length (entries m')) \/ entries m' = [])) /\
  (messageType m' <> "success" ->
   Store.write_ok w = true -> Store.file w' = Store.file w).
Proof.
  intros Hff Horder Hmode Hcur Hsel.
  cbn [Update]. rewrite Hmode. cbn [String.eqb Ascii.eqb Bool.eqb].
  unfold updateRemove. cbn [String.eqb Ascii.eqb Bool.eqb is_key existsb orb].
  rewrite Hsel.
  pose proof (Remove_from_file (store m) (Store.ID entry) Hff) as Hremove.
  unfold Store.Remove in *.
  destruct (Store.entries (store m) !! Store.ID entry) eqn:Hlook.
  2:{ fields. split; [|done]. intros Hs. discriminate Hs. }
  cbn [fst] in Hremove. fields.
  destruct (Store.Save w _ (masterPwd m) None) as [w' [err|]] eqn:Hsave.
  - fields. split; [done|]. intros _.
    destruct (Save_frame w {| Store.entries := delete (Store.ID entry)
                (Store.entries (store m)) |} (masterPwd m) None) as (_ & Hfile & _).
    rewrite Hsave in Hfile. by apply Hfile.
  - split; [|unfold clamp_cursor; fields; branches; fields; done]. intros _.
    split; [|split; [|split]].
    + unfold clamp_cursor, Store.Get; fields; branches; fields; cbn [Store.entries];
        by rewrite lookup_delete_eq.
    + replace (masterPwd (clamp_cursor _)) with (masterPwd m)
        by (unfold clamp_cursor; fields; branches; done).
      replace (store (clamp_cursor _))
        with {| Store.entries := delete (Store.ID entry) (Store.entries (store m)) |}
        by (unfold clamp_cursor; fields; branches; done).
      by apply (Save_synced w).
    + unfold clamp_cursor; fields; branches; done.
    + unfold clamp_cursor; fields.
      destruct (Z.leb_spec (Z.of_nat (length (StoreFacts.List w'
                  {| Store.entries := delete (Store.ID entry)
                                        (Store.entries (store m)) |}))) (cursor m));
        fields;
        match goal with |- context [if ?c then _ else _] =>
          destruct (Z.ltb_spec0 _ _ : reflect _ c) end; fields;
        (split; [lia|]);
        destruct (StoreFacts.List w' _) as [|e l'] eqn:Hlist;
        first [by right | left; cbn [length] in *; lia].
Qed.



(** [ChangeMasterPassword] touches the file only after the old passphrase
    has opened it. *)
Lemma ChangeMasterPassword_touches (w : Store.World) (ps : Store.PasswordStore)
    (oldPassword newPassword : string) :
  Store.file (Store.ChangeMasterPassword w ps oldPassword newPassword).1.1 <> Store.file w ->
  opens w oldPassword.
Proof.
  unfold opens, Store.ChangeMasterPassword, Store.Load.
  destruct (Store.file w) as [data|] eqn:Hfile; [|done].
  destruct (length data <? Store.saltSize)%nat; [by intros []|]. cbv zeta.
  destruct (Store.decrypt _ _) as [e|decryptedData]; [by intros []|].
  destruct (Store.json_Unmarshal decryptedData) as [e|es]; [by intros []|].
  destruct (Store.decrypt_entries _ es ∅) as [m [e|]]; [by intros []|]. done.
Qed.

(** X30: changing the master passphrase through the form.  On [enter] in
    the form, the store file or the passphrase the manager holds changes
    only if the cursor is in the last field, the new passphrase has at
    least 8 bytes and equals its confirmation, and the old passphrase
    opens the store file.  When the passphrase of the manager changes, or
    the file changes where files can be written, the manager holds the new
    passphrase, the store file read with the new one gives what it gave
    with the old one, and that is the store in memory.  Where the file
    cannot be written the manager keeps its passphrase (a write that fails
    can still leave the file emptied or in part written). *)
Theorem master_password_change (w : Store.World) (m : passwordManagerModel) :
  Store.range_any_order w -> mode m = "change-master" ->
  let '(w', m', _) := Update w m (KeyMsg "enter") in
  (Store.file w' <> Store.file w \/ masterPwd m' <> masterPwd m ->
   inputField m = 2 /\
   8 <= Z.of_nat (String.length (inputNewPwd m)) /\
   inputNewPwd m = inputConfirmPwd m /\
   opens w (inputOldPwd m)) /\
  (masterPwd m' <> masterPwd m \/
   (Store.file w' <> Store.file w /\ Store.write_ok w = true) ->
   masterPwd m' = inputNewPwd m /\
   Store.Load w' Store.NewPasswordStore (masterPwd m')
   = Store.Load w Store.NewPasswordStore (inputOldPwd m) /\
   Store.Load w' Store.NewPasswordStore (masterPwd m') = (store m', None)) /\
  (Store.write_ok w = false -> masterPwd m' = masterPwd m).
Proof.
  intros Horder Hmode.
  cbn [Update]. rewrite Hmode. cbn [String.eqb Ascii.eqb Bool.eqb].
  unfold updateChangeMaster. cbn [String.eqb Ascii.eqb Bool.eqb is_key existsb orb].
  destruct (Z.eqb_spec (inputField m) 2) as [Hf|_]; cbn [andb];
    [|by split; [intros [|]|split; [intros [|[]]|]]].
  destruct (_ && _); [|by split; [intros [|]|split; [intros [|[]]|]]].
  destruct (Z.ltb_spec (Z.of_nat (String.length (inputNewPwd m))) 8) as [|Hlen];
    [by split; [intros [|]|split; [intros [|[]]|]]|].
  destruct (String.eqb_spec (inputNewPwd m) (inputConfirmPwd m)) as [Heq|_];
    cbn [negb]; [|by split; [intros [|]|split; [intros [|[]]|]]].
  destruct (ChangeMasterPassword_frame w (store m) (inputOldPwd m) (inputNewPwd m))
    as (_ & Hfile & _ & Hfails).
  pose proof (ChangeMasterPassword_touches w (store m) (inputOldPwd m) (inputNewPwd m))
    as Htouch.
  destruct (Store.ChangeMasterPassword w (store m) (inputOldPwd m) (inputNewPwd m))
    as [[w' store'] [err|]] eqn:Hchange; cbn [fst snd] in Hfile, Hfails, Htouch; fields.
  { split; [|split; [|done]].
    - intros [H|H]; [|done]. repeat split; try done. by apply Htouch.
    - intros [H|[H Hwrite]]; [done|]. destruct H. by apply Hfile. }
  destruct (Store.ChangeMasterPassword_spec w w' (store m) store' Store.NewPasswordStore
              (inputOldPwd m) (inputNewPwd m) Horder Hchange) as (Hold & Hnew & _).
  destruct (Store.ChangeMasterPassword_inv w w' (store m) store' Store.NewPasswordStore
              (inputOldPwd m) (inputNewPwd m) Hchange)
    as (entries' & salt & w1 & Hload & _ & -> & _).
  split; [|split].
  - intros _. repeat split; done.
  - intros _. repeat split; try done. by rewrite Hnew.
  - intros Hwrite. by destruct (Hfails Hwrite).
Qed.

End WithLaws.







End WithLib.




End Manager.

(** ** The password manager on a store with one entry. *)
Module ManagerChecks.
Import Manager Store Toy.

(** The store of [Checks.saved_world]. *)
Definition saved_store : PasswordStore :=
  {| entries := {[ "db" := Entry "db" "desc" "secret1" ]} |}.

Lemma saved_store_from_file : from_file (entries saved_store).
Proof.
  intros k e H. cbn in H. apply lookup_singleton_Some in H as [<- <-].
  split; [reflexivity|split; reflexivity].
Qed.

(** The manager as it starts on that store. *)
Definition started : passwordManagerModel :=
  initialPasswordManagerModel Checks.saved_world saved_store "old-pw".

(** Down to the second row of the menu, into the list, back, and a
    window size. *)
Definition some_keys
  : list ((gmap string PasswordEntry -> list (string * PasswordEntry)) * Msg) :=
  [(map_to_list, KeyMsg "down"); (map_to_list, KeyMsg "enter");
   (map_to_list, KeyMsg "esc"); (map_to_list, WindowSizeMsg 80 24)].

Lemma manager_stays_consistent_witness :
  let '(w', m) := run Checks.saved_world started some_keys in
  Forall (fun e => Password e = "***") (Manager.entries m) /\
  0 <= cursor m /\
  0 <= inputField m < 3 /\
  (Load w' NewPasswordStore (masterPwd m)).2 = None /\
  from_file (entries (store m)) /\
  ascii_only (inputID m) = true /\ ascii_only (inputDesc m) = true.
Proof.
  apply (manager_stays_consistent Checks.saved_world saved_store "old-pw" some_keys).
  - reflexivity.
  - reflexivity.
  - vm_compute. reflexivity.
  - repeat constructor.
Defined.

(** The form for a new password, filled in. *)
Definition add_form : passwordManagerModel :=
  set_inputPwd "s3cret" (set_inputDesc "mail account" (set_inputID "mail"
    (set_inputField 2 (set_mode "add" started)))).

Lemma added_password_is_saved_witness :
  let '(w', m', _) := Update Checks.saved_world add_form (KeyMsg "enter") in
  (messageType m' = "success" ->
   Get (store m') (inputID add_form) = inr (inputPwd add_form) /\
   Load w' NewPasswordStore (masterPwd m') = (store m', None) /\
   message m' = "Password '" +:+ inputID add_form +:+ "' added successfully!") /\
  (messageType m' <> "success" ->
   messageType m' = "error" /\
   (write_ok Checks.saved_world = true -> file w' = file Checks.saved_world)).
Proof.
  apply (added_password_is_saved Checks.saved_world add_form).
  - apply saved_store_from_file.
  - reflexivity.
  - reflexivity.
  - apply Checks.saved_world_any_order.
  - reflexivity.
  - reflexivity.
  - discriminate.
  - discriminate.
Defined.

(** A write that fails after the file was opened: the manager reports the
    error, the store file is left empty, and the passphrase of the manager
    opens it no more. *)
Definition torn_world : World :=
  {| file := file Checks.saved_world; entropy := entropy Checks.saved_world;
     dir_ok := true; write_ok := false; write_torn := Some 0%nat;
     range_order := map_to_list |}.

Example failed_write_empties_store :
  let '(w', m', _) := Update torn_world add_form (KeyMsg "enter") in
  messageType m' = "error" /\
  message m' = "Error saving: failed to write password store: file system error" /\
  file w' = Some [] /\
  Load w' NewPasswordStore (masterPwd m')
  = (NewPasswordStore, Some "invalid password store format").
Proof. vm_compute. repeat split. Qed.

(** The removal screen with the cursor on the only row. *)
Definition remove_screen : passwordManagerModel := set_mode "remove" started.

Lemma removed_password_is_gone_witness :
  let '(w', m', _) := Update Checks.saved_world remove_screen (KeyMsg "enter") in
  (messageType m' = "success" ->
   Get (store m') "db" = inl ("password with ID '" +:+ "db" +:+ "' not found") /\
   Load w' NewPasswordStore (masterPwd m') = (store m', None) /\
   Manager.entries m' = StoreFacts.List w' (store m') /\
   0 <= cursor m' /\
   (cursor m' < Z.of_nat (length (Manager.entries m')) \/ Manager.entries m' = [])) /\
  (messageType m' <> "success" ->
   write_ok Checks.saved_world = true -> file w' = file Checks.saved_world).
Proof.
  apply (removed_password_is_gone Checks.saved_world remove_screen (Entry "db" "desc" "***")).
  - apply saved_store_from_file.
  - apply Checks.saved_world_any_order.
  - reflexivity.
  - cbn. lia.
  - reflexivity.
Defined.

(** The form for a new master passphrase, filled in. *)
Definition change_form : passwordManagerModel :=
  set_inputConfirmPwd "new-passphrase" (set_inputNewPwd "new-passphrase"
    (set_inputOldPwd "old-pw" (set_inputField 2 (set_mode "change-master" started)))).

Lemma master_password_change_witness :
  let '(w', m', _) := Update Checks.saved_world change_form (KeyMsg "enter") in
  (file w' <> file Checks.saved_world \/ masterPwd m' <> masterPwd change_form ->
   inputField change_form = 2 /\
   8 <= Z.of_nat (String.length (inputNewPwd change_form)) /\
   inputNewPwd change_form = inputConfirmPwd change_form /\
   opens Checks.saved_world (inputOldPwd change_form)) /\
  (masterPwd m' <> masterPwd change_form \/
   (file w' <> file Checks.saved_world /\ write_ok Checks.saved_world = true) ->
   masterPwd m' = inputNewPwd change_form /\
   Load w' NewPasswordStore (masterPwd m')
   = Load Checks.saved_world NewPasswordStore (inputOldPwd change_form) /\
   Load w' NewPasswordStore (masterPwd m') = (store m', None)) /\
  (write_ok Checks.saved_world = false -> masterPwd m' = masterPwd change_form).
Proof.
  apply (master_password_change Checks.saved_world change_form).
  - apply Checks.saved_world_any_order.
  - reflexivity.
Defined.

End ManagerChecks.
